(** * Maximal-intervals minimizer for partial Boolean functions

    A shallow embedding of [maximal_intervals_minimizer.py] and the
    verification of its documented properties.

    Python integers are unbounded, so every bit mask and every evaluation
    point is a [Z]; [&], [|], [^], [~], [<<], [>>] are [Z.land], [Z.lor],
    [Z.lxor], [Z.lnot], [Z.shiftl], [Z.shiftr], which agree with Python's
    two's-complement semantics on negative numbers.  The number of variables
    is a [nat]: [1 << n] raises for a negative [n], so no object with a
    negative [n] can be built.  [while] loops carry fuel and return [None]
    when it runs out; [for] loops over a list or a [range] are folds. *)

From Stdlib Require Import String Ascii DecimalString.
From Stdlib Require Import ZArith List Bool Lia Arith.
Import ListNotations.
Local Open Scope Z_scope.

(** ** Python primitives *)

(** [bin(x).count('1')]: [bin] prints a sign and the binary digits of the
    absolute value. *)
Fixpoint pos_popcount (p : positive) : nat :=
  match p with
  | xH => 1
  | xO q => pos_popcount q
  | xI q => S (pos_popcount q)
  end.

Definition popcount (x : Z) : nat :=
  match x with
  | Z0 => O
  | Zpos p => pos_popcount p
  | Zneg p => pos_popcount p
  end.

(** [x.bit_length()] *)
Definition bit_length (x : Z) : Z :=
  if x =? 0 then 0 else Z.log2 (Z.abs x) + 1.

(** Truth value of an integer in a condition. *)
Definition truthy (x : Z) : bool := negb (x =? 0).

(** [range(k)] *)
Definition range (k : Z) : list Z := map Z.of_nat (seq 0 (Z.to_nat k)).

(** [enumerate(l)] *)
Definition enumerate {A : Type} (l : list A) : list (nat * A) :=
  combine (seq 0 (length l)) l.

(** The loop
[[
    while temp:
        lsb = temp & -temp
        BODY(lsb)
        temp ^= lsb
]]
    which occurs four times in the source, with the loop-carried data [acc]
    threaded through [body]. *)
Fixpoint for_each_set_bit {A : Type} (fuel : nat) (body : A -> Z -> A)
    (temp : Z) (acc : A) : option A :=
  if truthy temp then
    match fuel with
    | O => None
    | S fuel' =>
        let lsb := Z.land temp (- temp) in
        for_each_set_bit fuel' body (Z.lxor temp lsb) (body acc lsb)
    end
  else Some acc.

(** A non-negative [temp] leaves the loop after [popcount temp] rounds. *)
Definition while_set_bits {A : Type} (body : A -> Z -> A) (temp : Z) (acc : A)
    : option A :=
  for_each_set_bit (popcount temp) body temp acc.

Definition obind {A B : Type} (x : option A) (k : A -> option B) : option B :=
  match x with
  | Some a => k a
  | None => None
  end.

Notation "x <- e ;; k" := (obind e (fun x => k))
  (at level 61, e at next level, right associativity).

(** ** PartialBooleanFunction *)

Module PartialBooleanFunction.

Record t : Type := mk {
  n : nat;
  total_points : Z;
  ones_mask : Z;
  dcares_mask : Z;
  significant_mask : Z;
  zeros_mask : Z
}.

(** Construction either yields the object or raises [ValueError]. *)
Inductive outcome : Type :=
| Constructed (f : t)
| ValueError.

(** [for val in vals: if 0 <= val < total_points: mask |= (1 << val)] *)
Definition collect (total : Z) (vals : list Z) : Z :=
  fold_left
    (fun acc val =>
       if (0 <=? val) && (val <? total) then Z.lor acc (Z.shiftl 1 val)
       else acc)
    vals 0.

Definition init (nv : nat) (ones dcares : list Z) : outcome :=
  let total := Z.shiftl 1 (Z.of_nat nv) in
  let om := collect total ones in
  let dm := collect total dcares in
  let sig := Z.lor om dm in
  let zm := Z.land (Z.shiftl 1 total - 1) (Z.lnot sig) in
  if truthy (Z.land om dm) then ValueError
  else Constructed (mk nv total om dm sig zm).

End PartialBooleanFunction.

(** ** BooleanInterval *)

Module BooleanInterval.

Record t : Type := mk {
  n : nat;
  mask : Z;
  value : Z
}.

(** [__init__]: the mask is cut to [n] bits and the value to the mask. *)
Definition init (nv : nat) (m v : Z) : t :=
  let m' := Z.land m (Z.shiftl 1 (Z.of_nat nv) - 1) in
  mk nv m' (Z.land v m').

(** [__eq__] *)
Definition eqb (a b : t) : bool :=
  Nat.eqb (n a) (n b) && (mask a =? mask b) && (value a =? value b).

(** [x in l] for a list or a set of intervals. *)
Definition member (x : t) (l : list t) : bool := existsb (eqb x) l.

(** [size] *)
Definition size (a : t) : Z :=
  Z.shiftl 1 (Z.of_nat (n a - popcount (mask a))).

(** [__lt__]: larger intervals first. *)
Definition lt (a b : t) : bool := size b <? size a.

Definition covers_point (a : t) (point : Z) : bool :=
  Z.land point (mask a) =? value a.

(** The inner loop of [covers_mask] and [get_all_points_mask]: spreads the
    low bits of [temp_val] over the set bits of [temp_free]. *)
Fixpoint assemble (k : nat) (point temp_free temp_val : Z) : Z :=
  match k with
  | O => point
  | S k' =>
      if temp_free =? 0 then point
      else
        let lsb := Z.land temp_free (- temp_free) in
        let point' :=
          if truthy (Z.land temp_val 1) then Z.lor point lsb else point in
        assemble k' point' (Z.lxor temp_free lsb) (Z.shiftr temp_val 1)
  end.

Definition free_vars (a : t) : Z :=
  Z.lxor (Z.shiftl 1 (Z.of_nat (n a)) - 1) (mask a).

(** [n - bin(mask).count('1')]; the mask has at most [n] bits, so the
    difference is never negative. *)
Definition free_count (a : t) : nat := (n a - popcount (mask a))%nat.

Definition covers_mask (a : t) (m : Z) : Z :=
  if mask a =? 0 then m
  else
    fold_left
      (fun result free_val =>
         let point := assemble (free_count a) (value a) (free_vars a) free_val in
         if (point <? Z.shiftl 1 (Z.of_nat (n a)))
            && truthy (Z.land m (Z.shiftl 1 point))
         then Z.lor result (Z.shiftl 1 point)
         else result)
      (range (Z.shiftl 1 (Z.of_nat (free_count a)))) 0.

Definition get_all_points_mask (a : t) : Z :=
  if mask a =? 0 then Z.shiftl 1 (Z.shiftl 1 (Z.of_nat (n a))) - 1
  else
    fold_left
      (fun result free_val =>
         let point := assemble (free_count a) (value a) (free_vars a) free_val in
         if point <? Z.shiftl 1 (Z.of_nat (n a))
         then Z.lor result (Z.shiftl 1 point)
         else result)
      (range (Z.shiftl 1 (Z.of_nat (free_count a)))) 0.

Definition is_subset_of (a other : t) : bool :=
  (Z.land (mask a) (mask other) =? mask other)
  && (Z.land (value a) (mask other) =? value other).

(** The generalization of [a] that drops the literal [var_bit]. *)
Definition drop_literal (a : t) (var_bit : Z) : t :=
  let new_mask := Z.lxor (mask a) var_bit in
  let new_value := Z.land (value a) new_mask in
  init (n a) new_mask new_value.

(** The admissibility test of [expand]. *)
Definition admissible (a new_interval : t) (allowed_mask : Z) : bool :=
  let current_points_mask := get_all_points_mask a in
  let new_points_mask := get_all_points_mask new_interval in
  let new_points := Z.land new_points_mask (Z.lnot current_points_mask) in
  Z.land new_points (Z.lnot allowed_mask) =? 0.

Definition expand_body (a : t) (allowed_mask : Z) (expansions : list t)
    (var_bit : Z) : list t :=
  let new_interval := drop_literal a var_bit in
  if admissible a new_interval allowed_mask
  then expansions ++ [new_interval]
  else expansions.

Definition expand (a : t) (allowed_mask : Z) : option (list t) :=
  while_set_bits (expand_body a allowed_mask) (mask a) [].

(** [__str__] *)
Definition decimal (k : nat) : string :=
  NilEmpty.string_of_uint (Nat.to_uint k).

Definition join (sep : string) (l : list string) : string :=
  match l with
  | [] => EmptyString
  | x :: r => fold_left (fun acc s => acc ++ sep ++ s)%string r x
  end.

(** [range(n - 1, -1, -1)] *)
Definition countdown (k : nat) : list nat := rev (seq 0 k).

Definition str (a : t) : string :=
  if mask a =? 0 then "1"%string
  else
    join " & "
      (fold_left
         (fun terms i =>
            if truthy (Z.land (mask a) (Z.shiftl 1 (Z.of_nat i))) then
              let var_name := ("x" ++ decimal (n a - i))%string in
              if truthy (Z.land (value a) (Z.shiftl 1 (Z.of_nat i)))
              then terms ++ [var_name]
              else terms ++ [("¬" ++ var_name)%string]
            else terms)
         (countdown (n a)) []).

End BooleanInterval.

Module PBF := PartialBooleanFunction.
Module BI := BooleanInterval.

(** ** MaximalIntervalsMinimizer *)

Module MaximalIntervalsMinimizer.

(** The object: the function and the two lists the methods assign to. *)
Record t : Type := mk {
  func : PBF.t;
  n : nat;
  all_intervals : list BI.t;
  essential_intervals : list BI.t
}.

Definition init (f : PBF.t) : t := mk f (PBF.n f) [] [].

(** A method returns its value and the object as it leaves it, or [None]
    when a loop runs out of fuel. *)
Definition method (A : Type) : Type := t -> option (A * t).

(** *** find_all_max_intervals *)

(** First loop: one fully specified interval per significant point. *)
Definition seed_body (nv : nat) (start_intervals : list BI.t) (lsb : Z)
    : list BI.t :=
  let point := bit_length lsb - 1 in
  let full_mask := Z.shiftl 1 (Z.of_nat nv) - 1 in
  start_intervals ++ [BI.init nv full_mask point].

Definition start_intervals (nv : nat) (significant_mask : Z)
    : option (list BI.t) :=
  while_set_bits (seed_body nv) significant_mask [].

(** The state of the breadth-first search: [queue], [visited] and
    [max_intervals].  [visited] is a Python set that is only tested for
    membership, so a list stands for it. *)
Record search : Type := mk_search {
  queue : list BI.t;
  visited : list BI.t;
  max_intervals : list BI.t
}.

(** One round of [while queue:]; [None] when [expand] fails, [Some None]
    when the queue is empty. *)
Definition bfs_step (significant_mask ones_mask : Z) (s : search)
    : option (option search) :=
  match queue s with
  | [] => Some None
  | current :: rest =>
      if BI.member current (visited s) then
        Some (Some (mk_search rest (visited s) (max_intervals s)))
      else
        let visited' := current :: visited s in
        expansions <- BI.expand current significant_mask ;;
        match expansions with
        | _ :: _ =>
            let fresh :=
              filter (fun e => negb (BI.member e visited')) expansions in
            Some (Some (mk_search (rest ++ fresh) visited' (max_intervals s)))
        | [] =>
            if truthy (BI.covers_mask current ones_mask) then
              Some (Some (mk_search rest visited'
                                    (max_intervals s ++ [current])))
            else Some (Some (mk_search rest visited' (max_intervals s)))
        end
  end.

Fixpoint bfs (fuel : nat) (significant_mask ones_mask : Z) (s : search)
    : option search :=
  match fuel with
  | O => match queue s with [] => Some s | _ => None end
  | S fuel' =>
      r <- bfs_step significant_mask ones_mask s ;;
      match r with
      | None => Some s
      | Some s' => bfs fuel' significant_mask ones_mask s'
      end
  end.

(** Rounds that an interval with [k] literals can cause: itself and at most
    [k] generalizations with [k - 1] literals each. *)
Fixpoint bfs_weight (k : nat) : nat :=
  match k with
  | O => 1
  | S k' => S (S k' * bfs_weight k')
  end.

(** Second loop: drop every interval that is a subset of another entry. *)
Definition remove_subsets (max_intervals : list BI.t) : list BI.t :=
  map snd
    (filter
       (fun ie : nat * BI.t =>
          negb (existsb
                  (fun jo : nat * BI.t =>
                     negb (Nat.eqb (fst ie) (fst jo))
                     && BI.is_subset_of (snd ie) (snd jo))
                  (enumerate max_intervals)))
       (enumerate max_intervals)).

(** [list.sort()] is stable and compares with [__lt__] only. *)
Fixpoint insert_sorted (x : BI.t) (l : list BI.t) : list BI.t :=
  match l with
  | [] => [x]
  | y :: r => if BI.lt y x then y :: insert_sorted x r else x :: y :: r
  end.

Definition sort (l : list BI.t) : list BI.t := fold_right insert_sorted [] l.

(** The three loops of [find_all_max_intervals].  The search gets
    [bfs_weight nv] rounds for each seed, which always suffices (see
    [bfs_total]). *)
Definition search_max_intervals (f : PBF.t) (nv : nat)
    : option (list BI.t) :=
  start <- start_intervals nv (PBF.significant_mask f) ;;
  s <- bfs (length start * bfs_weight nv) (PBF.significant_mask f)
           (PBF.ones_mask f) (mk_search start [] []) ;;
  Some (sort (remove_subsets (max_intervals s))).

Definition find_all_max_intervals : method (list BI.t) := fun self =>
  unique_intervals <- search_max_intervals (func self) (n self) ;;
  Some (unique_intervals,
        mk (func self) (n self) unique_intervals (essential_intervals self)).

(** *** find_essential_intervals *)

(** [coverage_map]: a dict, iterated in insertion order. *)
Definition coverage := list (Z * list BI.t).

Fixpoint dict_set (d : coverage) (k : Z) (v : list BI.t) : coverage :=
  match d with
  | [] => [(k, v)]
  | (k', v') :: r =>
      if k' =? k then (k', v) :: r else (k', v') :: dict_set r k v
  end.

(** [if point in coverage_map: coverage_map[point].append(interval)] *)
Definition dict_append (d : coverage) (k : Z) (x : BI.t) : coverage :=
  map (fun kv : Z * list BI.t =>
         if fst kv =? k then (fst kv, snd kv ++ [x]) else kv) d.

Definition ones_body (acc : list Z * coverage) (lsb : Z)
    : list Z * coverage :=
  let point := bit_length lsb - 1 in
  (fst acc ++ [point], dict_set (snd acc) point []).

Definition fill_body (interval : BI.t) (d : coverage) (lsb : Z) : coverage :=
  let point := bit_length lsb - 1 in
  dict_append d point interval.

Definition fill_coverage (ones_mask : Z) (intervals : list BI.t)
    (d : coverage) : option coverage :=
  fold_left
    (fun od interval =>
       d <- od ;;
       while_set_bits (fill_body interval)
                      (BI.covers_mask interval ones_mask) d)
    intervals (Some d).

(** Stage 1: intervals that alone cover some point. *)
Definition stage1_body (ones_mask : Z) (acc : list BI.t * Z)
    (item : Z * list BI.t) : list BI.t * Z :=
  match snd item with
  | [interval] =>
      if negb (BI.member interval (fst acc)) then
        (fst acc ++ [interval],
         Z.lor (snd acc) (BI.covers_mask interval ones_mask))
      else acc
  | _ => acc
  end.

(** The inner [for] of both greedy loops: the first interval outside
    [chosen] with the largest number of points of [target]. *)
Definition best_body (chosen : list BI.t) (target : Z)
    (acc : option BI.t * nat) (interval : BI.t) : option BI.t * nat :=
  if BI.member interval chosen then acc
  else
    let coverage := BI.covers_mask interval target in
    let coverage_count := popcount coverage in
    if (snd acc <? coverage_count)%nat then (Some interval, coverage_count)
    else acc.

Definition best_of (intervals chosen : list BI.t) (target : Z)
    : option BI.t * nat :=
  fold_left (best_body chosen target) intervals (None, O).

(** Stage 2: [while remaining_mask:]. *)
Fixpoint stage2 (fuel : nat) (ones_mask : Z) (intervals : list BI.t)
    (essential : list BI.t) (covered_mask remaining_mask : Z)
    : option (list BI.t) :=
  if truthy remaining_mask then
    match fuel with
    | O => None
    | S fuel' =>
        match best_of intervals essential remaining_mask with
        | (Some best_interval, _) =>
            let covered_mask' :=
              Z.lor covered_mask (BI.covers_mask best_interval ones_mask) in
            stage2 fuel' ones_mask intervals (essential ++ [best_interval])
                   covered_mask' (Z.land ones_mask (Z.lnot covered_mask'))
        | (None, _) => Some essential
        end
    end
  else Some essential.

(** The body of [find_essential_intervals] once [all_intervals] is known.
    Every round of stage 2 picks an interval it has not picked before, so
    [length intervals] rounds and a last test suffice. *)
Definition select_essential (ones_mask : Z) (intervals : list BI.t)
    : option (list BI.t) :=
  init <- while_set_bits ones_body ones_mask ([], []) ;;
  coverage_map <- fill_coverage ones_mask intervals (snd init) ;;
  let s1 := fold_left (stage1_body ones_mask) coverage_map ([], 0) in
  stage2 (S (length intervals)) ones_mask intervals (fst s1) (snd s1)
         (Z.land ones_mask (Z.lnot (snd s1))).

Definition find_essential_intervals : method (list BI.t) := fun self =>
  self1 <- match all_intervals self with
           | [] => r <- find_all_max_intervals self ;; Some (snd r)
           | _ :: _ => Some self
           end ;;
  essential <- select_essential (PBF.ones_mask (func self1))
                                (all_intervals self1) ;;
  Some (essential,
        mk (func self1) (n self1) (all_intervals self1) essential).

(** *** _greedy_cover *)

Fixpoint greedy_loop (fuel : nat) (ones_mask : Z) (intervals : list BI.t)
    (result : list BI.t) (uncovered : Z) : option (list BI.t) :=
  if truthy uncovered then
    match fuel with
    | O => None
    | S fuel' =>
        match best_of intervals result uncovered with
        | (Some best_interval, best_coverage) =>
            if (0 <? best_coverage)%nat then
              greedy_loop fuel' ones_mask intervals
                (result ++ [best_interval])
                (Z.land uncovered
                   (Z.lnot (BI.covers_mask best_interval ones_mask)))
            else Some result
        | (None, _) => Some result
        end
    end
  else Some result.

(** As in stage 2, no interval is picked twice, which bounds the rounds. *)
Definition _greedy_cover (self : t) (intervals : list BI.t)
    : option (list BI.t) :=
  greedy_loop (S (length intervals)) (PBF.ones_mask (func self)) intervals
              [] (PBF.ones_mask (func self)).

(** *** minimize *)

(** [covered_mask] of a list of intervals. *)
Definition covered_by (ones_mask : Z) (l : list BI.t) : Z :=
  fold_left (fun covered_mask interval =>
               Z.lor covered_mask (BI.covers_mask interval ones_mask)) l 0.

Definition minimize : method (list BI.t) := fun self =>
  r1 <- find_all_max_intervals self ;;
  let max_intervals := fst r1 in
  r2 <- find_essential_intervals (snd r1) ;;
  let essential_intervals := fst r2 in
  let self2 := snd r2 in
  let covered_mask :=
    covered_by (PBF.ones_mask (func self2)) essential_intervals in
  if covered_mask =? PBF.ones_mask (func self2) then
    Some (essential_intervals, self2)
  else
    result <- _greedy_cover self2 max_intervals ;;
    Some (result, self2).

(** *** get_minimal_dnf *)

Fixpoint render (min_intervals : list BI.t) (terms : list string) : string :=
  match min_intervals with
  | [] => BI.join " ∨ " terms
  | interval :: rest =>
      let term := BI.str interval in
      if String.eqb term "1" then "1"%string
      else render rest (terms ++ [("(" ++ term ++ ")")%string])
  end.

Definition get_minimal_dnf : method string := fun self =>
  r <- minimize self ;;
  match fst r with
  | [] => Some ("0"%string, snd r)
  | _ :: _ => Some (render (fst r) [], snd r)
  end.

End MaximalIntervalsMinimizer.

Module MIM := MaximalIntervalsMinimizer.

(** The whole run of a caller: build the function, build the minimizer, ask
    for the formula. *)
Definition run (nv : nat) (ones dcares : list Z) : option string :=
  match PBF.init nv ones dcares with
  | PBF.ValueError => None
  | PBF.Constructed f =>
      r <- MIM.get_minimal_dnf (MIM.init f) ;; Some (fst r)
  end.

(** ** PartialBooleanFunction._mask_to_set_str *)

(** The list [values] that the loop over [range(self.total_points)] builds:
    the decimal numerals of the set bits. *)
Definition mask_values (self : PBF.t) (mask : Z) : list string :=
  fold_left
    (fun values i =>
       if truthy (Z.land mask (Z.shiftl 1 i))
       then values ++ [BI.decimal (Z.to_nat i)]
       else values)
    (range (PBF.total_points self)) [].

Definition _mask_to_set_str (self : PBF.t) (mask : Z) : string :=
  if mask =? 0 then "∅"%string
  else
    let values := mask_values self mask in
    ("{" ++ BI.join ", " (firstn 10 values)
         ++ (if (10 <? length values)%nat then "..." else "") ++ "}")%string.


(** * Specification vocabulary *)

(** The powers of two that make up a number, lowest first: what the
    [while temp:] loop visits. *)
Fixpoint pos_bits (p : positive) : list Z :=
  match p with
  | xH => [1]
  | xO q => map (Z.mul 2) (pos_bits q)
  | xI q => 1 :: map (Z.mul 2) (pos_bits q)
  end.

Definition bits_of (x : Z) : list Z :=
  match x with
  | Zpos p => pos_bits p
  | _ => []
  end.

(** An interval as [BooleanInterval.__init__] leaves it. *)
Definition wf (a : BI.t) : Prop :=
  Z.land (BI.mask a) (Z.ones (Z.of_nat (BI.n a))) = BI.mask a
  /\ Z.land (BI.value a) (BI.mask a) = BI.value a.


(** The interval [a] with the literal of variable bit [i] removed. *)
Definition dropped (a : BI.t) (i : Z) : BI.t :=
  BI.mk (BI.n a) (Z.clearbit (BI.mask a) i) (Z.clearbit (BI.value a) i).

(** Number of literals of an interval. *)
Definition level (a : BI.t) : nat := popcount (BI.mask a).

(** Every point of [a] lies in the point set [S]. *)
Definition inside (a : BI.t) (S : Z) : Prop :=
  forall p, 0 <= p < 2 ^ Z.of_nat (BI.n a) ->
            BI.covers_point a p = true -> Z.testbit S p = true.


(** A function as [PartialBooleanFunction.__init__] leaves it. *)
Definition func_ok (f : PBF.t) : Prop :=
  PBF.total_points f = 2 ^ Z.of_nat (PBF.n f)
  /\ 0 <= PBF.ones_mask f < 2 ^ PBF.total_points f
  /\ 0 <= PBF.dcares_mask f < 2 ^ PBF.total_points f
  /\ Z.land (PBF.ones_mask f) (PBF.dcares_mask f) = 0
  /\ PBF.significant_mask f = Z.lor (PBF.ones_mask f) (PBF.dcares_mask f)
  /\ PBF.zeros_mask f
     = Z.land (Z.ones (PBF.total_points f)) (Z.lnot (PBF.significant_mask f)).

(** An interval of the function with [nv] variables. *)
Definition valid (nv : nat) (a : BI.t) : Prop := wf a /\ BI.n a = nv.

(** Upper bound on the rounds the search still needs for a queue. *)
Definition potential (q : list BI.t) : nat :=
  fold_right (fun a acc => (MIM.bfs_weight (level a) + acc)%nat) O q.

(** The states the search passes through. *)
Inductive reachable (significant_mask ones_mask : Z) (s : MIM.search)
  : MIM.search -> Prop :=
| reach_refl : reachable significant_mask ones_mask s s
| reach_step (s1 s2 : MIM.search) :
    reachable significant_mask ones_mask s s1 ->
    MIM.bfs_step significant_mask ones_mask s1 = Some (Some s2) ->
    reachable significant_mask ones_mask s s2.

(** All intervals a search state holds. *)
Definition stored (s : MIM.search) : list BI.t :=
  MIM.queue s ++ MIM.visited s ++ MIM.max_intervals s.

(** What holds of every state of the search over [nv] variables. *)
Definition search_shape (nv : nat) (significant_mask ones_mask : Z)
    (s : MIM.search) : Prop :=
  (forall a, In a (stored s) -> valid nv a /\ inside a significant_mask)
  /\ (forall m, In m (MIM.max_intervals s) ->
                In m (MIM.visited s)
                /\ BI.expand m significant_mask = Some []
                /\ BI.covers_mask m ones_mask <> 0)
  /\ NoDup (MIM.max_intervals s).

(** Some interval of [l] covers the point [p]. *)
Definition covered_pt (l : list BI.t) (p : Z) : Prop :=
  exists m, In m l /\ BI.covers_point m p = true.

(** An interval with fewer than [k] literals that covers [p] still waits in
    the queue. *)
Definition pending (s : MIM.search) (p : Z) (k : nat) : Prop :=
  exists q, In q (MIM.queue s) /\ ~ In q (MIM.visited s)
            /\ BI.covers_point q p = true /\ (level q < k)%nat.

(** A required point of the function with [nv] variables. *)
Definition one_point (nv : nat) (ones_mask p : Z) : Prop :=
  0 <= p < 2 ^ Z.of_nat nv /\ Z.testbit ones_mask p = true.

(** No required point is lost during the search. *)
Definition search_complete (nv : nat) (ones_mask : Z) (s : MIM.search)
    : Prop :=
  (forall p, one_point nv ones_mask p ->
             covered_pt (MIM.max_intervals s) p \/ exists k, pending s p k)
  /\ (forall a p, In a (MIM.visited s) -> one_point nv ones_mask p ->
                  BI.covers_point a p = true ->
                  covered_pt (MIM.max_intervals s) p
                  \/ pending s p (level a)).


(** What [find_all_max_intervals] delivers for the function [f]. *)
Definition maximal_set (f : PBF.t) (l : list BI.t) : Prop :=
  NoDup l
  /\ (forall m, In m l ->
                valid (PBF.n f) m
                /\ inside m (PBF.significant_mask f)
                /\ BI.expand m (PBF.significant_mask f) = Some []
                /\ BI.covers_mask m (PBF.ones_mask f) <> 0)
  /\ (forall p, one_point (PBF.n f) (PBF.ones_mask f) p -> covered_pt l p).


(** Every list of the coverage map holds intervals of [intervals] only. *)
Definition cov_ok (intervals : list BI.t) (d : MIM.coverage) : Prop :=
  forall kv, In kv d -> incl (snd kv) intervals.

(** What the inner [for] of a greedy loop has found so far. *)
Definition best_ok (intervals chosen : list BI.t) (target : Z)
    (acc : option BI.t * nat) : Prop :=
  match fst acc with
  | Some b =>
      In b intervals /\ ~ In b chosen
      /\ snd acc = popcount (BI.covers_mask b target) /\ (0 < snd acc)%nat
  | None => snd acc = O
  end.


(** An implicant of the function with [nv] variables whose ones and
    don't-cares are [significant_mask]. *)
Definition implicant (nv : nat) (significant_mask : Z) (a : BI.t) : Prop :=
  valid nv a /\ inside a significant_mask.

(** A prime implicant: dropping any literal leaves the significant points. *)
Definition prime (nv : nat) (significant_mask : Z) (a : BI.t) : Prop :=
  implicant nv significant_mask a
  /\ forall i, 0 <= i -> Z.testbit (BI.mask a) i = true ->
               ~ inside (dropped a i) significant_mask.

(** An unvisited interval below [a] with fewer than [k] literals waits in the
    queue. *)
Definition awaiting (s : MIM.search) (a : BI.t) (k : nat) : Prop :=
  exists q, In q (MIM.queue s) /\ ~ In q (MIM.visited s)
            /\ BI.is_subset_of q a = true /\ (level q < k)%nat.

(** The search misses no implicant, and records every visited interval that
    passes the two tests. *)
Definition search_explores (nv : nat) (significant_mask ones_mask : Z)
    (s : MIM.search) : Prop :=
  (forall a, implicant nv significant_mask a ->
             In a (MIM.visited s) \/ exists k, awaiting s a k)
  /\ (forall v a, In v (MIM.visited s) -> implicant nv significant_mask a ->
                  BI.is_subset_of v a = true ->
                  In a (MIM.visited s) \/ awaiting s a (level v))
  /\ (forall v, In v (MIM.visited s) ->
                BI.expand v significant_mask = Some [] ->
                BI.covers_mask v ones_mask <> 0 ->
                In v (MIM.max_intervals s)).

(** Sizes never increase along the list. *)
Fixpoint descending (l : list BI.t) : Prop :=
  match l with
  | [] => True
  | x :: r => (forall y, In y r -> BI.size y <= BI.size x) /\ descending r
  end.


(** The first character of a string. *)
Definition first_char (s : string) : option ascii :=
  match s with
  | EmptyString => None
  | String c _ => Some c
  end.

(** A string that starts with a character other than the digit one. *)
Definition not_one_first (s : string) : Prop :=
  exists c, first_char s = Some c /\ c <> "1"%char.


(** The coverage map after the intervals [done] have been entered: every key
    is a set bit of [ones_mask], and its list holds the intervals of [done]
    whose [covers_mask(ones_mask)] has that bit, in order. *)
Definition coverage_of (ones_mask : Z) (done : list BI.t) (d : MIM.coverage)
    : Prop :=
  forall kv, In kv d ->
    (0 <= fst kv /\ Z.testbit ones_mask (fst kv) = true)
    /\ snd kv
       = filter (fun x => Z.testbit (BI.covers_mask x ones_mask) (fst kv))
                done.

(** Every interval of the list covers a required point that no interval
    before it in the list covers. *)
Definition fresh_cover (nv : nat) (ones_mask : Z) (l : list BI.t) : Prop :=
  forall pre x post,
    l = pre ++ x :: post ->
    exists p, one_point nv ones_mask p
              /\ BI.covers_point x p = true
              /\ forall y, In y pre -> BI.covers_point y p = false.


(** * Verification *)

(** ** Binary arithmetic *)

Section Bits.

Lemma shiftl_1_pow (k : nat) : Z.shiftl 1 (Z.of_nat k) = 2 ^ Z.of_nat k.
Proof. apply Z.shiftl_1_l. Qed.

Lemma full_mask_ones (k : nat) : Z.shiftl 1 (Z.of_nat k) - 1 = Z.ones (Z.of_nat k).
Proof. reflexivity. Qed.

Lemma binary_split (x : Z) : x = 2 * Z.div2 x + Z.b2z (Z.odd x).
Proof. apply Z.div2_odd. Qed.

Lemma double_plus_inj (a b : Z) (c d : bool) :
  2 * a + Z.b2z c = 2 * b + Z.b2z d -> a = b /\ c = d.
Proof. destruct c, d; cbn [Z.b2z]; intros; split; try lia; reflexivity. Qed.

Lemma land_double_plus (a b : Z) (c d : bool) :
  Z.land (2 * a + Z.b2z c) (2 * b + Z.b2z d) = 2 * Z.land a b + Z.b2z (c && d).
Proof.
  apply Z.bits_inj'; intros i Hi.
  rewrite Z.land_spec.
  destruct (Z.eq_dec i 0) as [->|Hne].
  - now rewrite !Z.testbit_0_r.
  - replace i with (Z.succ (i - 1)) by lia.
    rewrite !Z.testbit_succ_r by lia. now rewrite Z.land_spec.
Qed.

Lemma lor_double_plus (a b : Z) (c d : bool) :
  Z.lor (2 * a + Z.b2z c) (2 * b + Z.b2z d) = 2 * Z.lor a b + Z.b2z (c || d).
Proof.
  apply Z.bits_inj'; intros i Hi.
  rewrite Z.lor_spec.
  destruct (Z.eq_dec i 0) as [->|Hne].
  - now rewrite !Z.testbit_0_r.
  - replace i with (Z.succ (i - 1)) by lia.
    rewrite !Z.testbit_succ_r by lia. now rewrite Z.lor_spec.
Qed.

Lemma lxor_double_plus (a b : Z) (c d : bool) :
  Z.lxor (2 * a + Z.b2z c) (2 * b + Z.b2z d) = 2 * Z.lxor a b + Z.b2z (xorb c d).
Proof.
  apply Z.bits_inj'; intros i Hi.
  rewrite Z.lxor_spec.
  destruct (Z.eq_dec i 0) as [->|Hne].
  - now rewrite !Z.testbit_0_r.
  - replace i with (Z.succ (i - 1)) by lia.
    rewrite !Z.testbit_succ_r by lia. now rewrite Z.lxor_spec.
Qed.

Lemma land_double (a b : Z) : Z.land (2 * a) (2 * b) = 2 * Z.land a b.
Proof.
  pose proof (land_double_plus a b false false) as H. cbn [Z.b2z andb orb xorb] in H.
  now rewrite !Z.add_0_r in H.
Qed.

Lemma lor_double (a b : Z) : Z.lor (2 * a) (2 * b) = 2 * Z.lor a b.
Proof.
  pose proof (lor_double_plus a b false false) as H. cbn [Z.b2z andb orb xorb] in H.
  now rewrite !Z.add_0_r in H.
Qed.

Lemma lxor_double (a b : Z) : Z.lxor (2 * a) (2 * b) = 2 * Z.lxor a b.
Proof.
  pose proof (lxor_double_plus a b false false) as H. cbn [Z.b2z andb orb xorb] in H.
  now rewrite !Z.add_0_r in H.
Qed.

(** The lowest set bit, [x & -x]. *)
Lemma lowbit_double (x : Z) : Z.land (2 * x) (- (2 * x)) = 2 * Z.land x (- x).
Proof.
  replace (- (2 * x)) with (2 * (- x)) by lia. apply land_double.
Qed.

Lemma lowbit_odd (x : Z) : Z.land (2 * x + 1) (- (2 * x + 1)) = 1.
Proof.
  replace (- (2 * x + 1)) with (2 * Z.lnot x + Z.b2z true)
    by (unfold Z.lnot; cbn [Z.b2z]; lia).
  change (2 * x + 1) with (2 * x + Z.b2z true).
  rewrite land_double_plus, Z.land_lnot_diag. reflexivity.
Qed.

Lemma lowbit_subset (x : Z) (i : Z) :
  Z.testbit (Z.land x (- x)) i = true -> Z.testbit x i = true.
Proof. rewrite Z.land_spec. now intros [H _]%andb_prop. Qed.

Lemma clear_lowbit_subset (x : Z) (i : Z) :
  Z.testbit (Z.lxor x (Z.land x (- x))) i = true -> Z.testbit x i = true.
Proof.
  rewrite Z.lxor_spec, Z.land_spec. now destruct (Z.testbit x i).
Qed.

Lemma popcount_double_plus (a : Z) (c : bool) :
  0 <= a -> popcount (2 * a + Z.b2z c) = (popcount a + Nat.b2n c)%nat.
Proof.
  intros Ha. destruct a as [|p|p]; try lia; destruct c; simpl; lia.
Qed.

Lemma popcount_double (a : Z) : 0 <= a -> popcount (2 * a) = popcount a.
Proof.
  intros Ha. pose proof (popcount_double_plus a false Ha) as H.
  cbn [Z.b2z Nat.b2n] in H. rewrite Z.add_0_r in H. lia.
Qed.

Lemma popcount_pos (x : Z) : 0 < x -> (0 < popcount x)%nat.
Proof.
  destruct x as [|p|p]; try lia. intros _. simpl.
  induction p; simpl; lia.
Qed.

Lemma truthy_true (x : Z) : truthy x = true <-> x <> 0.
Proof. unfold truthy. destruct (Z.eqb_spec x 0); simpl; intuition congruence. Qed.

Lemma truthy_false (x : Z) : truthy x = false <-> x = 0.
Proof. unfold truthy. destruct (Z.eqb_spec x 0); simpl; intuition congruence. Qed.

Lemma truthy_double (x : Z) : truthy (2 * x) = truthy x.
Proof.
  unfold truthy. destruct (Z.eqb_spec x 0), (Z.eqb_spec (2 * x) 0); auto; lia.
Qed.

Lemma truthy_land_1 (v : Z) : truthy (Z.land v 1) = Z.odd v.
Proof.
  pose proof (land_double_plus (Z.div2 v) 0 (Z.odd v) true) as H.
  rewrite <- binary_split in H.
  change (2 * 0 + Z.b2z true) with 1 in H.
  rewrite H, Z.land_0_r, andb_true_r.
  now destruct (Z.odd v).
Qed.

Lemma truthy_land_pow2 (m k : Z) :
  0 <= k -> truthy (Z.land m (2 ^ k)) = Z.testbit m k.
Proof.
  intros Hk.
  destruct (Z.testbit m k) eqn:E.
  - apply truthy_true. intros H0.
    assert (Z.testbit (Z.land m (2 ^ k)) k = true)
      by (rewrite Z.land_spec, E, Z.pow2_bits_true; auto).
    rewrite H0 in H. now rewrite Z.bits_0 in H.
  - apply truthy_false. apply Z.bits_inj'; intros i Hi.
    rewrite Z.land_spec, Z.bits_0, Z.pow2_bits_eqb by lia.
    destruct (Z.eqb_spec k i); subst; rewrite ?E; auto using andb_false_r.
Qed.

(** Numbers below [2^k] are the ones whose bits all lie below [k]. *)
Lemma land_ones_small (x : Z) (k : nat) :
  Z.land x (Z.ones (Z.of_nat k)) = x <-> 0 <= x < 2 ^ Z.of_nat k.
Proof.
  rewrite Z.land_ones by lia. split.
  - intros <-. apply Z.mod_pos_bound. lia.
  - intros H. now apply Z.mod_small.
Qed.

Lemma testbit_small (x : Z) (k i : Z) :
  0 <= x < 2 ^ k -> k <= i -> Z.testbit x i = false.
Proof.
  intros Hx Hi.
  destruct (Z.eq_dec x 0) as [->|Hne]; [apply Z.bits_0|].
  apply Z.bits_above_log2; [lia|].
  assert (Z.log2 x < k) by (apply Z.log2_lt_pow2; lia). lia.
Qed.

End Bits.

(** ** The loop over the set bits *)

Section SetBits.

Context {A : Type}.

Lemma for_each_zero (fuel : nat) (body : A -> Z -> A) (acc : A) :
  for_each_set_bit fuel body 0 acc = Some acc.
Proof. destruct fuel; reflexivity. Qed.

Lemma for_each_double (fuel : nat) :
  forall (body : A -> Z -> A) (x : Z) (acc : A),
    for_each_set_bit fuel body (2 * x) acc
    = for_each_set_bit fuel (fun a l => body a (2 * l)) x acc.
Proof.
  induction fuel as [|fuel IH]; intros body x acc;
    cbn [for_each_set_bit]; rewrite truthy_double.
  - reflexivity.
  - destruct (truthy x); [|reflexivity].
    rewrite lowbit_double, lxor_double. apply IH.
Qed.

Lemma fold_left_doubled (body : A -> Z -> A) (l : list Z) (acc : A) :
  fold_left (fun a l => body a (2 * l)) l acc
  = fold_left body (map (Z.mul 2) l) acc.
Proof.
  revert acc. induction l as [|x l IH]; intros acc; simpl; auto.
Qed.

Lemma for_each_pos (p : positive) :
  forall (fuel : nat) (body : A -> Z -> A) (acc : A),
    (pos_popcount p <= fuel)%nat ->
    for_each_set_bit fuel body (Zpos p) acc
    = Some (fold_left body (pos_bits p) acc).
Proof.
  induction p as [p IH|p IH|]; intros fuel body acc Hf.
  - destruct fuel as [|fuel]; [simpl in Hf; lia|].
    cbn [for_each_set_bit pos_bits fold_left].
    change (truthy (Z.pos p~1)) with true. cbv iota.
    change (Z.pos p~1) with (2 * Z.pos p + 1).
    rewrite lowbit_odd.
    replace (Z.lxor (2 * Z.pos p + 1) 1) with (2 * Z.pos p).
    2:{ pose proof (lxor_double_plus (Z.pos p) 0 true true) as H.
        cbn [Z.b2z xorb] in H. rewrite Z.lxor_0_r in H.
        change (2 * 0 + 1) with 1 in H. lia. }
    rewrite for_each_double, IH by (simpl in Hf; lia).
    now rewrite fold_left_doubled.
  - change (Z.pos p~0) with (2 * Z.pos p).
    rewrite for_each_double, IH by (simpl in Hf; lia).
    cbn [pos_bits]. now rewrite fold_left_doubled.
  - destruct fuel as [|fuel]; [simpl in Hf; lia|].
    cbn [for_each_set_bit]. change (truthy 1) with true. cbv iota.
    change (Z.lxor 1 (Z.land 1 (- 1))) with 0.
    now rewrite for_each_zero.
Qed.

Lemma while_set_bits_spec (body : A -> Z -> A) (x : Z) (acc : A) :
  0 <= x -> while_set_bits body x acc = Some (fold_left body (bits_of x) acc).
Proof.
  intros Hx. unfold while_set_bits. destruct x as [|p|p]; try lia.
  - reflexivity.
  - now apply for_each_pos.
Qed.

End SetBits.

Lemma pos_bits_length (p : positive) : length (pos_bits p) = pos_popcount p.
Proof. induction p; simpl; rewrite ?length_map; auto. Qed.

Lemma bits_of_length (x : Z) : 0 <= x -> length (bits_of x) = popcount x.
Proof. destruct x; try lia; intros _; simpl; auto using pos_bits_length. Qed.

Lemma pos_bits_spec (p : positive) (b : Z) :
  In b (pos_bits p)
  <-> exists i, 0 <= i /\ b = 2 ^ i /\ Z.testbit (Zpos p) i = true.
Proof.
  revert b. induction p as [p IH|p IH|]; intros b; cbn [pos_bits].
  - split.
    + intros [<-|Hin].
      * exists 0. repeat split; auto; lia.
      * apply in_map_iff in Hin as (c & <- & Hc).
        apply IH in Hc as (i & Hi & -> & Hb).
        exists (Z.succ i). repeat split; try lia.
        -- rewrite Z.pow_succ_r; lia.
        -- change (Z.pos p~1) with (2 * Z.pos p + Z.b2z true).
           now rewrite Z.testbit_succ_r.
    + intros (i & Hi & -> & Hb).
      destruct (Z.eq_dec i 0) as [->|Hne]; [now left|right].
      apply in_map_iff. exists (2 ^ (i - 1)). split.
      * rewrite <- Z.pow_succ_r by lia. f_equal. lia.
      * apply IH. exists (i - 1). repeat split; try lia.
        change (Z.pos p~1) with (2 * Z.pos p + Z.b2z true) in Hb.
        replace i with (Z.succ (i - 1)) in Hb by lia.
        now rewrite Z.testbit_succ_r in Hb by lia.
  - split.
    + intros Hin. apply in_map_iff in Hin as (c & <- & Hc).
      apply IH in Hc as (i & Hi & -> & Hb).
      exists (Z.succ i). repeat split; try lia.
      * rewrite Z.pow_succ_r; lia.
      * change (Z.pos p~0) with (2 * Z.pos p + Z.b2z false).
        now rewrite Z.testbit_succ_r.
    + intros (i & Hi & -> & Hb).
      destruct (Z.eq_dec i 0) as [->|Hne]; [discriminate Hb|].
      apply in_map_iff. exists (2 ^ (i - 1)). split.
      * rewrite <- Z.pow_succ_r by lia. f_equal. lia.
      * apply IH. exists (i - 1). repeat split; try lia.
        change (Z.pos p~0) with (2 * Z.pos p + Z.b2z false) in Hb.
        replace i with (Z.succ (i - 1)) in Hb by lia.
        now rewrite Z.testbit_succ_r in Hb by lia.
  - split.
    + intros [<-|[]]. exists 0. repeat split; auto; lia.
    + intros (i & Hi & -> & Hb).
      destruct (Z.eq_dec i 0) as [->|Hne]; [now left|].
      destruct i; try lia; discriminate Hb.
Qed.

Lemma bits_of_spec (x b : Z) :
  0 <= x ->
  (In b (bits_of x)
   <-> exists i, 0 <= i /\ b = 2 ^ i /\ Z.testbit x i = true).
Proof.
  intros Hx. destruct x as [|p|p]; try lia.
  - simpl. split; [tauto|]. intros (i & _ & _ & H).
    now rewrite Z.bits_0 in H.
  - apply pos_bits_spec.
Qed.

Lemma bit_length_pow2 (i : Z) : 0 <= i -> bit_length (2 ^ i) - 1 = i.
Proof.
  intros Hi. unfold bit_length.
  assert (0 < 2 ^ i) by (apply Z.pow_pos_nonneg; lia).
  destruct (Z.eqb_spec (2 ^ i) 0); [lia|].
  rewrite Z.abs_eq, Z.log2_pow2 by lia. lia.
Qed.

(** ** Bitwise inclusion *)

Lemma land_subset (a b : Z) :
  Z.land a b = a
  <-> forall i, 0 <= i -> Z.testbit a i = true -> Z.testbit b i = true.
Proof.
  split.
  - intros H i Hi Ha. rewrite <- H, Z.land_spec in Ha.
    now apply andb_prop in Ha.
  - intros H. apply Z.bits_inj'; intros i Hi. rewrite Z.land_spec.
    destruct (Z.testbit a i) eqn:E; auto. now rewrite (H i Hi E).
Qed.

Lemma testbit_ones_nat (k : nat) (i : Z) :
  0 <= i -> Z.testbit (Z.ones (Z.of_nat k)) i = (i <? Z.of_nat k).
Proof.
  intros Hi. rewrite Z.testbit_ones by lia.
  destruct (Z.leb_spec 0 i); [reflexivity|lia].
Qed.

Lemma ones_succ (k : nat) :
  Z.ones (Z.of_nat (S k)) = 2 * Z.ones (Z.of_nat k) + Z.b2z true.
Proof.
  rewrite !Z.ones_equiv, Nat2Z.inj_succ, Z.pow_succ_r by lia.
  cbn [Z.b2z]. lia.
Qed.

Lemma ones_nat_nonneg (k : nat) : 0 <= Z.ones (Z.of_nat k).
Proof.
  rewrite Z.ones_equiv.
  assert (0 < 2 ^ Z.of_nat k) by (apply Z.pow_pos_nonneg; lia). lia.
Qed.

Lemma popcount_complement (k : nat) :
  forall m, 0 <= m < 2 ^ Z.of_nat k ->
    (popcount (Z.lxor (Z.ones (Z.of_nat k)) m) + popcount m = k)%nat.
Proof.
  induction k as [|k IH]; intros m Hm.
  - assert (m = 0) by (simpl in Hm; lia). subst. reflexivity.
  - rewrite Nat2Z.inj_succ, Z.pow_succ_r in Hm by lia.
    rewrite ones_succ, (binary_split m), lxor_double_plus.
    pose proof (binary_split m) as Hs.
    assert (Hd : 0 <= Z.div2 m < 2 ^ Z.of_nat k)
      by (destruct (Z.odd m); cbn [Z.b2z] in Hs; lia).
    rewrite !popcount_double_plus; try lia.
    + specialize (IH _ Hd). destruct (Z.odd m); simpl; lia.
    + apply Z.lxor_nonneg. pose proof (ones_nat_nonneg k). lia.
Qed.

(** ** Enumerating the points of an interval *)

Section Assemble.

Lemma assemble_zero_free (k : nat) (pt v : Z) : BI.assemble k pt 0 v = pt.
Proof. destruct k; reflexivity. Qed.

Lemma assemble_lor (k : nat) :
  forall pt F v, BI.assemble k pt F v = Z.lor pt (BI.assemble k 0 F v).
Proof.
  induction k as [|k IH]; intros pt F v; cbn [BI.assemble].
  - now rewrite Z.lor_0_r.
  - destruct (F =? 0); [now rewrite Z.lor_0_r|].
    rewrite IH. rewrite (IH (if truthy (Z.land v 1) then _ else _)).
    destruct (truthy (Z.land v 1)).
    + now rewrite Z.lor_0_l, Z.lor_assoc.
    + now rewrite Z.lor_0_l.
Qed.

Lemma assemble_double (k : nat) :
  forall F v, BI.assemble k 0 (2 * F) v = 2 * BI.assemble k 0 F v.
Proof.
  induction k as [|k IH]; intros F v; cbn [BI.assemble]; [reflexivity|].
  replace (2 * F =? 0) with (F =? 0)
    by (destruct (Z.eqb_spec F 0), (Z.eqb_spec (2 * F) 0); auto; lia).
  destruct (F =? 0); [reflexivity|].
  rewrite lowbit_double, lxor_double.
  rewrite assemble_lor, IH.
  rewrite (assemble_lor k (if truthy (Z.land v 1) then _ else _)).
  destruct (truthy (Z.land v 1)).
  - now rewrite !Z.lor_0_l, lor_double.
  - now rewrite !Z.lor_0_l.
Qed.

Lemma assemble_odd (k : nat) (F v : Z) :
  0 <= F ->
  BI.assemble (S k) 0 (2 * F + 1) v
  = 2 * BI.assemble k 0 F (Z.shiftr v 1) + Z.b2z (Z.odd v).
Proof.
  intros HF. cbn [BI.assemble].
  destruct (Z.eqb_spec (2 * F + 1) 0); [lia|].
  rewrite lowbit_odd, truthy_land_1.
  replace (Z.lxor (2 * F + 1) 1) with (2 * F).
  2:{ pose proof (lxor_double_plus F 0 true true) as H.
      cbn [Z.b2z xorb] in H. rewrite Z.lxor_0_r in H.
      change (2 * 0 + 1) with 1 in H. lia. }
  rewrite assemble_lor, assemble_double.
  pose proof (lor_double_plus 0 (BI.assemble k 0 F (Z.shiftr v 1))
                              (Z.odd v) false) as H.
  rewrite Z.lor_0_l, orb_false_r in H. cbn [Z.b2z] in H.
  rewrite !Z.add_0_r in H.
  destruct (Z.odd v); cbn [Z.b2z] in *.
  - rewrite Z.lor_0_l. exact H.
  - exact H.
Qed.

Lemma assemble_subset (k : nat) :
  forall pt F v i,
    Z.testbit (BI.assemble k pt F v) i = true ->
    Z.testbit pt i = true \/ Z.testbit F i = true.
Proof.
  induction k as [|k IH]; intros pt F v i H; cbn [BI.assemble] in H; auto.
  destruct (F =? 0); auto.
  apply IH in H as [H|H].
  - destruct (truthy (Z.land v 1)); auto.
    rewrite Z.lor_spec in H. apply orb_prop in H as [H|H]; auto.
    right. now apply lowbit_subset.
  - right. now apply clear_lowbit_subset.
Qed.

Lemma assemble_nonneg (k : nat) :
  forall pt F v, 0 <= pt -> 0 <= F -> 0 <= BI.assemble k pt F v.
Proof.
  induction k as [|k IH]; intros pt F v Hp HF; cbn [BI.assemble]; auto.
  destruct (F =? 0); auto.
  assert (Hl : 0 <= Z.land F (- F)) by (apply Z.land_nonneg; auto).
  apply IH.
  - destruct (truthy (Z.land v 1)); auto. now apply Z.lor_nonneg.
  - apply Z.lxor_nonneg. tauto.
Qed.

Lemma shiftr_double_plus (a : Z) (c : bool) :
  Z.shiftr (2 * a + Z.b2z c) 1 = a /\ Z.odd (2 * a + Z.b2z c) = c.
Proof.
  rewrite <- Z.div2_spec.
  pose proof (binary_split (2 * a + Z.b2z c)) as H.
  apply double_plus_inj in H as [H1 H2]. now rewrite <- H1, <- H2.
Qed.

Lemma assemble_complete_pos (p : positive) :
  forall (k : nat) (S : Z),
    (pos_popcount p <= k)%nat -> 0 <= S -> Z.land S (Zpos p) = S ->
    exists v, 0 <= v < 2 ^ Z.of_nat (pos_popcount p)
              /\ BI.assemble k 0 (Zpos p) v = S.
Proof.
  induction p as [p IH|p IH|]; intros k S Hk HS Hsub.
  - destruct k as [|k]; [simpl in Hk; lia|].
    rewrite (binary_split S) in Hsub.
    change (Z.pos p~1) with (2 * Z.pos p + Z.b2z true) in Hsub.
    rewrite land_double_plus in Hsub.
    apply double_plus_inj in Hsub as [Hsub _].
    destruct (IH k (Z.div2 S)) as (v & Hv & Hres); auto.
    { simpl in Hk. lia. }
    { pose proof (binary_split S). destruct (Z.odd S); cbn [Z.b2z] in *; lia. }
    exists (2 * v + Z.b2z (Z.odd S)). split.
    + cbn [pos_popcount]. rewrite Nat2Z.inj_succ, Z.pow_succ_r by lia.
      destruct (Z.odd S); cbn [Z.b2z]; lia.
    + change (Z.pos p~1) with (2 * Z.pos p + 1).
      rewrite assemble_odd by lia.
      destruct (shiftr_double_plus v (Z.odd S)) as [-> ->].
      rewrite Hres. symmetry. apply binary_split.
  - rewrite (binary_split S) in Hsub.
    change (Z.pos p~0) with (2 * Z.pos p + Z.b2z false) in Hsub.
    rewrite land_double_plus in Hsub.
    apply double_plus_inj in Hsub as [Hsub Hodd].
    rewrite andb_false_r in Hodd.
    destruct (IH k (Z.div2 S)) as (v & Hv & Hres); auto.
    { pose proof (binary_split S). destruct (Z.odd S); cbn [Z.b2z] in *; lia. }
    exists v. split; auto.
    change (Z.pos p~0) with (2 * Z.pos p).
    rewrite assemble_double, Hres.
    rewrite (binary_split S) at 2. rewrite <- Hodd. cbn [Z.b2z]. lia.
  - destruct k as [|k]; [simpl in Hk; lia|].
    exists S. assert (HS01 : S = 0 \/ S = 1).
    { change 1 with (Z.ones 1) in Hsub.
      rewrite Z.land_ones in Hsub by lia.
      pose proof (Z.mod_pos_bound S (2 ^ 1)). simpl in *. lia. }
    split; [simpl; lia|].
    change 1 with (2 * 0 + 1). rewrite assemble_odd by lia.
    rewrite assemble_zero_free. destruct HS01; subst; reflexivity.
Qed.

Lemma assemble_complete (F : Z) (k : nat) (S : Z) :
  0 <= F -> (popcount F <= k)%nat -> 0 <= S -> Z.land S F = S ->
  exists v, 0 <= v < 2 ^ Z.of_nat (popcount F) /\ BI.assemble k 0 F v = S.
Proof.
  intros HF Hk HS Hsub. destruct F as [|p|p]; try lia.
  - rewrite Z.land_0_r in Hsub. subst. exists 0. split; [simpl; lia|].
    apply assemble_zero_free.
  - now apply assemble_complete_pos.
Qed.

End Assemble.

(** ** Well-formed intervals *)

Lemma wf_init (nv : nat) (m v : Z) : wf (BI.init nv m v).
Proof.
  unfold wf, BI.init; cbn [BI.n BI.mask BI.value].
  rewrite full_mask_ones. split.
  - now rewrite <- Z.land_assoc, Z.land_diag.
  - now rewrite <- Z.land_assoc, Z.land_diag.
Qed.

Lemma wf_mask_range (a : BI.t) :
  wf a -> 0 <= BI.mask a < 2 ^ Z.of_nat (BI.n a).
Proof. intros [H _]. now apply land_ones_small. Qed.

Lemma wf_mask_bit (a : BI.t) (i : Z) :
  wf a -> Z.testbit (BI.mask a) i = true -> 0 <= i < Z.of_nat (BI.n a).
Proof.
  intros Hw Hb.
  assert (0 <= i) by (destruct (Z.le_gt_cases 0 i); auto;
                      rewrite Z.testbit_neg_r in Hb by lia; discriminate).
  split; auto.
  destruct (Z.lt_ge_cases i (Z.of_nat (BI.n a))); auto.
  rewrite (testbit_small _ _ i (wf_mask_range a Hw)) in Hb by lia.
  discriminate.
Qed.

Lemma wf_value_bit (a : BI.t) (i : Z) :
  wf a -> Z.testbit (BI.value a) i = true -> Z.testbit (BI.mask a) i = true.
Proof.
  intros [_ H] Hb. rewrite <- H, Z.land_spec in Hb.
  now apply andb_prop in Hb.
Qed.

Lemma wf_value_nonneg (a : BI.t) : wf a -> 0 <= BI.value a.
Proof.
  intros Hw. destruct Hw as [Hm Hv]. rewrite <- Hv.
  apply Z.land_nonneg. right.
  apply (wf_mask_range a (conj Hm Hv)).
Qed.

Lemma wf_popcount_mask (a : BI.t) :
  wf a ->
  (popcount (BI.free_vars a) + popcount (BI.mask a) = BI.n a)%nat.
Proof.
  intros Hw. unfold BI.free_vars. rewrite full_mask_ones.
  apply popcount_complement. now apply wf_mask_range.
Qed.

Lemma wf_free_count (a : BI.t) :
  wf a -> popcount (BI.free_vars a) = BI.free_count a.
Proof.
  intros Hw. pose proof (wf_popcount_mask a Hw). unfold BI.free_count. lia.
Qed.

Lemma free_vars_nonneg (a : BI.t) : wf a -> 0 <= BI.free_vars a.
Proof.
  intros Hw. unfold BI.free_vars. rewrite full_mask_ones.
  apply Z.lxor_nonneg.
  pose proof (ones_nat_nonneg (BI.n a)). pose proof (wf_mask_range a Hw). lia.
Qed.

Lemma free_vars_bit (a : BI.t) (i : Z) :
  0 <= i ->
  Z.testbit (BI.free_vars a) i
  = xorb (i <? Z.of_nat (BI.n a)) (Z.testbit (BI.mask a) i).
Proof.
  intros Hi. unfold BI.free_vars.
  now rewrite full_mask_ones, Z.lxor_spec, testbit_ones_nat.
Qed.

Lemma in_range (k x : Z) : In x (range k) <-> 0 <= x < k.
Proof.
  unfold range. rewrite in_map_iff. split.
  - intros (i & <- & Hi). apply in_seq in Hi. lia.
  - intros Hx. exists (Z.to_nat x). split; [lia|]. apply in_seq. lia.
Qed.

(** The points the enumeration produces are the points of the interval. *)
Lemma points_enumerated (a : BI.t) (p : Z) :
  wf a ->
  ((exists fv, In fv (range (Z.shiftl 1 (Z.of_nat (BI.free_count a))))
               /\ BI.assemble (BI.free_count a) (BI.value a)
                              (BI.free_vars a) fv = p)
   <-> (0 <= p < 2 ^ Z.of_nat (BI.n a)
        /\ Z.land p (BI.mask a) = BI.value a)).
Proof.
  intros Hw. split.
  - intros (fv & _ & <-). rewrite assemble_lor.
    set (A := BI.assemble (BI.free_count a) 0 (BI.free_vars a) fv).
    assert (HA : forall i, 0 <= i -> Z.testbit A i = true ->
                           Z.testbit (BI.free_vars a) i = true).
    { intros i Hi H. apply assemble_subset in H as [H|H]; auto.
      now rewrite Z.bits_0 in H. }
    split.
    + apply land_ones_small, land_subset. intros i Hi H.
      rewrite testbit_ones_nat by lia. apply Z.ltb_lt.
      rewrite Z.lor_spec in H. apply orb_prop in H as [H|H].
      * apply wf_value_bit, wf_mask_bit in H; auto. lia.
      * apply HA in H; auto. rewrite free_vars_bit in H by lia.
        destruct (Z.ltb_spec i (Z.of_nat (BI.n a))); auto.
        cbn [xorb] in H. apply wf_mask_bit in H; auto. lia.
    + apply Z.bits_inj'; intros i Hi.
      rewrite Z.land_spec, Z.lor_spec.
      destruct (Z.testbit (BI.value a) i) eqn:Ev.
      * now rewrite (wf_value_bit a i Hw Ev).
      * cbn [orb]. destruct (Z.testbit A i) eqn:EA; auto.
        apply HA in EA; auto. rewrite free_vars_bit in EA by lia.
        destruct (Z.testbit (BI.mask a) i) eqn:Em; auto.
        destruct (wf_mask_bit a i Hw Em) as [_ Hlt].
        apply Z.ltb_lt in Hlt. rewrite Hlt in EA. discriminate.
  - intros [Hp Hc].
    destruct (assemble_complete (BI.free_vars a) (BI.free_count a)
                (Z.land p (BI.free_vars a))) as (v & Hv & Hres).
    + now apply free_vars_nonneg.
    + rewrite wf_free_count; auto.
    + apply Z.land_nonneg. left. lia.
    + now rewrite <- Z.land_assoc, Z.land_diag.
    + exists v. split.
      * apply in_range. rewrite shiftl_1_pow.
        now rewrite wf_free_count in Hv.
      * rewrite assemble_lor, Hres, <- Hc.
        apply Z.bits_inj'; intros i Hi.
        rewrite Z.lor_spec, !Z.land_spec, free_vars_bit by lia.
        destruct (Z.testbit p i) eqn:Ep; auto. cbn [andb].
        destruct (Z.ltb_spec i (Z.of_nat (BI.n a))).
        -- now destruct (Z.testbit (BI.mask a) i).
        -- rewrite (testbit_small p _ i Hp) in Ep by lia. discriminate.
Qed.

Lemma fold_set_bits (c : Z -> bool) (g : Z -> Z) (l : list Z) :
  forall (r0 p : Z),
    (forall x, In x l -> c x = true -> 0 <= g x) -> 0 <= p ->
    Z.testbit
      (fold_left (fun r x => if c x then Z.lor r (Z.shiftl 1 (g x)) else r)
                 l r0) p
    = Z.testbit r0 p || existsb (fun x => c x && (g x =? p)) l.
Proof.
  induction l as [|x l IH]; intros r0 p Hg Hp; cbn [fold_left existsb].
  - now rewrite orb_false_r.
  - rewrite IH by (auto; intros; apply Hg; auto; now right).
    destruct (c x) eqn:Ec; cbn [andb orb]; auto.
    rewrite Z.lor_spec, Z.shiftl_1_l, Z.pow2_bits_eqb
      by (apply Hg; auto; now left).
    now rewrite orb_assoc.
Qed.

Lemma covers_point_spec (a : BI.t) (p : Z) :
  BI.covers_point a p = true <-> Z.land p (BI.mask a) = BI.value a.
Proof. apply Z.eqb_eq. Qed.

Lemma wf_universal (a : BI.t) : wf a -> BI.mask a = 0 -> BI.value a = 0.
Proof. intros [_ H] H0. rewrite H0, Z.land_0_r in H. auto. Qed.

(** [get_all_points_mask] holds exactly the points below [2^n] that the
    interval covers. *)
Lemma get_all_points_mask_spec (a : BI.t) (p : Z) :
  wf a ->
  Z.testbit (BI.get_all_points_mask a) p
  = (0 <=? p) && (p <? 2 ^ Z.of_nat (BI.n a)) && BI.covers_point a p.
Proof.
  intros Hw.
  destruct (Z.leb_spec 0 p) as [Hp|Hp];
    [|now rewrite Z.testbit_neg_r by lia].
  cbn [andb]. unfold BI.get_all_points_mask.
  destruct (Z.eqb_spec (BI.mask a) 0) as [H0|H0].
  - change (Z.shiftl 1 (Z.shiftl 1 (Z.of_nat (BI.n a))) - 1)
      with (Z.ones (Z.shiftl 1 (Z.of_nat (BI.n a)))).
    rewrite shiftl_1_pow.
    assert (0 < 2 ^ Z.of_nat (BI.n a)) by (apply Z.pow_pos_nonneg; lia).
    rewrite Z.testbit_ones by lia.
    unfold BI.covers_point.
    rewrite H0, Z.land_0_r, (wf_universal a Hw H0), Z.eqb_refl, andb_true_r.
    destruct (Z.leb_spec 0 p); [reflexivity|lia].
  - rewrite (fold_set_bits
               (fun fv => BI.assemble (BI.free_count a) (BI.value a)
                                      (BI.free_vars a) fv
                          <? Z.shiftl 1 (Z.of_nat (BI.n a)))
               (fun fv => BI.assemble (BI.free_count a) (BI.value a)
                                      (BI.free_vars a) fv)); auto.
    2:{ intros x _ _. apply assemble_nonneg;
          auto using wf_value_nonneg, free_vars_nonneg. }
    rewrite Z.bits_0. cbn [orb].
    apply eq_true_iff_eq. rewrite existsb_exists, andb_true_iff.
    rewrite Z.ltb_lt, covers_point_spec.
    pose proof (points_enumerated a p Hw) as Hpe. split.
    + intros (fv & Hin & Hc). apply andb_prop in Hc as [_ Hc].
      apply Z.eqb_eq in Hc.
      destruct Hpe as [Hpe _]. destruct Hpe as [[_ ?] ?]; eauto.
    + intros [Hlt Hc]. destruct Hpe as [_ Hpe].
      destruct Hpe as (fv & Hin & Hfv); [split; auto; lia|].
      exists fv. split; auto. rewrite Hfv, shiftl_1_pow.
      apply andb_true_intro. split; [now apply Z.ltb_lt|apply Z.eqb_refl].
Qed.

(** [covers_mask] keeps the bits of its argument that the interval covers;
    when the interval has a literal only points below [2^n] are kept. *)
Lemma covers_mask_spec (a : BI.t) (m p : Z) :
  wf a ->
  Z.testbit (BI.covers_mask a m) p
  = Z.testbit m p && BI.covers_point a p
    && ((BI.mask a =? 0) || ((0 <=? p) && (p <? 2 ^ Z.of_nat (BI.n a)))).
Proof.
  intros Hw. unfold BI.covers_mask.
  destruct (Z.eqb_spec (BI.mask a) 0) as [H0|H0].
  - unfold BI.covers_point.
    rewrite H0, Z.land_0_r, (wf_universal a Hw H0), Z.eqb_refl.
    now rewrite !andb_true_r.
  - cbn [orb].
    destruct (Z.leb_spec 0 p) as [Hp|Hp].
    2:{ rewrite !Z.testbit_neg_r by lia. reflexivity. }
    rewrite (fold_set_bits
               (fun fv =>
                  (BI.assemble (BI.free_count a) (BI.value a)
                               (BI.free_vars a) fv
                   <? Z.shiftl 1 (Z.of_nat (BI.n a)))
                  && truthy (Z.land m (Z.shiftl 1
                       (BI.assemble (BI.free_count a) (BI.value a)
                                    (BI.free_vars a) fv))))
               (fun fv => BI.assemble (BI.free_count a) (BI.value a)
                                      (BI.free_vars a) fv)); auto.
    2:{ intros x _ _. apply assemble_nonneg;
          auto using wf_value_nonneg, free_vars_nonneg. }
    rewrite Z.bits_0. cbn [orb andb].
    apply eq_true_iff_eq. rewrite existsb_exists, !andb_true_iff.
    rewrite Z.ltb_lt, covers_point_spec.
    pose proof (points_enumerated a p Hw) as Hpe. split.
    + intros (fv & Hin & Hc). apply andb_prop in Hc as [Hc1 Hc].
      apply Z.eqb_eq in Hc. apply andb_prop in Hc1 as [_ Hm].
      rewrite Hc, Z.shiftl_1_l, truthy_land_pow2 in Hm by lia.
      destruct Hpe as [Hpe _]. destruct Hpe as [[_ ?] ?]; eauto.
    + intros [[Hm Hc] Hlt]. destruct Hpe as [_ Hpe].
      destruct Hpe as (fv & Hin & Hfv); [split; auto; lia|].
      exists fv. split; auto. rewrite Hfv, shiftl_1_pow.
      rewrite Z.shiftl_1_l, truthy_land_pow2, Hm by lia.
      apply andb_true_intro. split; [|apply Z.eqb_refl].
      apply andb_true_intro. split; [now apply Z.ltb_lt|reflexivity].
Qed.

(** ** Subset test *)

Lemma is_subset_of_spec (a b : BI.t) :
  BI.is_subset_of a b = true
  <-> Z.land (BI.mask a) (BI.mask b) = BI.mask b
      /\ Z.land (BI.value a) (BI.mask b) = BI.value b.
Proof.
  unfold BI.is_subset_of. now rewrite andb_true_iff, !Z.eqb_eq.
Qed.

Lemma is_subset_of_covers (a b : BI.t) (p : Z) :
  BI.is_subset_of a b = true ->
  BI.covers_point a p = true -> BI.covers_point b p = true.
Proof.
  rewrite is_subset_of_spec, !covers_point_spec. intros [Hm Hv] Hp.
  apply Z.bits_inj'; intros i Hi.
  apply (f_equal (fun x => Z.testbit x i)) in Hm, Hv, Hp.
  rewrite Z.land_spec in *. rewrite <- Hv, <- Hp, <- Hm.
  now destruct (Z.testbit p i), (Z.testbit (BI.mask a) i),
    (Z.testbit (BI.mask b) i).
Qed.

Lemma wf_covers_value (a : BI.t) :
  wf a ->
  0 <= BI.value a < 2 ^ Z.of_nat (BI.n a)
  /\ BI.covers_point a (BI.value a) = true.
Proof.
  intros Hw. split.
  - apply land_ones_small, land_subset. intros i Hi H.
    rewrite testbit_ones_nat by lia. apply Z.ltb_lt.
    apply wf_value_bit, wf_mask_bit in H; auto. lia.
  - apply covers_point_spec. apply Hw.
Qed.

Lemma covers_all_is_subset (a b : BI.t) :
  wf a -> wf b -> BI.n a = BI.n b ->
  (forall p, 0 <= p < 2 ^ Z.of_nat (BI.n a) ->
             BI.covers_point a p = true -> BI.covers_point b p = true) ->
  BI.is_subset_of a b = true.
Proof.
  intros Ha Hb Hn Hall. apply is_subset_of_spec.
  destruct (wf_covers_value a Ha) as [Hvr Hvc].
  pose proof (Hall _ Hvr Hvc) as Hbv. apply covers_point_spec in Hbv.
  split; auto.
  rewrite Z.land_comm. apply land_subset. intros i Hi Hbi.
  destruct (Z.testbit (BI.mask a) i) eqn:Eai; auto. exfalso.
  pose proof (wf_mask_bit b i Hb Hbi) as Hir. rewrite <- Hn in Hir.
  set (q := Z.lor (BI.value a) (2 ^ i)).
  assert (Hq : 0 <= q < 2 ^ Z.of_nat (BI.n a)).
  { apply land_ones_small, land_subset. intros j Hj H.
    rewrite testbit_ones_nat by lia. apply Z.ltb_lt.
    unfold q in H. rewrite Z.lor_spec, Z.pow2_bits_eqb in H by lia.
    apply orb_prop in H as [H|H].
    - apply wf_value_bit, wf_mask_bit in H; auto. lia.
    - apply Z.eqb_eq in H. lia. }
  assert (Hqa : BI.covers_point a q = true).
  { apply covers_point_spec. apply Z.bits_inj'; intros j Hj.
    unfold q. rewrite Z.land_spec, Z.lor_spec, Z.pow2_bits_eqb by lia.
    destruct (Z.eqb_spec i j) as [<-|Hne].
    - rewrite Eai, andb_false_r.
      destruct (Z.testbit (BI.value a) i) eqn:Ev; auto.
      apply wf_value_bit in Ev; auto. congruence.
    - rewrite orb_false_r.
      destruct (Z.testbit (BI.value a) j) eqn:Ev; auto.
      now rewrite (wf_value_bit a j Ha Ev). }
  pose proof (Hall q Hq Hqa) as Hqb. apply covers_point_spec in Hqb.
  assert (Hbit : Z.testbit (Z.land q (BI.mask b)) i
                 = Z.testbit (Z.land (BI.value a) (BI.mask b)) i)
    by now rewrite Hqb, Hbv.
  unfold q in Hbit.
  rewrite !Z.land_spec, Z.lor_spec, Z.pow2_bits_true, Hbi in Hbit by lia.
  rewrite orb_true_r in Hbit. cbn [andb] in Hbit.
  rewrite andb_true_r in Hbit. symmetry in Hbit.
  apply wf_value_bit in Hbit; auto. congruence.
Qed.

Lemma is_subset_of_antisym (a b : BI.t) :
  wf a -> wf b ->
  BI.is_subset_of a b = true -> BI.is_subset_of b a = true ->
  BI.mask a = BI.mask b /\ BI.value a = BI.value b.
Proof.
  intros Ha Hb Hab Hba.
  apply is_subset_of_spec in Hab as [Hm1 Hv1].
  apply is_subset_of_spec in Hba as [Hm2 Hv2].
  assert (Hm : BI.mask a = BI.mask b)
    by (pose proof (Z.land_comm (BI.mask a) (BI.mask b)); congruence).
  split; auto.
  rewrite <- Hv1, <- Hm. symmetry. apply Ha.
Qed.

Lemma eqb_eq (a b : BI.t) : BI.eqb a b = true <-> a = b.
Proof.
  unfold BI.eqb. rewrite !andb_true_iff, Nat.eqb_eq, !Z.eqb_eq.
  destruct a, b; cbn. split.
  - intros [[-> ->] ->]. reflexivity.
  - intros H. injection H as -> -> ->. auto.
Qed.

Lemma member_In (x : BI.t) (l : list BI.t) : BI.member x l = true <-> In x l.
Proof.
  unfold BI.member. rewrite existsb_exists. split.
  - intros (y & Hy & He). apply eqb_eq in He. now subst.
  - intros H. exists x. split; auto. now apply eqb_eq.
Qed.

Lemma member_not_In (x : BI.t) (l : list BI.t) :
  BI.member x l = false <-> ~ In x l.
Proof.
  rewrite <- member_In. destruct (BI.member x l); intuition congruence.
Qed.

(** ** Dropping a literal *)

Lemma ldiff_double_plus (a b : Z) (c d : bool) :
  Z.ldiff (2 * a + Z.b2z c) (2 * b + Z.b2z d)
  = 2 * Z.ldiff a b + Z.b2z (c && negb d).
Proof.
  apply Z.bits_inj'; intros i Hi.
  rewrite Z.ldiff_spec.
  destruct (Z.eq_dec i 0) as [->|Hne].
  - now rewrite !Z.testbit_0_r.
  - replace i with (Z.succ (i - 1)) by lia.
    rewrite !Z.testbit_succ_r by lia. now rewrite Z.ldiff_spec.
Qed.

Lemma popcount_clearbit_nat (i : nat) :
  forall x, 0 <= x -> Z.testbit x (Z.of_nat i) = true ->
            S (popcount (Z.clearbit x (Z.of_nat i))) = popcount x.
Proof.
  induction i as [|i IH]; intros x Hx Hb; rewrite Z.clearbit_spec';
    pose proof (binary_split x) as Hs;
    assert (Hd : 0 <= Z.div2 x) by (now apply Z.div2_nonneg);
    set (a := Z.div2 x) in *; set (c := Z.odd x) in *;
    clearbody a c; subst x.
  - change (2 ^ Z.of_nat 0) with (2 * 0 + Z.b2z true).
    rewrite ldiff_double_plus, Z.ldiff_0_r, andb_false_r.
    change (Z.of_nat 0) with 0 in Hb. rewrite Z.testbit_0_r in Hb. subst c.
    rewrite !popcount_double_plus by auto. simpl. lia.
  - rewrite Nat2Z.inj_succ in *.
    rewrite Z.pow_succ_r by lia.
    replace (2 * 2 ^ Z.of_nat i) with (2 * 2 ^ Z.of_nat i + Z.b2z false)
      by (cbn [Z.b2z]; lia).
    rewrite ldiff_double_plus, andb_true_r, <- Z.clearbit_spec'.
    rewrite Z.testbit_succ_r in Hb by lia.
    specialize (IH _ Hd Hb).
    rewrite !popcount_double_plus; auto; [lia|].
    rewrite Z.clearbit_spec'. apply Z.ldiff_nonneg. now left.
Qed.

Lemma popcount_clearbit (x i : Z) :
  0 <= x -> 0 <= i -> Z.testbit x i = true ->
  S (popcount (Z.clearbit x i)) = popcount x.
Proof.
  intros Hx Hi Hb. rewrite <- (Z2Nat.id i) in * by lia.
  now apply popcount_clearbit_nat.
Qed.

Lemma drop_literal_dropped (a : BI.t) (i : Z) :
  wf a -> 0 <= i -> Z.testbit (BI.mask a) i = true ->
  BI.drop_literal a (2 ^ i) = dropped a i.
Proof.
  intros Hw Hi Hb. unfold BI.drop_literal, BI.init, dropped.
  rewrite full_mask_ones.
  assert (Hm : Z.land (Z.lxor (BI.mask a) (2 ^ i)) (Z.ones (Z.of_nat (BI.n a)))
               = Z.clearbit (BI.mask a) i).
  { apply Z.bits_inj'; intros j Hj.
    rewrite Z.land_spec, Z.lxor_spec, Z.pow2_bits_eqb, Z.clearbit_eqb by lia.
    rewrite testbit_ones_nat by lia.
    destruct (Z.eqb_spec i j) as [<-|Hne].
    - now rewrite Hb.
    - cbn [negb]. rewrite xorb_false_r, andb_true_r.
      destruct (Z.testbit (BI.mask a) j) eqn:E; auto.
      destruct (wf_mask_bit a j Hw E) as [_ Hlt].
      apply Z.ltb_lt in Hlt. now rewrite Hlt. }
  rewrite Hm. f_equal.
  apply Z.bits_inj'; intros j Hj.
  rewrite !Z.land_spec, Z.lxor_spec, Z.pow2_bits_eqb, !Z.clearbit_eqb by lia.
  destruct (Z.eqb_spec i j) as [<-|Hne].
  - now rewrite Hb, !andb_false_r.
  - cbn [negb]. rewrite xorb_false_r, !andb_true_r.
    destruct (Z.testbit (BI.value a) j) eqn:E; auto.
    now rewrite (wf_value_bit a j Hw E).
Qed.

Lemma dropped_wf (a : BI.t) (i : Z) :
  wf a -> 0 <= i -> Z.testbit (BI.mask a) i = true -> wf (dropped a i).
Proof.
  intros Hw Hi Hb. rewrite <- drop_literal_dropped by auto. apply wf_init.
Qed.

Lemma dropped_level (a : BI.t) (i : Z) :
  wf a -> 0 <= i -> Z.testbit (BI.mask a) i = true ->
  S (level (dropped a i)) = level a.
Proof.
  intros Hw Hi Hb. unfold level, dropped; cbn [BI.mask].
  apply popcount_clearbit; auto. apply (wf_mask_range a Hw).
Qed.

Lemma dropped_covers (a : BI.t) (i p : Z) :
  BI.covers_point a p = true -> BI.covers_point (dropped a i) p = true.
Proof.
  rewrite !covers_point_spec. unfold dropped; cbn [BI.mask BI.value].
  intros H. apply Z.bits_inj'; intros j Hj.
  apply (f_equal (fun x => Z.testbit x j)) in H.
  rewrite Z.land_spec in *. rewrite !Z.clearbit_eqb, <- H.
  now rewrite andb_assoc.
Qed.

(** ** expand *)

Lemma fold_left_filter_map {X Y : Type} (c : X -> bool) (f : X -> Y)
    (l : list X) :
  forall acc,
    fold_left (fun acc x => if c x then acc ++ [f x] else acc) l acc
    = acc ++ map f (filter c l).
Proof.
  induction l as [|x l IH]; intros acc; cbn [fold_left filter map].
  - now rewrite app_nil_r.
  - rewrite IH. destruct (c x); auto.
    cbn [map]. now rewrite <- app_assoc.
Qed.

Lemma expand_spec (a : BI.t) (allowed : Z) :
  wf a ->
  BI.expand a allowed
  = Some (map (BI.drop_literal a)
              (filter (fun b => BI.admissible a (BI.drop_literal a b) allowed)
                      (bits_of (BI.mask a)))).
Proof.
  intros Hw. unfold BI.expand.
  rewrite while_set_bits_spec by apply (wf_mask_range a Hw).
  unfold BI.expand_body.
  now rewrite (fold_left_filter_map
                 (fun b => BI.admissible a (BI.drop_literal a b) allowed)
                 (BI.drop_literal a)).
Qed.

Lemma expand_In (a : BI.t) (allowed : Z) (l : list BI.t) (e : BI.t) :
  wf a -> BI.expand a allowed = Some l ->
  (In e l
   <-> exists i, 0 <= i /\ Z.testbit (BI.mask a) i = true
                 /\ e = dropped a i
                 /\ BI.admissible a e allowed = true).
Proof.
  intros Hw He. rewrite expand_spec in He by auto.
  injection He as <-. rewrite in_map_iff. split.
  - intros (b & <- & Hb). apply filter_In in Hb as [Hb Hadm].
    apply bits_of_spec in Hb as (i & Hi & -> & Hbit);
      [|apply (wf_mask_range a Hw)].
    exists i. rewrite drop_literal_dropped in * by auto. auto.
  - intros (i & Hi & Hbit & -> & Hadm). exists (2 ^ i).
    rewrite drop_literal_dropped by auto. split; auto.
    apply filter_In. split.
    + apply bits_of_spec; [apply (wf_mask_range a Hw)|]. eauto.
    + now rewrite drop_literal_dropped.
Qed.

Lemma expand_length (a : BI.t) (allowed : Z) (l : list BI.t) :
  wf a -> BI.expand a allowed = Some l -> (length l <= level a)%nat.
Proof.
  intros Hw He. rewrite expand_spec in He by auto. injection He as <-.
  rewrite length_map. unfold level.
  rewrite <- bits_of_length by apply (wf_mask_range a Hw).
  apply filter_length_le.
Qed.

Lemma zero_bits (x : Z) :
  x = 0 <-> forall p, 0 <= p -> Z.testbit x p = false.
Proof.
  split.
  - intros -> p _. apply Z.bits_0.
  - intros H. apply Z.bits_inj'; intros p Hp. rewrite Z.bits_0. auto.
Qed.

Lemma admissible_spec (a e : BI.t) (allowed : Z) :
  wf a -> wf e -> BI.n e = BI.n a ->
  (BI.admissible a e allowed = true
   <-> forall p, 0 <= p < 2 ^ Z.of_nat (BI.n a) ->
                 BI.covers_point e p = true -> BI.covers_point a p = false ->
                 Z.testbit allowed p = true).
Proof.
  intros Ha He Hn. unfold BI.admissible. rewrite Z.eqb_eq, zero_bits. split.
  - intros H p Hp Hce Hca. specialize (H p ltac:(lia)).
    rewrite !Z.land_spec, !Z.lnot_spec in H by lia.
    rewrite !get_all_points_mask_spec, Hn, Hce, Hca in H by auto.
    destruct (Z.leb_spec 0 p); try lia.
    destruct (Z.ltb_spec p (2 ^ Z.of_nat (BI.n a))); try lia.
    cbn in H. now destruct (Z.testbit allowed p).
  - intros H p Hp.
    rewrite !Z.land_spec, !Z.lnot_spec by lia.
    rewrite !get_all_points_mask_spec, Hn by auto.
    destruct (Z.leb_spec 0 p); try lia.
    destruct (Z.ltb_spec p (2 ^ Z.of_nat (BI.n a))); auto. cbn [andb].
    destruct (BI.covers_point e p) eqn:Ee; auto.
    destruct (BI.covers_point a p) eqn:Ea; auto.
    rewrite H; auto.
Qed.

(** ** The breadth-first search *)

Section Search.

Variable nv : nat.
Variables sig ones : Z.

Lemma bfs_step_none (s : MIM.search) :
  MIM.bfs_step sig ones s = Some None -> MIM.queue s = [].
Proof.
  unfold MIM.bfs_step. destruct (MIM.queue s) as [|c rest]; auto.
  destruct (BI.member c (MIM.visited s)); [discriminate|].
  destruct (BI.expand c sig) as [[|e l]|]; cbn [obind]; try discriminate.
  destruct (truthy (BI.covers_mask c ones)); discriminate.
Qed.

(** The four ways a round can go. *)
Lemma bfs_step_cases (s s' : MIM.search) :
  MIM.bfs_step sig ones s = Some (Some s') ->
  exists current rest,
    MIM.queue s = current :: rest
    /\ ((In current (MIM.visited s)
         /\ s' = MIM.mk_search rest (MIM.visited s) (MIM.max_intervals s))
        \/ (~ In current (MIM.visited s)
            /\ exists exps,
                BI.expand current sig = Some exps
                /\ ((exps <> []
                     /\ s' = MIM.mk_search
                               (rest ++ filter
                                  (fun e => negb (BI.member e
                                     (current :: MIM.visited s))) exps)
                               (current :: MIM.visited s)
                               (MIM.max_intervals s))
                    \/ (exps = [] /\ BI.covers_mask current ones <> 0
                        /\ s' = MIM.mk_search rest
                                  (current :: MIM.visited s)
                                  (MIM.max_intervals s ++ [current]))
                    \/ (exps = [] /\ BI.covers_mask current ones = 0
                        /\ s' = MIM.mk_search rest
                                  (current :: MIM.visited s)
                                  (MIM.max_intervals s))))).
Proof.
  unfold MIM.bfs_step. destruct (MIM.queue s) as [|c rest]; [discriminate|].
  intros H. exists c, rest. split; auto.
  destruct (BI.member c (MIM.visited s)) eqn:Em.
  - left. apply member_In in Em. injection H as <-. auto.
  - right. apply member_not_In in Em. split; auto.
    destruct (BI.expand c sig) as [exps|]; cbn [obind] in H;
      [|discriminate].
    exists exps. split; auto.
    destruct exps as [|e l].
    + destruct (truthy (BI.covers_mask c ones)) eqn:Et;
        injection H as <-.
      * right; left. apply truthy_true in Et. auto.
      * right; right. apply truthy_false in Et. auto.
    + left. injection H as <-. split; [discriminate|reflexivity].
Qed.

Lemma reach_front (s s1 s2 : MIM.search) :
  MIM.bfs_step sig ones s = Some (Some s1) ->
  reachable sig ones s1 s2 -> reachable sig ones s s2.
Proof.
  intros Hs Hr. induction Hr.
  - eapply reach_step; [apply reach_refl|exact Hs].
  - eapply reach_step; eauto.
Qed.

Lemma bfs_reachable (fuel : nat) :
  forall s s', MIM.bfs fuel sig ones s = Some s' ->
               reachable sig ones s s' /\ MIM.queue s' = [].
Proof.
  induction fuel as [|fuel IH]; intros s s' H; cbn [MIM.bfs] in H.
  - destruct (MIM.queue s) eqn:Eq; [|discriminate].
    injection H as <-. split; [apply reach_refl|auto].
  - destruct (MIM.bfs_step sig ones s) as [[s1|]|] eqn:Es;
      cbn [obind] in H; try discriminate.
    + apply IH in H as [Hr Hq]. split; auto.
      eapply reach_front; eauto.
    + injection H as <-. split; [apply reach_refl|].
      now apply bfs_step_none.
Qed.

Lemma expansion_props (a e : BI.t) (exps : list BI.t) :
  valid nv a -> BI.expand a sig = Some exps -> In e exps ->
  valid nv e /\ S (level e) = level a
  /\ (forall p, BI.covers_point a p = true -> BI.covers_point e p = true)
  /\ (inside a sig -> inside e sig).
Proof.
  intros [Hw Hn] He Hin.
  apply (expand_In a sig exps e Hw He) in Hin
    as (i & Hi & Hbit & -> & Hadm).
  pose proof (dropped_wf a i Hw Hi Hbit) as Hwe.
  split; [split; auto|]. split; [now apply dropped_level|]. split.
  - intros p. apply dropped_covers.
  - intros Hins p Hp Hc.
    destruct (BI.covers_point a p) eqn:Ea.
    + apply Hins; auto.
    + apply (proj1 (admissible_spec a (dropped a i) sig Hw Hwe eq_refl)
                     Hadm); auto.
Qed.

Lemma step_shape (s s' : MIM.search) :
  search_shape nv sig ones s ->
  MIM.bfs_step sig ones s = Some (Some s') ->
  search_shape nv sig ones s'.
Proof.
  intros (Hall & Hmax & Hnd) Hs.
  apply bfs_step_cases in Hs as (c & rest & Hq & Hcase).
  unfold stored in Hall. rewrite Hq in Hall.
  assert (Hc : valid nv c /\ inside c sig)
    by (apply Hall; now left).
  destruct Hcase as [[Hv ->]|(Hnv & exps & He & Hcase)].
  - split; [|split]; auto.
    unfold stored; cbn. intros a Ha. apply Hall. now right.
  - destruct Hcase as [[Hne ->]|[(-> & Hcov & ->)|(-> & Hcov & ->)]];
      (split; [|split]); unfold stored;
      cbn [MIM.queue MIM.visited MIM.max_intervals]; auto.
    + intros a Ha. rewrite !in_app_iff in Ha.
      destruct Ha as [[Ha|Ha]|[Ha|Ha]].
      * apply Hall. right. apply in_app_iff. auto.
      * apply filter_In in Ha as [Ha _].
        destruct (expansion_props c a exps (proj1 Hc) He Ha)
          as (Hva & _ & _ & Hins). split; auto. apply Hins, Hc.
      * cbn in Ha. destruct Ha as [<-|Ha]; auto.
        apply Hall. right. rewrite !in_app_iff. auto.
      * apply Hall. right. rewrite !in_app_iff. auto.
    + intros m Hm. destruct (Hmax m Hm) as (H1 & H2 & H3).
      repeat split; auto. now right.
    + intros a Ha. rewrite !in_app_iff in Ha.
      destruct Ha as [Ha|[Ha|[Ha|Ha]]].
      * apply Hall. right. apply in_app_iff. auto.
      * cbn in Ha. destruct Ha as [<-|Ha]; auto.
        apply Hall. right. rewrite !in_app_iff. auto.
      * apply Hall. right. rewrite !in_app_iff. auto.
      * cbn in Ha. destruct Ha as [<-|[]]; auto.
    + intros m Hm. apply in_app_iff in Hm as [Hm|[<-|[]]].
      * destruct (Hmax m Hm) as (H1 & H2 & H3).
        repeat split; auto. now right.
      * repeat split; auto. now left.
    + apply NoDup_app; auto.
      * repeat constructor. intros [].
      * intros x Hx [<-|[]]. apply Hnv. now apply Hmax.
    + intros a Ha. rewrite !in_app_iff in Ha.
      destruct Ha as [Ha|[Ha|Ha]].
      * apply Hall. right. apply in_app_iff. auto.
      * cbn in Ha. destruct Ha as [<-|Ha]; auto.
        apply Hall. right. rewrite !in_app_iff. auto.
      * apply Hall. right. rewrite !in_app_iff. auto.
    + intros m Hm. destruct (Hmax m Hm) as (H1 & H2 & H3).
      repeat split; auto. now right.
Qed.

Lemma reachable_shape (s s' : MIM.search) :
  search_shape nv sig ones s -> reachable sig ones s s' ->
  search_shape nv sig ones s'.
Proof.
  intros H Hr. induction Hr; auto. eapply step_shape; eauto.
Qed.

End Search.

(** *** Termination of the search *)

Lemma bfs_weight_pos (k : nat) : (1 <= MIM.bfs_weight k)%nat.
Proof. destruct k; simpl; lia. Qed.

Lemma potential_app (a b : list BI.t) :
  potential (a ++ b) = (potential a + potential b)%nat.
Proof. induction a as [|x a IH]; simpl; auto. rewrite IH. lia. Qed.

Lemma potential_filter (f : BI.t -> bool) (l : list BI.t) :
  (potential (filter f l) <= potential l)%nat.
Proof.
  induction l as [|x l IH]; simpl; auto.
  destruct (f x); simpl; lia.
Qed.

Lemma potential_uniform (k : nat) (l : list BI.t) :
  (forall e, In e l -> level e = k) ->
  potential l = (length l * MIM.bfs_weight k)%nat.
Proof.
  induction l as [|x l IH]; intros H; simpl; auto.
  rewrite IH by (intros; apply H; now right).
  rewrite (H x) by now left. lia.
Qed.

Section SearchTermination.

Variable nv : nat.
Variables sig ones : Z.

Lemma step_total (s : MIM.search) :
  (forall a, In a (MIM.queue s) -> valid nv a) ->
  exists r, MIM.bfs_step sig ones s = Some r.
Proof.
  intros Hv. unfold MIM.bfs_step.
  destruct (MIM.queue s) as [|c rest]; eauto.
  destruct (BI.member c (MIM.visited s)); eauto.
  rewrite expand_spec by (apply Hv; now left). cbn [obind].
  destruct (map _ _); eauto.
  destruct (truthy (BI.covers_mask c ones)); eauto.
Qed.

Lemma step_potential (s s' : MIM.search) :
  (forall a, In a (MIM.queue s) -> valid nv a) ->
  MIM.bfs_step sig ones s = Some (Some s') ->
  (potential (MIM.queue s') < potential (MIM.queue s))%nat
  /\ (forall a, In a (MIM.queue s') -> valid nv a).
Proof.
  intros Hv Hs.
  apply bfs_step_cases in Hs as (c & rest & Hq & Hcase).
  rewrite Hq in *.
  change (potential (c :: rest))
    with (MIM.bfs_weight (level c) + potential rest)%nat.
  pose proof (bfs_weight_pos (level c)) as Hpos.
  assert (Hrest : forall a, In a rest -> valid nv a)
    by (intros; apply Hv; now right).
  destruct Hcase as [[_ ->]|(_ & exps & He & Hcase)];
    [cbn [MIM.queue]; split; auto; lia|].
  destruct Hcase as [[Hne ->]|[(-> & _ & ->)|(-> & _ & ->)]];
    cbn [MIM.queue]; try (split; auto; lia).
  assert (Hc : valid nv c) by (apply Hv; now left).
  split.
  - rewrite potential_app.
    pose proof (potential_filter
                  (fun e => negb (BI.member e (c :: MIM.visited s))) exps).
    pose proof (expand_length c sig exps (proj1 Hc) He) as Hlen.
    destruct (level c) as [|k] eqn:Ek.
    + destruct exps; [congruence|simpl in Hlen; lia].
    + rewrite (potential_uniform k exps) in H.
      2:{ intros e Hin.
          destruct (expansion_props nv sig c e exps Hc He Hin)
            as (_ & Hl & _). lia. }
      cbn [MIM.bfs_weight].
      assert (length exps * MIM.bfs_weight k
              <= S k * MIM.bfs_weight k)%nat
        by (apply Nat.mul_le_mono_r; lia).
      lia.
  - intros a Ha. apply in_app_iff in Ha as [Ha|Ha]; auto.
    apply filter_In in Ha as [Ha _].
    now destruct (expansion_props nv sig c a exps Hc He Ha).
Qed.

Lemma bfs_total (fuel : nat) :
  forall s,
    (forall a, In a (MIM.queue s) -> valid nv a) ->
    (potential (MIM.queue s) <= fuel)%nat ->
    exists s', MIM.bfs fuel sig ones s = Some s'.
Proof.
  induction fuel as [|fuel IH]; intros s Hv Hp; cbn [MIM.bfs].
  - destruct (MIM.queue s) as [|c rest]; eauto.
    cbn in Hp. pose proof (bfs_weight_pos (level c)). lia.
  - destruct (step_total s Hv) as ([s1|] & Hs); rewrite Hs; cbn [obind];
      eauto.
    destruct (step_potential s s1 Hv Hs) as [Hlt Hv1].
    apply IH; auto. lia.
Qed.

End SearchTermination.

(** *** No required point is lost *)

Section SearchComplete.

Variable nv : nat.
Variables sig ones : Z.

Lemma pending_weaken (s : MIM.search) (p : Z) (k k' : nat) :
  (k <= k')%nat -> pending s p k -> pending s p k'.
Proof.
  intros Hk (q & H1 & H2 & H3 & H4). exists q. repeat split; auto. lia.
Qed.

Lemma interval_eq_dec (a b : BI.t) : {a = b} + {a <> b}.
Proof.
  destruct (BI.eqb a b) eqn:E.
  - left. now apply eqb_eq.
  - right. intros H. apply eqb_eq in H. congruence.
Qed.

(** A round that visits [c] keeps every required point in sight as soon
    as the points of [c] itself are. *)
Lemma complete_after (s s' : MIM.search) (c : BI.t) (rest : list BI.t) :
  MIM.queue s = c :: rest ->
  MIM.visited s' = c :: MIM.visited s ->
  incl rest (MIM.queue s') ->
  incl (MIM.max_intervals s) (MIM.max_intervals s') ->
  (forall p, one_point nv ones p -> BI.covers_point c p = true ->
             covered_pt (MIM.max_intervals s') p
             \/ pending s' p (level c)) ->
  search_complete nv ones s -> search_complete nv ones s'.
Proof.
  intros Hq Hvis Hrest Hmax Hcur [HJ HK].
  assert (Hmono : forall p, covered_pt (MIM.max_intervals s) p ->
                            covered_pt (MIM.max_intervals s') p).
  { intros p (m & Hm & Hc). exists m. split; auto. }
  assert (Htransfer : forall p k, one_point nv ones p -> pending s p k ->
            covered_pt (MIM.max_intervals s') p \/ pending s' p k).
  { intros p k Hp (q & Hin & Hnv & Hc & Hl).
    destruct (interval_eq_dec q c) as [->|Hne].
    - destruct (Hcur p Hp Hc) as [H|H]; auto.
      right. apply (pending_weaken s' p (level c)); auto. lia.
    - right. exists q. rewrite Hvis. repeat split; auto.
      + apply Hrest. rewrite Hq in Hin. destruct Hin; congruence.
      + intros [H|H]; auto. }
  split.
  - intros p Hp. destruct (HJ p Hp) as [H|[k H]]; auto.
    destruct (Htransfer p k Hp H); eauto.
  - intros a p Ha Hp Hc. rewrite Hvis in Ha. destruct Ha as [<-|Ha]; auto.
    destruct (HK a p Ha Hp Hc) as [H|H]; auto.
Qed.

Lemma covers_mask_bit (a : BI.t) (p : Z) :
  valid nv a -> one_point nv ones p -> BI.covers_point a p = true ->
  Z.testbit (BI.covers_mask a ones) p = true.
Proof.
  intros [Hw Hn] [Hp Hone] Hc.
  rewrite covers_mask_spec, Hone, Hc, Hn by auto.
  destruct (Z.leb_spec 0 p); [|lia].
  destruct (Z.ltb_spec p (2 ^ Z.of_nat nv)); [|lia].
  now rewrite orb_true_r.
Qed.

Lemma step_complete (s s' : MIM.search) :
  search_shape nv sig ones s -> search_complete nv ones s ->
  MIM.bfs_step sig ones s = Some (Some s') ->
  search_complete nv ones s'.
Proof.
  intros (Hall & _ & _) Hcomp Hs.
  apply bfs_step_cases in Hs as (c & rest & Hq & Hcase).
  assert (Hc : valid nv c)
    by (apply Hall; unfold stored; rewrite Hq; now left).
  destruct Hcase as [[Hv ->]|(Hnv & exps & He & Hcase)].
  - destruct Hcomp as [HJ HK].
    assert (Htransfer : forall p k, pending s p k ->
              pending (MIM.mk_search rest (MIM.visited s)
                                     (MIM.max_intervals s)) p k).
    { intros p k (q & Hin & Hnq & Hcq & Hl). exists q.
      cbn [MIM.queue MIM.visited]. repeat split; auto.
      rewrite Hq in Hin. destruct Hin as [<-|Hin]; [contradiction|auto]. }
    split.
    + intros p Hp. destruct (HJ p Hp) as [H|[k H]]; eauto.
    + intros a p Ha Hp Hca. destruct (HK a p Ha Hp Hca); auto.
  - destruct Hcase as [[Hne ->]|[(-> & Hcov & ->)|(-> & Hcov & ->)]].
    + apply (complete_after s _ c rest); auto;
        cbn [MIM.queue MIM.visited MIM.max_intervals].
      * apply incl_appl, incl_refl.
      * apply incl_refl.
      * intros p Hp Hcp.
        destruct exps as [|e l]; [congruence|].
        destruct (expansion_props nv sig c e (e :: l) Hc He
                    (or_introl eq_refl)) as (Hve & Hle & Hce & _).
        destruct (BI.member e (c :: MIM.visited s)) eqn:Em.
        -- apply member_In in Em. destruct Em as [<-|Em]; [lia|].
           destruct Hcomp as [_ HK].
           destruct (HK e p Em Hp (Hce p Hcp))
             as [H|(q & Hin & Hnq & Hcq & Hl)]; auto.
           right. exists q. cbn [MIM.queue MIM.visited].
           assert (q <> c) by (intros ->; lia).
           repeat split; auto; try lia.
           ++ rewrite Hq in Hin. apply in_app_iff. left.
              destruct Hin; congruence.
           ++ intros [H'|H']; auto.
        -- right. exists e. cbn [MIM.queue MIM.visited].
           repeat split; auto; try lia.
           ++ apply in_app_iff. right. apply filter_In. split.
              ** now left.
              ** now rewrite Em.
           ++ now apply member_not_In.
    + apply (complete_after s _ c rest); auto;
        cbn [MIM.queue MIM.visited MIM.max_intervals].
      * apply incl_refl.
      * apply incl_appl, incl_refl.
      * intros p Hp Hcp. left. exists c. split; auto.
        apply in_app_iff. right. now left.
    + apply (complete_after s _ c rest); auto;
        cbn [MIM.queue MIM.visited MIM.max_intervals].
      * apply incl_refl.
      * apply incl_refl.
      * intros p Hp Hcp.
        pose proof (covers_mask_bit c p Hc Hp Hcp) as Hb.
        rewrite Hcov, Z.bits_0 in Hb. discriminate.
Qed.

Lemma reachable_complete (s s' : MIM.search) :
  search_shape nv sig ones s -> search_complete nv ones s ->
  reachable sig ones s s' ->
  search_complete nv ones s'.
Proof.
  intros Hsh Hc Hr. induction Hr as [|s1 s2 Hr IH Hs]; auto.
  apply (step_complete s1 s2); auto.
  apply (reachable_shape nv sig ones s s1); auto.
Qed.

Lemma complete_final (s : MIM.search) :
  search_complete nv ones s -> MIM.queue s = [] ->
  forall p, one_point nv ones p -> covered_pt (MIM.max_intervals s) p.
Proof.
  intros [HJ _] Hq p Hp. destruct (HJ p Hp) as [H|[k (q & Hin & _)]]; auto.
  rewrite Hq in Hin. destruct Hin.
Qed.

End SearchComplete.

(** ** Construction of the function *)

Lemma bits_below (x k : Z) :
  0 <= k -> 0 <= x -> (forall i, k <= i -> Z.testbit x i = false) ->
  x < 2 ^ k.
Proof.
  intros Hk Hx Hb.
  destruct (Z.eq_dec x 0) as [->|Hne]; [apply Z.pow_pos_nonneg; lia|].
  destruct (Z.lt_ge_cases x (2 ^ k)) as [|Hge]; auto. exfalso.
  assert (Hl : k <= Z.log2 x) by (apply Z.log2_le_pow2; lia).
  specialize (Hb _ Hl). rewrite Z.bit_log2 in Hb by lia. discriminate.
Qed.

Lemma collect_bit (total : Z) (vals : list Z) (p : Z) :
  Z.testbit (PBF.collect total vals) p = true
  <-> In p vals /\ 0 <= p < total.
Proof.
  destruct (Z.lt_ge_cases p 0) as [Hneg|Hp].
  - rewrite Z.testbit_neg_r by lia. split; [discriminate|lia].
  - unfold PBF.collect.
    rewrite (fold_set_bits (fun v => (0 <=? v) && (v <? total)) (fun v => v))
      by (auto; intros x _ Hc; apply andb_prop in Hc as [Hc _];
          now apply Z.leb_le in Hc).
    rewrite Z.bits_0. cbn [orb]. rewrite existsb_exists. split.
    + intros (x & Hin & Hc). apply andb_prop in Hc as [Hc He].
      apply Z.eqb_eq in He. subst x. apply andb_prop in Hc as [H1 H2].
      apply Z.leb_le in H1. apply Z.ltb_lt in H2. auto.
    + intros [Hin Hr]. exists p. split; auto.
      rewrite Z.eqb_refl, andb_true_r.
      apply andb_true_intro. split; [apply Z.leb_le|apply Z.ltb_lt]; lia.
Qed.

Lemma fold_lor_nonneg {X : Type} (f : Z -> X -> Z) (l : list X) :
  (forall r x, 0 <= r -> 0 <= f r x) ->
  forall r0, 0 <= r0 -> 0 <= fold_left f l r0.
Proof.
  intros Hf. induction l as [|x l IH]; intros r0 H0; cbn [fold_left]; auto.
Qed.

Lemma shiftl_1_nonneg (k : Z) : 0 <= Z.shiftl 1 k.
Proof. apply Z.shiftl_nonneg. lia. Qed.

Lemma collect_range (total : Z) (vals : list Z) :
  0 <= total -> 0 <= PBF.collect total vals < 2 ^ total.
Proof.
  intros Ht.
  assert (H0 : 0 <= PBF.collect total vals).
  { unfold PBF.collect. apply fold_lor_nonneg; [|lia].
    intros r x Hr. destruct (_ && _); auto.
    apply Z.lor_nonneg. split; auto using shiftl_1_nonneg. }
  split; auto. apply bits_below; auto.
  intros i Hi. destruct (Z.testbit (PBF.collect total vals) i) eqn:E; auto.
  apply collect_bit in E. lia.
Qed.

Lemma init_constructed (nv : nat) (ones dcares : list Z) (f : PBF.t) :
  PBF.init nv ones dcares = PBF.Constructed f ->
  func_ok f /\ PBF.n f = nv
  /\ PBF.ones_mask f = PBF.collect (2 ^ Z.of_nat nv) ones
  /\ PBF.dcares_mask f = PBF.collect (2 ^ Z.of_nat nv) dcares.
Proof.
  unfold PBF.init. rewrite shiftl_1_pow.
  destruct (truthy _) eqn:Et; [discriminate|].
  intros H. injection H as <-. apply truthy_false in Et.
  assert (0 <= 2 ^ Z.of_nat nv) by (apply Z.pow_nonneg; lia).
  unfold func_ok;
    cbn [PBF.n PBF.total_points PBF.ones_mask PBF.dcares_mask
         PBF.significant_mask PBF.zeros_mask].
  repeat split; auto; try apply collect_range; auto.
Qed.

Lemma func_ok_significant (f : PBF.t) :
  func_ok f ->
  0 <= PBF.significant_mask f
  /\ (forall p, Z.testbit (PBF.significant_mask f) p = true ->
                0 <= p < 2 ^ Z.of_nat (PBF.n f))
  /\ (forall p, Z.testbit (PBF.ones_mask f) p = true ->
                Z.testbit (PBF.significant_mask f) p = true).
Proof.
  intros (Ht & Ho & Hd & _ & Hs & _). rewrite Hs, Ht in *. split; [|split].
  - apply Z.lor_nonneg. lia.
  - intros p Hp.
    assert (0 <= p) by (destruct (Z.le_gt_cases 0 p); auto;
                        rewrite Z.testbit_neg_r in Hp by lia; discriminate).
    split; auto.
    destruct (Z.lt_ge_cases p (2 ^ Z.of_nat (PBF.n f))); auto.
    rewrite Z.lor_spec in Hp.
    rewrite (testbit_small _ _ p Ho), (testbit_small _ _ p Hd) in Hp by lia.
    discriminate.
  - intros p Hp. now rewrite Z.lor_spec, Hp.
Qed.

(** ** The seeds of the search *)

Lemma fold_left_snoc_map {X Y : Type} (f : X -> Y) (l : list X) :
  forall acc, fold_left (fun acc x => acc ++ [f x]) l acc = acc ++ map f l.
Proof.
  induction l as [|x l IH]; intros acc; cbn [fold_left map].
  - now rewrite app_nil_r.
  - now rewrite IH, <- app_assoc.
Qed.

Lemma start_intervals_spec (nv : nat) (sig : Z) :
  0 <= sig ->
  MIM.start_intervals nv sig
  = Some (map (fun b => BI.init nv (Z.shiftl 1 (Z.of_nat nv) - 1)
                                (bit_length b - 1))
              (bits_of sig)).
Proof.
  intros Hs. unfold MIM.start_intervals.
  rewrite while_set_bits_spec by auto. unfold MIM.seed_body.
  now rewrite (fold_left_snoc_map
                 (fun b => BI.init nv (Z.shiftl 1 (Z.of_nat nv) - 1)
                                   (bit_length b - 1))).
Qed.

Lemma popcount_ones (k : nat) : popcount (Z.ones (Z.of_nat k)) = k.
Proof.
  pose proof (popcount_complement k 0) as H.
  rewrite Z.lxor_0_r in H. simpl popcount at 2 in H.
  rewrite Nat.add_0_r in H. apply H.
  split; [lia|apply Z.pow_pos_nonneg; lia].
Qed.

Lemma seed_fields (nv : nat) (i : Z) :
  0 <= i < 2 ^ Z.of_nat nv ->
  BI.init nv (Z.shiftl 1 (Z.of_nat nv) - 1) i
  = BI.mk nv (Z.ones (Z.of_nat nv)) i.
Proof.
  intros Hi. unfold BI.init. rewrite full_mask_ones, Z.land_diag.
  f_equal. now apply land_ones_small.
Qed.

Lemma seed_covers (nv : nat) (i p : Z) :
  0 <= p < 2 ^ Z.of_nat nv ->
  (BI.covers_point (BI.mk nv (Z.ones (Z.of_nat nv)) i) p = true <-> p = i).
Proof.
  intros Hp. rewrite covers_point_spec; cbn [BI.mask BI.value].
  apply land_ones_small in Hp. now rewrite Hp.
Qed.

Lemma initial_search (f : PBF.t) (start : list BI.t) :
  func_ok f ->
  MIM.start_intervals (PBF.n f) (PBF.significant_mask f) = Some start ->
  let s0 := MIM.mk_search start [] [] in
  search_shape (PBF.n f) (PBF.significant_mask f) (PBF.ones_mask f) s0
  /\ search_complete (PBF.n f) (PBF.ones_mask f) s0
  /\ potential start = (length start * MIM.bfs_weight (PBF.n f))%nat.
Proof.
  intros Hok Hst s0.
  destruct (func_ok_significant f Hok) as (Hs0 & Hsr & Hos).
  rewrite start_intervals_spec in Hst by auto. injection Hst as <-.
  assert (Hseed : forall a,
            In a (map (fun b => BI.init (PBF.n f)
                                 (Z.shiftl 1 (Z.of_nat (PBF.n f)) - 1)
                                 (bit_length b - 1))
                      (bits_of (PBF.significant_mask f)))
            <-> exists i, Z.testbit (PBF.significant_mask f) i = true
                          /\ a = BI.mk (PBF.n f)
                                   (Z.ones (Z.of_nat (PBF.n f))) i).
  { intros a. rewrite in_map_iff. split.
    - intros (b & <- & Hb). apply bits_of_spec in Hb as (i & Hi & -> & Hbit);
        auto.
      exists i. rewrite bit_length_pow2 by auto. split; auto.
      apply seed_fields. auto.
    - intros (i & Hbit & ->). exists (2 ^ i).
      pose proof (Hsr i Hbit) as Hi.
      rewrite bit_length_pow2 by lia. split; [now apply seed_fields|].
      apply bits_of_spec; auto. exists i. repeat split; auto; lia. }
  split; [|split].
  - split; [|split].
    + unfold stored, s0; cbn [MIM.queue MIM.visited MIM.max_intervals].
      rewrite !app_nil_r. intros a Ha. apply Hseed in Ha as (i & Hbit & ->).
      pose proof (Hsr i Hbit) as Hi. split.
      * rewrite <- seed_fields by auto. split; [apply wf_init|reflexivity].
      * intros p Hp Hc. cbn [BI.n] in Hp.
        apply seed_covers in Hc; auto. now subst.
    + intros m [].
    + constructor.
  - split.
    + intros p [Hp Hone]. right.
      exists (S (level (BI.mk (PBF.n f) (Z.ones (Z.of_nat (PBF.n f))) p))).
      exists (BI.mk (PBF.n f) (Z.ones (Z.of_nat (PBF.n f))) p).
      unfold s0; cbn [MIM.queue MIM.visited]. repeat split; auto.
      * apply Hseed. exists p. split; auto.
      * now apply seed_covers.
    + intros a p [].
  - apply potential_uniform. intros e He.
    apply Hseed in He as (i & _ & ->). unfold level; cbn [BI.mask].
    apply popcount_ones.
Qed.

(** ** Removing subsets and sorting *)

Lemma enumerate_from_In {X : Type} (l : list X) :
  forall (s i : nat) (x : X),
    In (i, x) (combine (seq s (length l)) l)
    <-> (s <= i)%nat /\ nth_error l (i - s) = Some x.
Proof.
  induction l as [|y l IH]; intros s i x; cbn [length seq combine In].
  - split; [tauto|]. intros [_ H]. destruct (i - s)%nat; discriminate.
  - rewrite IH. split.
    + intros [H|[Hle Hn]].
      * injection H as <- <-. rewrite Nat.sub_diag. auto.
      * split; [lia|]. replace (i - s)%nat with (S (i - S s)) by lia. auto.
    + intros [Hle Hn]. destruct (Nat.eq_dec s i) as [<-|Hne].
      * rewrite Nat.sub_diag in Hn. left. simpl in Hn. congruence.
      * right. split; [lia|].
        replace (i - s)%nat with (S (i - S s)) in Hn by lia. auto.
Qed.

Lemma enumerate_In {X : Type} (l : list X) (i : nat) (x : X) :
  In (i, x) (enumerate l) <-> nth_error l i = Some x.
Proof.
  unfold enumerate. rewrite enumerate_from_In, Nat.sub_0_r.
  split; [tauto|]. split; [lia|auto].
Qed.

Lemma remove_subsets_In (l : list BI.t) (x : BI.t) :
  In x (MIM.remove_subsets l)
  <-> exists i, nth_error l i = Some x
                /\ forall j y, nth_error l j = Some y -> i <> j ->
                               BI.is_subset_of x y = false.
Proof.
  unfold MIM.remove_subsets. rewrite in_map_iff. split.
  - intros ([i x'] & Hx & Hin). cbn [snd] in Hx. subst x'.
    apply filter_In in Hin as [Hin Hf]. cbn [fst snd] in Hf.
    apply enumerate_In in Hin. exists i. split; auto.
    intros j y Hj Hne.
    apply negb_true_iff in Hf.
    destruct (BI.is_subset_of x y) eqn:E; auto.
    assert (Hex : existsb
              (fun jo : nat * BI.t =>
                 negb (Nat.eqb i (fst jo)) && BI.is_subset_of x (snd jo))
              (enumerate l) = true).
    { apply existsb_exists. exists (j, y). split.
      - now apply enumerate_In.
      - cbn [fst snd]. rewrite E, andb_true_r.
        apply negb_true_iff, Nat.eqb_neq. auto. }
    congruence.
  - intros (i & Hi & Hall). exists (i, x). split; auto.
    apply filter_In. split; [now apply enumerate_In|].
    cbn [fst snd]. apply negb_true_iff.
    destruct (existsb _ _) eqn:E; auto.
    apply existsb_exists in E as ([j y] & Hin & Hc). cbn [fst snd] in Hc.
    apply andb_prop in Hc as [Hne Hsub].
    apply negb_true_iff, Nat.eqb_neq in Hne.
    apply enumerate_In in Hin. rewrite (Hall j y Hin Hne) in Hsub.
    discriminate.
Qed.

Lemma remove_subsets_incl (l : list BI.t) (x : BI.t) :
  In x (MIM.remove_subsets l) -> In x l.
Proof.
  intros H. apply remove_subsets_In in H as (i & Hi & _).
  eapply nth_error_In; eauto.
Qed.

Lemma popcount_subset (k : nat) :
  forall a b, 0 <= a < 2 ^ Z.of_nat k -> Z.land a b = b ->
              (popcount b <= popcount a)%nat
              /\ (b <> a -> (popcount b < popcount a)%nat).
Proof.
  induction k as [|k IH]; intros a b Ha Hsub.
  - assert (a = 0) by (simpl in Ha; lia). subst a.
    rewrite Z.land_0_l in Hsub. subst b. split; [auto|congruence].
  - rewrite Nat2Z.inj_succ, Z.pow_succ_r in Ha by lia.
    assert (Hb : 0 <= b) by (rewrite <- Hsub; apply Z.land_nonneg; lia).
    pose proof (binary_split a) as Hsa. pose proof (binary_split b) as Hsb.
    assert (Hda : 0 <= Z.div2 a) by (apply Z.div2_nonneg; lia).
    assert (Hdb : 0 <= Z.div2 b) by (apply Z.div2_nonneg; lia).
    set (a' := Z.div2 a) in *. set (c := Z.odd a) in *.
    set (b' := Z.div2 b) in *. set (d := Z.odd b) in *.
    clearbody a' c b' d. subst a b.
    rewrite land_double_plus in Hsub.
    apply double_plus_inj in Hsub as [Hsub Hcd].
    destruct (IH a' b') as [Hle Hlt]; auto.
    { destruct c; cbn [Z.b2z] in Ha; lia. }
    rewrite !popcount_double_plus by auto. split.
    + destruct c, d; cbn in *; try lia; discriminate.
    + intros Hne.
      destruct (Z.eq_dec b' a') as [->|Hne'].
      * destruct c, d; cbn in *; try lia; try discriminate; congruence.
      * specialize (Hlt Hne'). destruct c, d; cbn in *; try lia; discriminate.
Qed.

Lemma strict_subset_level (nv : nat) (a b : BI.t) :
  valid nv a -> valid nv b -> a <> b -> BI.is_subset_of a b = true ->
  (level b < level a)%nat.
Proof.
  intros [Ha Hna] [Hb Hnb] Hne Hsub.
  apply is_subset_of_spec in Hsub as [Hm Hv].
  apply (popcount_subset (BI.n a)); auto using wf_mask_range.
  intros Heq. apply Hne.
  destruct a as [na ma va], b as [nb mb vb]; cbn in *. subst.
  f_equal. destruct Ha as [_ Ha]. cbn in Ha. congruence.
Qed.

Lemma forallb_false {X : Type} (f : X -> bool) (l : list X) :
  forallb f l = false -> exists x, In x l /\ f x = false.
Proof.
  induction l as [|x l IH]; cbn; [discriminate|].
  destruct (f x) eqn:E; cbn; eauto.
  intros H. destruct (IH H) as (y & Hy & Hf). eauto.
Qed.

Lemma remove_subsets_cover (nv : nat) (l : list BI.t) (p : Z) :
  NoDup l -> (forall a, In a l -> valid nv a) ->
  forall k m, (level m <= k)%nat -> In m l -> BI.covers_point m p = true ->
              covered_pt (MIM.remove_subsets l) p.
Proof.
  intros Hnd Hv. induction k as [|k IH]; intros m Hk Hin Hc.
  - exists m. split; auto. apply remove_subsets_In.
    destruct (In_nth_error _ _ Hin) as [i Hi]. exists i. split; auto.
    intros j y Hj Hne. destruct (BI.is_subset_of m y) eqn:E; auto.
    assert (y <> m).
    { intros ->. apply Hne. apply (proj1 (NoDup_nth_error l) Hnd); [|congruence].
      apply nth_error_Some. congruence. }
    pose proof (strict_subset_level nv m y (Hv m Hin)
                  (Hv y (nth_error_In _ _ Hj)) (not_eq_sym H) E). lia.
  - destruct (In_nth_error _ _ Hin) as [i Hi].
    destruct (forallb (fun jo : nat * BI.t =>
                         Nat.eqb i (fst jo)
                         || negb (BI.is_subset_of m (snd jo)))
                      (enumerate l)) eqn:Ef.
    + exists m. split; auto. apply remove_subsets_In. exists i. split; auto.
      intros j y Hj Hne.
      rewrite forallb_forall in Ef.
      specialize (Ef (j, y) (proj2 (enumerate_In l j y) Hj)).
      cbn [fst snd] in Ef. apply orb_prop in Ef as [Ef|Ef].
      * apply Nat.eqb_eq in Ef. contradiction.
      * now apply negb_true_iff in Ef.
    + apply forallb_false in Ef as ([j y] & Hjy & Hf).
      cbn [fst snd] in Hf. apply orb_false_iff in Hf as [Hij Hsub].
      apply Nat.eqb_neq in Hij. apply negb_false_iff in Hsub.
      apply enumerate_In in Hjy.
      assert (Hym : y <> m).
      { intros ->. apply Hij.
        apply (proj1 (NoDup_nth_error l) Hnd); [|congruence].
        apply nth_error_Some. congruence. }
      pose proof (nth_error_In _ _ Hi) as Hmin.
      pose proof (nth_error_In _ _ Hjy) as Hyin.
      pose proof (strict_subset_level nv m y (Hv m Hmin) (Hv y Hyin)
                    (not_eq_sym Hym) Hsub) as Hlt.
      apply (IH y); auto; [lia|].
      eapply is_subset_of_covers; eauto.
Qed.

Lemma insert_sorted_In (x y : BI.t) (l : list BI.t) :
  In y (MIM.insert_sorted x l) <-> y = x \/ In y l.
Proof.
  induction l as [|z l IH]; cbn.
  - intuition congruence.
  - destruct (BI.lt z x); cbn; rewrite ?IH; intuition congruence.
Qed.

Lemma sort_In (y : BI.t) (l : list BI.t) : In y (MIM.sort l) <-> In y l.
Proof.
  unfold MIM.sort. induction l as [|x l IH]; cbn; [tauto|].
  rewrite insert_sorted_In, IH. intuition congruence.
Qed.

Lemma insert_sorted_NoDup (x : BI.t) (l : list BI.t) :
  NoDup l -> ~ In x l -> NoDup (MIM.insert_sorted x l).
Proof.
  induction l as [|z l IH]; cbn; intros Hnd Hx.
  - constructor; auto.
  - destruct (BI.lt z x).
    + inversion Hnd; subst. constructor.
      * rewrite insert_sorted_In. intuition.
      * apply IH; auto.
    + constructor; auto.
Qed.

Lemma sort_NoDup (l : list BI.t) : NoDup l -> NoDup (MIM.sort l).
Proof.
  unfold MIM.sort. induction l as [|x l IH]; cbn; intros H; auto.
  inversion H; subst. apply insert_sorted_NoDup; auto.
  fold (MIM.sort l). now rewrite sort_In.
Qed.

(** ** find_all_max_intervals *)

Lemma filter_NoDup {X : Type} (f : X -> bool) (l : list X) :
  NoDup l -> NoDup (filter f l).
Proof.
  induction 1 as [|x l Hx Hnd IH]; cbn; [constructor|].
  destruct (f x); auto. constructor; auto.
  intros H. apply filter_In in H. tauto.
Qed.

Lemma remove_subsets_NoDup (l : list BI.t) :
  NoDup l -> NoDup (MIM.remove_subsets l).
Proof.
  intros Hnd. unfold MIM.remove_subsets.
  assert (Hfst : forall m : list (nat * BI.t), NoDup (map snd m) ->
                 forall g, NoDup (map snd (filter g m))).
  { intros m. induction m as [|x m IH]; cbn; intros H g; [constructor|].
    inversion H; subst. destruct (g x); cbn; auto.
    constructor; auto. intros Hin. apply H2.
    apply in_map_iff in Hin as (y & Hy & Hin).
    apply filter_In in Hin as [Hin _]. apply in_map_iff. eauto. }
  apply Hfst. unfold enumerate.
  assert (Hs : forall (m : list BI.t) s,
             map snd (combine (seq s (length m)) m) = m).
  { induction m as [|x m IH]; intros s; cbn; auto. now rewrite IH. }
  now rewrite Hs.
Qed.

Lemma search_states (f : PBF.t) :
  func_ok f ->
  exists start s,
    MIM.start_intervals (PBF.n f) (PBF.significant_mask f) = Some start
    /\ MIM.bfs (length start * MIM.bfs_weight (PBF.n f))
               (PBF.significant_mask f) (PBF.ones_mask f)
               (MIM.mk_search start [] []) = Some s
    /\ MIM.queue s = []
    /\ search_shape (PBF.n f) (PBF.significant_mask f) (PBF.ones_mask f) s
    /\ search_complete (PBF.n f) (PBF.ones_mask f) s.
Proof.
  intros Hok.
  destruct (func_ok_significant f Hok) as (Hs0 & _).
  pose proof (start_intervals_spec (PBF.n f) _ Hs0) as Hst.
  set (start := map _ _) in Hst.
  destruct (initial_search f start Hok Hst) as (Hsh & Hco & Hpot).
  destruct (bfs_total (PBF.n f) (PBF.significant_mask f) (PBF.ones_mask f)
              (length start * MIM.bfs_weight (PBF.n f))
              (MIM.mk_search start [] [])) as [s Hs].
  - intros a Ha. destruct Hsh as (Hall & _).
    apply Hall. unfold stored. apply in_app_iff. now left.
  - cbn [MIM.queue]. lia.
  - exists start, s. split; auto. split; auto.
    destruct (bfs_reachable _ _ _ _ _ Hs) as [Hr Hq].
    split; auto. split.
    + eapply reachable_shape; eauto.
    + eapply reachable_complete; eauto.
Qed.

Lemma search_max_intervals_ok (f : PBF.t) :
  func_ok f ->
  exists l, MIM.search_max_intervals f (PBF.n f) = Some l /\ maximal_set f l.
Proof.
  intros Hok.
  destruct (search_states f Hok) as (start & s & Hst & Hs & Hq & Hsh & Hco).
  unfold MIM.search_max_intervals. rewrite Hst; cbn [obind].
  rewrite Hs; cbn [obind].
  eexists. split; [reflexivity|].
  destruct Hsh as (Hall & Hmax & Hnd).
  assert (Hv : forall a, In a (MIM.max_intervals s) -> valid (PBF.n f) a).
  { intros a Ha. apply Hall. unfold stored. rewrite !in_app_iff. auto. }
  split; [|split].
  - apply sort_NoDup, remove_subsets_NoDup, Hnd.
  - intros m Hm. apply sort_In, remove_subsets_incl in Hm.
    destruct (Hmax m Hm) as (_ & He & Hc).
    destruct (Hall m) as [Hvm Him];
      [unfold stored; rewrite !in_app_iff; auto|].
    auto.
  - intros p Hp.
    destruct (complete_final _ _ s Hco Hq p Hp) as (m & Hm & Hc).
    destruct (remove_subsets_cover (PBF.n f) (MIM.max_intervals s) p Hnd Hv
                (level m) m (le_n _) Hm Hc) as (m' & Hm' & Hc').
    exists m'. split; auto. now apply sort_In.
Qed.

Lemma zeros_bit (f : PBF.t) (p : Z) :
  func_ok f ->
  Z.testbit (PBF.zeros_mask f) p
  = (0 <=? p) && (p <? 2 ^ Z.of_nat (PBF.n f))
    && negb (Z.testbit (PBF.significant_mask f) p).
Proof.
  intros (Ht & _ & _ & _ & _ & Hz). rewrite Hz, Ht.
  destruct (Z.leb_spec 0 p) as [Hp|Hp];
    [|now rewrite Z.testbit_neg_r by lia].
  assert (0 <= 2 ^ Z.of_nat (PBF.n f)) by (apply Z.pow_nonneg; lia).
  rewrite Z.land_spec, Z.lnot_spec, Z.testbit_ones by auto.
  destruct (Z.leb_spec 0 p); [reflexivity|lia].
Qed.

(** Covering no forced zero is the same as lying inside the significant
    points. *)
Lemma inside_zeros (f : PBF.t) (a : BI.t) :
  func_ok f -> valid (PBF.n f) a ->
  (inside a (PBF.significant_mask f)
   <-> BI.covers_mask a (PBF.zeros_mask f) = 0).
Proof.
  intros Hok [Hw Hn]. rewrite zero_bits. split.
  - intros Hin p Hp. rewrite covers_mask_spec, zeros_bit by auto.
    destruct (Z.leb_spec 0 p); [|lia].
    destruct (Z.ltb_spec p (2 ^ Z.of_nat (PBF.n f))); auto. cbn [andb].
    destruct (BI.covers_point a p) eqn:Ec; [|now rewrite andb_false_r].
    rewrite Hin; auto. rewrite Hn. lia.
  - intros H p Hp Hc. rewrite Hn in Hp. specialize (H p ltac:(lia)).
    rewrite covers_mask_spec, zeros_bit, Hc, Hn in H by auto.
    destruct (Z.leb_spec 0 p); [|lia].
    destruct (Z.ltb_spec p (2 ^ Z.of_nat (PBF.n f))); [|lia].
    cbn [andb] in H. rewrite orb_true_r, !andb_true_r in H.
    now apply negb_false_iff in H.
Qed.

(** ** Cover selection *)

Lemma covers_mask_nonneg (a : BI.t) (m : Z) : 0 <= m -> 0 <= BI.covers_mask a m.
Proof.
  intros Hm. unfold BI.covers_mask. destruct (BI.mask a =? 0); auto.
  apply fold_lor_nonneg; [|lia].
  intros r x Hr. destruct (_ && _); auto.
  apply Z.lor_nonneg. split; auto using shiftl_1_nonneg.
Qed.

Lemma covers_mask_subset (a : BI.t) (m p : Z) :
  wf a -> Z.testbit (BI.covers_mask a m) p = true -> Z.testbit m p = true.
Proof.
  intros Hw H. rewrite covers_mask_spec in H by auto.
  apply andb_prop in H as [H _]. now apply andb_prop in H as [H _].
Qed.

Lemma covers_mask_zero (a : BI.t) : wf a -> BI.covers_mask a 0 = 0.
Proof.
  intros Hw. apply zero_bits. intros p _.
  destruct (Z.testbit (BI.covers_mask a 0) p) eqn:E; auto.
  apply covers_mask_subset in E; auto. now rewrite Z.bits_0 in E.
Qed.

Section Selection.

Variable ones : Z.
Variable intervals : list BI.t.

Lemma dict_set_ok (d : MIM.coverage) (k : Z) (v : list BI.t) :
  cov_ok intervals d -> incl v intervals ->
  cov_ok intervals (MIM.dict_set d k v).
Proof.
  intros Hd Hv. induction d as [|[k' v'] d IH]; cbn [MIM.dict_set].
  - intros kv [<-|[]]. auto.
  - destruct (k' =? k).
    + intros kv [<-|Hin]; auto. apply Hd. now right.
    + intros kv [<-|Hin].
      * apply (Hd (k', v')). now left.
      * apply IH; auto. intros kv' H. apply Hd. now right.
Qed.

Lemma dict_append_ok (d : MIM.coverage) (k : Z) (x : BI.t) :
  cov_ok intervals d -> In x intervals ->
  cov_ok intervals (MIM.dict_append d k x).
Proof.
  intros Hd Hx kv Hin. unfold MIM.dict_append in Hin.
  apply in_map_iff in Hin as (kv' & <- & Hin).
  destruct (fst kv' =? k); cbn [snd]; [|now apply Hd].
  apply incl_app; [now apply Hd|]. intros y [<-|[]]. auto.
Qed.

Lemma ones_loop_ok (bits : list Z) :
  forall acc, cov_ok intervals (snd acc) ->
              cov_ok intervals (snd (fold_left MIM.ones_body bits acc)).
Proof.
  induction bits as [|b bits IH]; intros acc Hacc; cbn [fold_left]; auto.
  apply IH. unfold MIM.ones_body; cbn [snd].
  apply dict_set_ok; auto. intros y [].
Qed.

Lemma fill_loop_ok (x : BI.t) (bits : list Z) :
  In x intervals ->
  forall d, cov_ok intervals d ->
            cov_ok intervals (fold_left (MIM.fill_body x) bits d).
Proof.
  intros Hx. induction bits as [|b bits IH]; intros d Hd; cbn [fold_left];
    auto.
  apply IH. unfold MIM.fill_body. now apply dict_append_ok.
Qed.

Lemma fill_coverage_ok (l : list BI.t) :
  0 <= ones -> incl l intervals ->
  forall d, cov_ok intervals d ->
            exists d', MIM.fill_coverage ones l d = Some d'
                       /\ cov_ok intervals d'.
Proof.
  intros Ho. induction l as [|x l IH]; intros Hl d Hd.
  - exists d. split; auto.
  - unfold MIM.fill_coverage; cbn [fold_left obind].
    rewrite while_set_bits_spec by now apply covers_mask_nonneg.
    apply IH.
    + intros y Hy. apply Hl. now right.
    + apply fill_loop_ok; auto. apply Hl. now left.
Qed.

Lemma stage1_ok (d : MIM.coverage) :
  cov_ok intervals d ->
  forall acc, NoDup (fst acc) -> incl (fst acc) intervals ->
              NoDup (fst (fold_left (MIM.stage1_body ones) d acc))
              /\ incl (fst (fold_left (MIM.stage1_body ones) d acc))
                      intervals.
Proof.
  induction d as [|kv d IH]; intros Hd acc Hnd Hin; cbn [fold_left]; auto.
  apply IH.
  - intros kv' H. apply Hd. now right.
  - unfold MIM.stage1_body. destruct (snd kv) as [|x [|y r]]; auto.
    destruct (BI.member x (fst acc)) eqn:Em; cbn [negb fst]; auto.
    apply member_not_In in Em. apply NoDup_app; auto.
    + repeat constructor. intros [].
    + intros z Hz [<-|[]]. contradiction.
  - unfold MIM.stage1_body. destruct (snd kv) as [|x [|y r]] eqn:Ekv; auto.
    destruct (BI.member x (fst acc)); cbn [negb fst]; auto.
    apply incl_app; auto. intros z [<-|[]].
    apply (Hd kv); [now left|]. rewrite Ekv. now left.
Qed.

(** The inner [for] of the greedy loops. *)
Lemma best_fold (chosen : list BI.t) (target : Z) (l : list BI.t) :
  incl l intervals ->
  forall acc,
    best_ok intervals chosen target acc ->
    let r := fold_left (MIM.best_body chosen target) l acc in
    best_ok intervals chosen target r
    /\ (snd acc <= snd r)%nat
    /\ (forall x, In x l -> ~ In x chosen ->
                  (popcount (BI.covers_mask x target) <= snd r)%nat).
Proof.
  induction l as [|y l IH]; intros Hl acc Hacc; cbn [fold_left].
  - split; auto. split; auto. intros x [].
  - assert (Hl' : incl l intervals) by (intros z Hz; apply Hl; now right).
    set (acc' := MIM.best_body chosen target acc y).
    assert (Hacc' : best_ok intervals chosen target acc'
                    /\ (snd acc <= snd acc')%nat
                    /\ (~ In y chosen ->
                        (popcount (BI.covers_mask y target)
                         <= snd acc')%nat)).
    { unfold acc', MIM.best_body.
      destruct (BI.member y chosen) eqn:Em.
      - apply member_In in Em. split; auto. split; auto. tauto.
      - apply member_not_In in Em.
        destruct (Nat.ltb_spec (snd acc)
                    (popcount (BI.covers_mask y target))) as [Hlt|Hge].
        + cbn [snd]. split; [|split; [lia|intros; lia]].
          unfold best_ok; cbn [fst snd].
          split; [apply Hl; now left|]. split; auto.
          split; [reflexivity|lia].
        + split; auto. }
    destruct Hacc' as (H1 & H2 & H3).
    destruct (IH Hl' acc' H1) as (H4 & H5 & H6).
    split; auto. split; [lia|].
    intros x [<-|Hx] Hnx.
    + specialize (H3 Hnx). lia.
    + now apply H6.
Qed.

Lemma best_of_ok (chosen : list BI.t) (target : Z) :
  let r := MIM.best_of intervals chosen target in
  best_ok intervals chosen target r
  /\ (forall x, In x intervals -> ~ In x chosen ->
                (popcount (BI.covers_mask x target) <= snd r)%nat).
Proof.
  destruct (best_fold chosen target intervals (incl_refl _) (None, O))
    as (H1 & _ & H2); [reflexivity|]. split; auto.
Qed.

Lemma chosen_grows (chosen : list BI.t) (b : BI.t) :
  NoDup chosen -> incl chosen intervals -> In b intervals ->
  ~ In b chosen ->
  NoDup (chosen ++ [b]) /\ incl (chosen ++ [b]) intervals.
Proof.
  intros Hnd Hin Hb Hnb. split.
  - apply NoDup_app; auto.
    + repeat constructor. intros [].
    + intros z Hz [<-|[]]. contradiction.
  - apply incl_app; auto. intros z [<-|[]]. auto.
Qed.

Lemma stage2_total (fuel : nat) :
  forall essential covered remaining,
    NoDup essential -> incl essential intervals ->
    (length intervals < fuel + length essential)%nat ->
    exists r, MIM.stage2 fuel ones intervals essential covered remaining
              = Some r
              /\ incl r intervals.
Proof.
  induction fuel as [|fuel IH]; intros ess cov rem Hnd Hin Hlen.
  - pose proof (NoDup_incl_length Hnd Hin). simpl in Hlen. lia.
  - cbn [MIM.stage2]. destruct (truthy rem); eauto.
    destruct (best_of_ok ess rem) as [Hb _].
    destruct (MIM.best_of intervals ess rem) as [[b|] c]; eauto.
    unfold best_ok in Hb; cbn [fst snd] in Hb.
    destruct Hb as (Hbi & Hbn & _ & _).
    destruct (chosen_grows ess b Hnd Hin Hbi Hbn) as [Hnd' Hin'].
    apply IH; auto. rewrite length_app. simpl. lia.
Qed.

Lemma select_essential_total :
  0 <= ones ->
  exists r, MIM.select_essential ones intervals = Some r
            /\ incl r intervals.
Proof.
  intros Ho. unfold MIM.select_essential.
  rewrite while_set_bits_spec by auto. cbn [obind].
  destruct (fill_coverage_ok intervals Ho (incl_refl _)
              (snd (fold_left MIM.ones_body (bits_of ones) ([], []))))
    as (d & Hd & Hdok).
  { apply ones_loop_ok. intros kv []. }
  rewrite Hd. cbn [obind].
  destruct (stage1_ok d Hdok ([], 0)) as [Hnd Hin];
    [constructor|intros y []|].
  apply stage2_total; auto. lia.
Qed.

End Selection.

(** ** The greedy cover *)

Lemma covered_by_fold (ones : Z) (l : list BI.t) (p : Z) :
  forall r0,
    Z.testbit
      (fold_left (fun covered_mask interval =>
                    Z.lor covered_mask (BI.covers_mask interval ones)) l r0) p
    = Z.testbit r0 p
      || existsb (fun r => Z.testbit (BI.covers_mask r ones) p) l.
Proof.
  induction l as [|x l IH]; intros r0; cbn [fold_left existsb].
  - now rewrite orb_false_r.
  - now rewrite IH, Z.lor_spec, orb_assoc.
Qed.

Lemma covered_by_bit (ones : Z) (l : list BI.t) (p : Z) :
  Z.testbit (MIM.covered_by ones l) p
  = existsb (fun r => Z.testbit (BI.covers_mask r ones) p) l.
Proof. unfold MIM.covered_by. now rewrite covered_by_fold, Z.bits_0. Qed.

Lemma covered_by_app (ones : Z) (l : list BI.t) (b : BI.t) :
  MIM.covered_by ones (l ++ [b])
  = Z.lor (MIM.covered_by ones l) (BI.covers_mask b ones).
Proof. unfold MIM.covered_by. now rewrite fold_left_app. Qed.

Lemma positive_has_bit (x : Z) :
  0 <= x -> x <> 0 -> exists p, 0 <= p /\ Z.testbit x p = true.
Proof.
  intros H0 Hne. exists (Z.log2 x). split; [apply Z.log2_nonneg|].
  apply Z.bit_log2. lia.
Qed.

Section Greedy.

Variable nv : nat.
Variable ones : Z.
Variable intervals : list BI.t.
Hypothesis Hones : 0 <= ones < 2 ^ (2 ^ Z.of_nat nv).
Hypothesis Hvalid : forall a, In a intervals -> valid nv a.
Hypothesis Hcover :
  forall p, one_point nv ones p -> covered_pt intervals p.

Lemma ones_bit_point (p : Z) :
  Z.testbit ones p = true -> one_point nv ones p.
Proof.
  intros H. split; auto.
  assert (0 <= p) by (destruct (Z.le_gt_cases 0 p); auto;
                      rewrite Z.testbit_neg_r in H by lia; discriminate).
  split; auto.
  destruct (Z.lt_ge_cases p (2 ^ Z.of_nat nv)); auto.
  rewrite (testbit_small _ _ p Hones) in H by lia. discriminate.
Qed.

Lemma covered_by_full (l : list BI.t) :
  incl l intervals ->
  Z.land ones (Z.lnot (MIM.covered_by ones l)) = 0 ->
  MIM.covered_by ones l = ones.
Proof.
  intros Hl H0. apply Z.bits_inj'; intros p Hp.
  apply (f_equal (fun x => Z.testbit x p)) in H0.
  rewrite Z.land_spec, Z.lnot_spec, Z.bits_0 in H0 by auto.
  destruct (Z.testbit (MIM.covered_by ones l) p) eqn:E.
  - rewrite covered_by_bit in E. apply existsb_exists in E as (r & Hr & Hb).
    apply covers_mask_subset in Hb; auto. apply Hvalid; auto.
  - rewrite andb_true_r in H0. auto.
Qed.

Lemma greedy_complete (fuel : nat) :
  forall result uncovered,
    NoDup result -> incl result intervals ->
    (length intervals < fuel + length result)%nat ->
    uncovered = Z.land ones (Z.lnot (MIM.covered_by ones result)) ->
    exists r, MIM.greedy_loop fuel ones intervals result uncovered = Some r
              /\ incl r intervals
              /\ MIM.covered_by ones r = ones.
Proof.
  induction fuel as [|fuel IH]; intros res unc Hnd Hin Hlen Hunc.
  - pose proof (NoDup_incl_length Hnd Hin). simpl in Hlen. lia.
  - cbn [MIM.greedy_loop]. destruct (truthy unc) eqn:Et.
    2:{ apply truthy_false in Et. exists res. split; auto. split; auto.
        apply covered_by_full; auto. congruence. }
    apply truthy_true in Et.
    assert (Hu0 : 0 <= unc)
      by (rewrite Hunc; apply Z.land_nonneg; left; lia).
    destruct (positive_has_bit unc Hu0 Et) as (p & Hp & Hbit).
    pose proof Hbit as Hbit'.
    rewrite Hunc, Z.land_spec, Z.lnot_spec in Hbit' by auto.
    apply andb_prop in Hbit' as [Hone Hnc].
    apply negb_true_iff in Hnc.
    pose proof (ones_bit_point p Hone) as Hpt.
    destruct (Hcover p Hpt) as (m & Hm & Hcm).
    pose proof (Hvalid m Hm) as Hvm.
    assert (Hnm : ~ In m res).
    { intros Hmr. rewrite covered_by_bit in Hnc.
      assert (existsb (fun r => Z.testbit (BI.covers_mask r ones) p) res
              = true); [|congruence].
      apply existsb_exists. exists m. split; auto.
      now apply (covers_mask_bit nv). }
    assert (Hpos : (0 < popcount (BI.covers_mask m unc))%nat).
    { apply popcount_pos.
      pose proof (covers_mask_nonneg m unc Hu0).
      assert (BI.covers_mask m unc <> 0); [|lia].
      intros H0. destruct Hvm as [Hw Hn].
      assert (Z.testbit (BI.covers_mask m unc) p = true).
      { rewrite covers_mask_spec, Hbit, Hcm, Hn by auto.
        destruct Hpt as [Hr _].
        destruct (Z.leb_spec 0 p); [|lia].
        destruct (Z.ltb_spec p (2 ^ Z.of_nat nv)); [|lia].
        now rewrite orb_true_r. }
      rewrite H0, Z.bits_0 in H1. discriminate. }
    destruct (best_of_ok intervals res unc) as [Hb Hmaxc].
    specialize (Hmaxc m Hm Hnm).
    destruct (MIM.best_of intervals res unc) as [[b|] c];
      unfold best_ok in Hb; cbn [fst snd] in *; [|lia].
    destruct Hb as (Hbi & Hbn & _ & Hc).
    destruct (Nat.ltb_spec 0 c); [|lia].
    destruct (chosen_grows intervals res b Hnd Hin Hbi Hbn) as [Hnd' Hin'].
    apply IH; auto.
    + rewrite length_app. simpl. lia.
    + rewrite covered_by_app, Hunc.
      apply Z.bits_inj'; intros q Hq.
      rewrite !Z.land_spec, !Z.lnot_spec, Z.lor_spec by auto.
      now rewrite negb_orb, andb_assoc.
Qed.

Lemma greedy_cover_ok (self : MIM.t) :
  PBF.ones_mask (MIM.func self) = ones ->
  exists r, MIM._greedy_cover self intervals = Some r
            /\ incl r intervals
            /\ MIM.covered_by ones r = ones.
Proof.
  intros Ho. unfold MIM._greedy_cover. rewrite Ho.
  apply greedy_complete; auto.
  - constructor.
  - intros x [].
  - simpl. lia.
  - unfold MIM.covered_by. cbn [fold_left].
    change (Z.lnot 0) with (-1). now rewrite Z.land_m1_r.
Qed.

End Greedy.

(** ** minimize and get_minimal_dnf *)

Lemma func_ok_ones_range (f : PBF.t) :
  func_ok f -> 0 <= PBF.ones_mask f < 2 ^ (2 ^ Z.of_nat (PBF.n f)).
Proof. intros (Ht & Ho & _). now rewrite <- Ht. Qed.

Lemma maximal_set_valid (f : PBF.t) (l : list BI.t) :
  maximal_set f l -> forall a, In a l -> valid (PBF.n f) a.
Proof. intros (_ & H & _) a Ha. now apply H. Qed.

(** [minimize] returns, whatever the two lists of the object held before;
    its result is part of the maximal intervals and covers every required
    point. *)
Lemma minimize_ok (f : PBF.t) :
  func_ok f ->
  exists l r st,
    MIM.search_max_intervals f (PBF.n f) = Some l
    /\ maximal_set f l
    /\ incl r l
    /\ MIM.covered_by (PBF.ones_mask f) r = PBF.ones_mask f
    /\ MIM.func st = f /\ MIM.n st = PBF.n f
    /\ forall self, MIM.func self = f -> MIM.n self = PBF.n f ->
                    MIM.minimize self = Some (r, st).
Proof.
  intros Hok.
  destruct (search_max_intervals_ok f Hok) as (l & Hl & Hmax).
  pose proof (func_ok_ones_range f Hok) as Hor.
  destruct (select_essential_total (PBF.ones_mask f) l (proj1 Hor))
    as (ess & Hess & Hessl).
  set (st := MIM.mk f (PBF.n f) l ess).
  destruct (greedy_cover_ok (PBF.n f) (PBF.ones_mask f) l Hor
              (maximal_set_valid f l Hmax) (proj2 (proj2 Hmax)) st eq_refl)
    as (g & Hg & Hgl & Hgc).
  assert (Hrun : forall self, MIM.func self = f -> MIM.n self = PBF.n f ->
            MIM.minimize self
            = if MIM.covered_by (PBF.ones_mask f) ess =? PBF.ones_mask f
              then Some (ess, st) else Some (g, st)).
  { intros [f' n' ai ei] Hf Hn. cbn in Hf, Hn. subst f' n'.
    unfold MIM.minimize, MIM.find_all_max_intervals.
    cbn [MIM.func MIM.n MIM.essential_intervals].
    rewrite Hl. cbn [obind fst snd].
    unfold MIM.find_essential_intervals, MIM.find_all_max_intervals.
    cbn [MIM.func MIM.n MIM.all_intervals MIM.essential_intervals].
    assert (Hself : (match l with
                     | [] => r <- (unique_intervals <-
                                     MIM.search_max_intervals f (PBF.n f) ;;
                                   Some (unique_intervals,
                                         MIM.mk f (PBF.n f) unique_intervals
                                                ei)) ;; Some (snd r)
                     | _ :: _ => Some (MIM.mk f (PBF.n f) l ei)
                     end) = Some (MIM.mk f (PBF.n f) l ei)).
    { destruct l; auto. rewrite Hl. reflexivity. }
    rewrite Hself. cbn [obind MIM.func MIM.n MIM.all_intervals].
    rewrite Hess. cbn [obind fst snd MIM.func].
    fold st. destruct (_ =? _); auto.
    rewrite Hg. reflexivity. }
  destruct (MIM.covered_by (PBF.ones_mask f) ess =? PBF.ones_mask f) eqn:Ec.
  - apply Z.eqb_eq in Ec. exists l, ess, st.
    split; [exact Hl|]. split; [exact Hmax|]. split; [exact Hessl|].
    split; [exact Ec|]. split; [reflexivity|]. split; [reflexivity|].
    exact Hrun.
  - exists l, g, st.
    split; [exact Hl|]. split; [exact Hmax|]. split; [exact Hgl|].
    split; [exact Hgc|]. split; [reflexivity|]. split; [reflexivity|].
    exact Hrun.
Qed.

(** ** The worked examples of the source, evaluated *)

Example run_example_1 :
  run 3 [0; 1; 2; 3; 6] [4; 5] = Some "(¬x1) ∨ (¬x3)"%string.
Proof. vm_compute. reflexivity. Qed.

Example run_example_2 : run 3 [2; 3; 6; 7] [0; 1] = Some "(x2)"%string.
Proof. vm_compute. reflexivity. Qed.

Example run_example_4 : run 2 [0; 3] [1] = Some "(¬x1) ∨ (x2)"%string.
Proof. vm_compute. reflexivity. Qed.

Example run_single_point : run 1 [0] [] = Some "(¬x1)"%string.
Proof. vm_compute. reflexivity. Qed.

Example run_constant_one : run 2 [0; 1; 2; 3] [] = Some "1"%string.
Proof. vm_compute. reflexivity. Qed.

Example run_conflict : PBF.init 1 [0] [0] = PBF.ValueError.
Proof. reflexivity. Qed.

(** * The documented properties *)

(** C1 (completeness of the cover).  For every input that
    [PartialBooleanFunction] accepts, [minimize] returns, and the union of
    [covers_mask(ones_mask)] over the returned implicants equals [ones_mask]
    exactly; hence every in-range index of the [ones] list is covered by at
    least one returned implicant.  The claim's side conditions [n >= 1] and
    [ones] non-empty are not needed. *)
Theorem minimize_complete (nv : nat) (ones dcares : list Z) (f : PBF.t) :
  PBF.init nv ones dcares = PBF.Constructed f ->
  exists result st,
    MIM.minimize (MIM.init f) = Some (result, st)
    /\ MIM.covered_by (PBF.ones_mask f) result = PBF.ones_mask f
    /\ forall p, In p ones -> 0 <= p < 2 ^ Z.of_nat nv ->
                 exists m, In m result /\ BI.covers_point m p = true.
Proof.
  intros Hinit.
  destruct (init_constructed nv ones dcares f Hinit) as (Hok & Hn & Ho & _).
  destruct (minimize_ok f Hok)
    as (l & r & st & _ & Hmax & Hrl & Hcov & _ & _ & Hrun).
  exists r, st. split; [now apply Hrun|]. split; auto.
  intros p Hp Hr.
  assert (Hb : Z.testbit (PBF.ones_mask f) p = true)
    by (rewrite Ho; apply collect_bit; auto).
  rewrite <- Hcov, covered_by_bit in Hb.
  apply existsb_exists in Hb as (m & Hm & Hb).
  exists m. split; auto.
  rewrite covers_mask_spec in Hb
    by (apply (maximal_set_valid f l Hmax); auto).
  apply andb_prop in Hb as [Hb _]. now apply andb_prop in Hb as [_ Hb].
Qed.

Lemma minimize_complete_witness :
  PBF.init 3 [0; 1; 2; 3; 6] [4; 5]
  = PBF.Constructed (PBF.mk 3 8 79 48 127 128)
  /\ exists result st,
      MIM.minimize (MIM.init (PBF.mk 3 8 79 48 127 128)) = Some (result, st)
      /\ MIM.covered_by 79 result = 79
      /\ forall p, In p [0; 1; 2; 3; 6] -> 0 <= p < 2 ^ Z.of_nat 3 ->
                   exists m, In m result /\ BI.covers_point m p = true.
Proof.
  split; [reflexivity|].
  apply (minimize_complete 3 [0; 1; 2; 3; 6] [4; 5]
           (PBF.mk 3 8 79 48 127 128)).
  reflexivity.
Defined.

(** C2 (soundness).  For every accepted input: the seeds, and every interval
    held in the queue, the visited set or the candidate list of any state the
    breadth-first search passes through, cover no forced zero
    ([covers_mask(zeros_mask) == 0]); so do the intervals returned by
    [find_all_max_intervals]; and every implicant returned by [minimize]
    covers no forced zero and at least one required point
    ([covers_mask(ones_mask) != 0]). *)
Theorem search_sound (nv : nat) (ones dcares : list Z) (f : PBF.t) :
  PBF.init nv ones dcares = PBF.Constructed f ->
  (exists start,
      MIM.start_intervals nv (PBF.significant_mask f) = Some start
      /\ (forall a, In a start -> BI.covers_mask a (PBF.zeros_mask f) = 0)
      /\ forall s,
          reachable (PBF.significant_mask f) (PBF.ones_mask f)
                    (MIM.mk_search start [] []) s ->
          forall a, In a (stored s) ->
                    BI.covers_mask a (PBF.zeros_mask f) = 0)
  /\ (exists l st,
         MIM.find_all_max_intervals (MIM.init f) = Some (l, st)
         /\ forall a, In a l -> BI.covers_mask a (PBF.zeros_mask f) = 0)
  /\ (exists result st,
         MIM.minimize (MIM.init f) = Some (result, st)
         /\ forall a, In a result ->
                      BI.covers_mask a (PBF.zeros_mask f) = 0
                      /\ BI.covers_mask a (PBF.ones_mask f) <> 0).
Proof.
  intros Hinit.
  destruct (init_constructed nv ones dcares f Hinit) as (Hok & Hn & _).
  subst nv.
  destruct (minimize_ok f Hok)
    as (l & r & st & Hl & Hmax & Hrl & _ & _ & _ & Hrun).
  split; [|split].
  - destruct (search_states f Hok) as (start & s & Hst & _).
    exists start. split; auto.
    destruct (initial_search f start Hok Hst) as (Hsh & _).
    assert (Hall : forall s',
              reachable (PBF.significant_mask f) (PBF.ones_mask f)
                        (MIM.mk_search start [] []) s' ->
              forall a, In a (stored s') ->
                        BI.covers_mask a (PBF.zeros_mask f) = 0).
    { intros s' Hr a Ha.
      destruct (reachable_shape _ _ _ _ _ Hsh Hr) as (Hall & _).
      destruct (Hall a Ha) as [Hv Hi]. now apply (inside_zeros f a Hok Hv). }
    split; auto.
    intros a Ha. apply (Hall _ (reach_refl _ _ _)).
    unfold stored; cbn [MIM.queue]. apply in_app_iff. now left.
  - exists l, (MIM.mk f (PBF.n f) l []). split.
    + unfold MIM.find_all_max_intervals, MIM.init;
        cbn [MIM.func MIM.n MIM.essential_intervals].
      now rewrite Hl.
    + intros a Ha. destruct Hmax as (_ & Hm & _).
      destruct (Hm a Ha) as (Hv & Hi & _).
      now apply (inside_zeros f a Hok Hv).
  - exists r, st. split; [now apply Hrun|].
    intros a Ha. destruct Hmax as (_ & Hm & _).
    destruct (Hm a (Hrl a Ha)) as (Hv & Hi & _ & Hc).
    split; auto. now apply (inside_zeros f a Hok Hv).
Qed.

Lemma search_sound_witness :
  PBF.init 2 [0; 3] [1] = PBF.Constructed (PBF.mk 2 4 9 2 11 4)
  /\ exists result st,
      MIM.minimize (MIM.init (PBF.mk 2 4 9 2 11 4)) = Some (result, st)
      /\ forall a, In a result ->
                   BI.covers_mask a 4 = 0 /\ BI.covers_mask a 9 <> 0.
Proof.
  split; [reflexivity|].
  apply (search_sound 2 [0; 3] [1] (PBF.mk 2 4 9 2 11 4)).
  reflexivity.
Defined.

(** C3 (maximality).  For every accepted input [find_all_max_intervals]
    returns, and [expand(significant_mask)] of each returned implicant is the
    empty list: no generalization that drops one literal of a returned
    implicant stays inside the ones and don't-cares. *)
Theorem max_intervals_maximal (nv : nat) (ones dcares : list Z) (f : PBF.t) :
  PBF.init nv ones dcares = PBF.Constructed f ->
  exists l st,
    MIM.find_all_max_intervals (MIM.init f) = Some (l, st)
    /\ MIM.all_intervals st = l
    /\ forall m, In m l ->
                 BI.expand m (PBF.significant_mask f) = Some []
                 /\ forall i, 0 <= i -> Z.testbit (BI.mask m) i = true ->
                              ~ inside (dropped m i) (PBF.significant_mask f).
Proof.
  intros Hinit.
  destruct (init_constructed nv ones dcares f Hinit) as (Hok & _).
  destruct (search_max_intervals_ok f Hok) as (l & Hl & _ & Hm & _).
  exists l, (MIM.mk f (PBF.n f) l []). split; [|split; auto].
  - unfold MIM.find_all_max_intervals, MIM.init;
      cbn [MIM.func MIM.n MIM.essential_intervals].
    now rewrite Hl.
  - intros m Hin. destruct (Hm m Hin) as ([Hw Hn] & _ & He & _).
    split; auto. intros i Hi Hb Hins.
    pose proof (dropped_wf m i Hw Hi Hb) as Hwd.
    assert (Hex : In (dropped m i) []); [|destruct Hex].
    apply (expand_In m (PBF.significant_mask f) [] (dropped m i) Hw He).
    exists i. repeat split; auto.
    apply (admissible_spec m (dropped m i) _ Hw Hwd eq_refl).
    intros p Hp Hc _. apply Hins; auto.
Qed.

Lemma max_intervals_maximal_witness :
  PBF.init 3 [2; 3; 6; 7] [0; 1] = PBF.Constructed (PBF.mk 3 8 204 3 207 48)
  /\ exists l st,
      MIM.find_all_max_intervals (MIM.init (PBF.mk 3 8 204 3 207 48))
      = Some (l, st)
      /\ MIM.all_intervals st = l
      /\ forall m, In m l ->
                   BI.expand m 207 = Some []
                   /\ forall i, 0 <= i -> Z.testbit (BI.mask m) i = true ->
                                ~ inside (dropped m i) 207.
Proof.
  split; [reflexivity|].
  apply (max_intervals_maximal 3 [2; 3; 6; 7] [0; 1]
           (PBF.mk 3 8 204 3 207 48)).
  reflexivity.
Defined.

(** C4 ([covers_mask] against the pointwise test).  For an interval built by
    the constructor and a candidate mask [m] over the points [0 .. 2^n - 1],
    bit [p] of [covers_mask(m)] is set exactly when bit [p] of [m] is set and
    [covers_point(p)] holds, that is [(p & mask) == value]; and the universal
    interval ([mask == 0]) returns [m] unchanged. *)
Theorem covers_mask_pointwise (nv : nat) (mk vl m : Z) :
  0 <= m < 2 ^ (2 ^ Z.of_nat nv) ->
  let t := BI.init nv mk vl in
  (forall p, Z.testbit (BI.covers_mask t m) p
             = Z.testbit m p && BI.covers_point t p)
  /\ (forall p, Z.testbit (BI.covers_mask t m) p = true
                <-> Z.testbit m p = true
                    /\ Z.land p (BI.mask t) = BI.value t)
  /\ (BI.mask t = 0 -> BI.covers_mask t m = m).
Proof.
  intros Hm t.
  assert (Hw : wf t) by apply wf_init.
  assert (Hpt : forall p, Z.testbit (BI.covers_mask t m) p
                          = Z.testbit m p && BI.covers_point t p).
  { intros p. rewrite covers_mask_spec by auto.
    destruct (Z.testbit m p) eqn:Eb; auto. cbn [andb].
    destruct (BI.covers_point t p); auto. cbn [andb].
    assert (0 <= p) by (destruct (Z.le_gt_cases 0 p); auto;
                        rewrite Z.testbit_neg_r in Eb by lia; discriminate).
    destruct (Z.lt_ge_cases p (2 ^ Z.of_nat nv)) as [Hlt|Hge].
    - change (BI.n t) with nv.
      destruct (Z.leb_spec 0 p); [|lia].
      destruct (Z.ltb_spec p (2 ^ Z.of_nat nv)); [|lia].
      now rewrite orb_true_r.
    - rewrite (testbit_small m _ p Hm) in Eb by lia. discriminate. }
  split; auto. split.
  - intros p. rewrite Hpt, andb_true_iff, covers_point_spec. tauto.
  - intros H0. unfold BI.covers_mask. now rewrite H0.
Qed.

Lemma covers_mask_pointwise_witness :
  0 <= 77 < 2 ^ (2 ^ Z.of_nat 3)
  /\ (forall p, Z.testbit (BI.covers_mask (BI.init 3 5 4) 77) p
                = Z.testbit 77 p && BI.covers_point (BI.init 3 5 4) p).
Proof.
  split; [vm_compute; split; [discriminate|reflexivity]|].
  apply (covers_mask_pointwise 3 5 4 77).
  vm_compute. split; [discriminate|reflexivity].
Defined.

(** C5 ([expand]).  [expand(allowed_mask)] of a constructed interval returns
    exactly the admissible single-literal drops: an interval is returned if
    and only if it arises by clearing one set bit [i] of [mask] (and bit [i]
    of [value]) and every point below [2^n] that it covers and the original
    does not lies in [allowed_mask], which is the source's test
    [(new_points_mask & ~current_points_mask) & ~allowed_mask == 0]; one
    candidate is tried per set bit of [mask], lowest bit first. *)
Theorem expand_admissible (nv : nat) (mk vl allowed : Z) :
  let t := BI.init nv mk vl in
  exists l,
    BI.expand t allowed = Some l
    /\ (forall e,
           In e l
           <-> exists i,
                 0 <= i /\ Z.testbit (BI.mask t) i = true
                 /\ e = dropped t i
                 /\ forall p, 0 <= p < 2 ^ Z.of_nat nv ->
                              BI.covers_point e p = true ->
                              BI.covers_point t p = false ->
                              Z.testbit allowed p = true)
    /\ (forall e, In e l ->
                  Z.land (Z.land (BI.get_all_points_mask e)
                                 (Z.lnot (BI.get_all_points_mask t)))
                         (Z.lnot allowed) = 0)
    /\ l = map (BI.drop_literal t)
               (filter (fun b => BI.admissible t (BI.drop_literal t b) allowed)
                       (bits_of (BI.mask t)))
    /\ length (bits_of (BI.mask t)) = popcount (BI.mask t)
    /\ (length l <= popcount (BI.mask t))%nat.
Proof.
  intros t.
  assert (Hw : wf t) by apply wf_init.
  pose proof (expand_spec t allowed Hw) as He.
  eexists. split; [exact He|]. split; [|split; [|split; [|split]]].
  - intros e. rewrite (expand_In t allowed _ e Hw He). split.
    + intros (i & Hi & Hb & -> & Hadm). exists i.
      repeat split; auto.
      apply (proj1 (admissible_spec t (dropped t i) allowed Hw
                      (dropped_wf t i Hw Hi Hb) eq_refl) Hadm).
    + intros (i & Hi & Hb & -> & Hadm). exists i.
      repeat split; auto.
      apply (proj2 (admissible_spec t (dropped t i) allowed Hw
                      (dropped_wf t i Hw Hi Hb) eq_refl) Hadm).
  - intros e Hin. apply (expand_In t allowed _ e Hw He) in Hin
      as (i & _ & _ & _ & Hadm).
    unfold BI.admissible in Hadm. now apply Z.eqb_eq in Hadm.
  - reflexivity.
  - apply bits_of_length, (wf_mask_range t Hw).
  - apply (expand_length t allowed _ Hw He).
Qed.

(** C6 ([is_subset_of] against point sets).  For two constructed intervals
    over the same [n], [a.is_subset_of(b)] holds exactly when every point
    below [2^n] covered by [a] is covered by [b], equivalently when
    [get_all_points_mask] of [a] is contained in that of [b]; the test is the
    mask/value comparison of the source. *)
Theorem is_subset_of_points (nv : nat) (ma va mb vb : Z) :
  let a := BI.init nv ma va in
  let b := BI.init nv mb vb in
  (BI.is_subset_of a b = true
   <-> forall p, 0 <= p < 2 ^ Z.of_nat nv ->
                 BI.covers_point a p = true -> BI.covers_point b p = true)
  /\ (BI.is_subset_of a b = true
      <-> forall p, Z.testbit (BI.get_all_points_mask a) p = true ->
                    Z.testbit (BI.get_all_points_mask b) p = true)
  /\ BI.is_subset_of a b
     = (Z.land (BI.mask a) (BI.mask b) =? BI.mask b)
       && (Z.land (BI.value a) (BI.mask b) =? BI.value b).
Proof.
  intros a b.
  assert (Ha : wf a) by apply wf_init.
  assert (Hb : wf b) by apply wf_init.
  assert (H1 : BI.is_subset_of a b = true
               <-> forall p, 0 <= p < 2 ^ Z.of_nat nv ->
                             BI.covers_point a p = true ->
                             BI.covers_point b p = true).
  { split.
    - intros H p _. now apply is_subset_of_covers.
    - intros H. apply covers_all_is_subset; auto. }
  split; auto. split; [|reflexivity].
  rewrite H1. split.
  - intros H p Hp. rewrite get_all_points_mask_spec in * by auto.
    change (BI.n a) with nv in Hp. change (BI.n b) with nv.
    apply andb_prop in Hp as [Hr Hc]. rewrite Hr. cbn [andb].
    apply H; auto. apply andb_prop in Hr as [Hr1 Hr2].
    apply Z.leb_le in Hr1. apply Z.ltb_lt in Hr2. lia.
  - intros H p Hp Hc. specialize (H p).
    rewrite !get_all_points_mask_spec in H by auto.
    change (BI.n a) with nv in H. change (BI.n b) with nv in H.
    destruct (Z.leb_spec 0 p); [|lia].
    destruct (Z.ltb_spec p (2 ^ Z.of_nat nv)); [|lia].
    cbn [andb] in H. auto.
Qed.

(** C7, as the code has it.  Construction raises [ValueError] exactly when
    the two lists share an index inside [0, 2^n); indices outside that range
    set no bit of [ones_mask] or [dcares_mask] and never cause the error, so
    construction succeeds whenever the lists share no in-range index. *)
Theorem construction_contract (nv : nat) (ones dcares : list Z) :
  (PBF.init nv ones dcares = PBF.ValueError
   <-> exists x, In x ones /\ In x dcares /\ 0 <= x < 2 ^ Z.of_nat nv)
  /\ (forall f,
         PBF.init nv ones dcares = PBF.Constructed f ->
         (forall p, Z.testbit (PBF.ones_mask f) p = true
                    <-> In p ones /\ 0 <= p < 2 ^ Z.of_nat nv)
         /\ (forall p, Z.testbit (PBF.dcares_mask f) p = true
                       <-> In p dcares /\ 0 <= p < 2 ^ Z.of_nat nv))
  /\ ((forall x, In x ones -> In x dcares -> ~ 0 <= x < 2 ^ Z.of_nat nv) ->
      exists f, PBF.init nv ones dcares = PBF.Constructed f).
Proof.
  assert (Herr : PBF.init nv ones dcares = PBF.ValueError
                 <-> exists x, In x ones /\ In x dcares
                               /\ 0 <= x < 2 ^ Z.of_nat nv).
  { unfold PBF.init. rewrite shiftl_1_pow.
    set (om := PBF.collect _ ones). set (dm := PBF.collect _ dcares).
    assert (Hnn : 0 <= Z.land om dm).
    { apply Z.land_nonneg. left. apply collect_range.
      apply Z.pow_nonneg. lia. }
    destruct (truthy (Z.land om dm)) eqn:Et.
    - split; auto. intros _. apply truthy_true in Et.
      destruct (positive_has_bit _ Hnn Et) as (p & Hp & Hb).
      rewrite Z.land_spec in Hb. apply andb_prop in Hb as [H1 H2].
      apply collect_bit in H1, H2. exists p. tauto.
    - split; [discriminate|]. intros (x & H1 & H2 & Hr). exfalso.
      apply truthy_false in Et.
      assert (Z.testbit (Z.land om dm) x = true).
      { rewrite Z.land_spec. apply andb_true_intro.
        split; apply collect_bit; auto. }
      rewrite Et, Z.bits_0 in H. discriminate. }
  split; auto. split.
  - intros f Hf. destruct (init_constructed _ _ _ _ Hf) as (_ & _ & Ho & Hd).
    rewrite Ho, Hd. split; intros p; apply collect_bit.
  - intros Hdis. destruct (PBF.init nv ones dcares) as [f|] eqn:E; eauto.
    exfalso. destruct (proj1 Herr eq_refl) as (x & H1 & H2 & Hr).
    now apply (Hdis x).
Qed.

(** C7 as stated fails: the lists [5] and [5] intersect, yet with one
    variable the shared index is out of range and construction succeeds. *)
Lemma construction_overlap_out_of_range :
  (exists x, In x [5] /\ In x [5])
  /\ PBF.init 1 [5] [5] = PBF.Constructed (PBF.mk 1 2 0 0 0 3)
  /\ PBF.init 1 [5] [5] <> PBF.ValueError.
Proof.
  split; [exists 5; split; now left|]. split; [reflexivity|discriminate].
Qed.

(** C9 (subset antisymmetry).  Two constructed intervals over the same [n]
    that are subsets of each other are equal: same [mask], same [value]. *)
Theorem is_subset_of_antisymmetric (nv : nat) (ma va mb vb : Z) :
  let a := BI.init nv ma va in
  let b := BI.init nv mb vb in
  BI.is_subset_of a b = true -> BI.is_subset_of b a = true ->
  BI.mask a = BI.mask b /\ BI.value a = BI.value b
  /\ BI.eqb a b = true /\ a = b.
Proof.
  intros a b Hab Hba.
  destruct (is_subset_of_antisym a b (wf_init _ _ _) (wf_init _ _ _) Hab Hba)
    as [Hm Hv].
  assert (Heq : BI.eqb a b = true).
  { unfold BI.eqb. rewrite Hm, Hv, !Z.eqb_refl.
    change (BI.n a) with nv. change (BI.n b) with nv.
    now rewrite Nat.eqb_refl. }
  repeat split; auto. now apply eqb_eq.
Qed.

Lemma is_subset_of_antisymmetric_witness :
  BI.is_subset_of (BI.init 3 5 4) (BI.init 3 13 12) = true
  /\ BI.is_subset_of (BI.init 3 13 12) (BI.init 3 5 4) = true
  /\ BI.init 3 5 4 = BI.init 3 13 12.
Proof.
  split; [reflexivity|]. split; [reflexivity|].
  apply (is_subset_of_antisymmetric 3 5 4 13 12); reflexivity.
Defined.

(** C8 (determinism).  For every accepted input the run produces a formula,
    and that formula depends on the input only: every minimizer object over
    the function (a fresh one for each independent run, or one that was used
    before and holds earlier lists) answers [get_minimal_dnf] with the same
    string, and leaves an object that answers with it again. *)
Theorem minimal_dnf_deterministic (nv : nat) (ones dcares : list Z)
    (f : PBF.t) :
  PBF.init nv ones dcares = PBF.Constructed f ->
  exists s,
    run nv ones dcares = Some s
    /\ (forall self, MIM.func self = f -> MIM.n self = PBF.n f ->
                     exists st, MIM.get_minimal_dnf self = Some (s, st)
                                /\ MIM.get_minimal_dnf st = Some (s, st))
    /\ (forall s1 s2 st1 st2,
           MIM.get_minimal_dnf (MIM.init f) = Some (s1, st1) ->
           MIM.get_minimal_dnf (MIM.init f) = Some (s2, st2) ->
           s1 = s2).
Proof.
  intros Hinit.
  destruct (init_constructed nv ones dcares f Hinit) as (Hok & _).
  destruct (minimize_ok f Hok)
    as (l & r & st & _ & _ & _ & _ & Hsf & Hsn & Hrun).
  set (s := match r with
            | [] => "0"%string
            | _ :: _ => MIM.render r []
            end).
  assert (Hdnf : forall self, MIM.func self = f -> MIM.n self = PBF.n f ->
                              MIM.get_minimal_dnf self = Some (s, st)).
  { intros self Hf Hn. unfold MIM.get_minimal_dnf.
    rewrite (Hrun self Hf Hn). cbn [obind fst snd].
    unfold s. now destruct r. }
  exists s. split; [|split].
  - unfold run. rewrite Hinit, (Hdnf (MIM.init f) eq_refl eq_refl).
    reflexivity.
  - intros self Hf Hn. exists st. split; auto.
  - intros s1 s2 st1 st2 H1 H2. congruence.
Qed.

Lemma minimal_dnf_deterministic_witness :
  PBF.init 3 [0; 3; 5; 6; 7] []
  = PBF.Constructed (PBF.mk 3 8 233 0 233 22)
  /\ exists s,
      run 3 [0; 3; 5; 6; 7] [] = Some s
      /\ (forall self,
             MIM.func self = PBF.mk 3 8 233 0 233 22 ->
             MIM.n self = PBF.n (PBF.mk 3 8 233 0 233 22) ->
             exists st, MIM.get_minimal_dnf self = Some (s, st)
                        /\ MIM.get_minimal_dnf st = Some (s, st))
      /\ (forall s1 s2 st1 st2,
             MIM.get_minimal_dnf (MIM.init (PBF.mk 3 8 233 0 233 22))
             = Some (s1, st1) ->
             MIM.get_minimal_dnf (MIM.init (PBF.mk 3 8 233 0 233 22))
             = Some (s2, st2) ->
             s1 = s2).
Proof.
  split; [reflexivity|].
  apply (minimal_dnf_deterministic 3 [0; 3; 5; 6; 7] []
           (PBF.mk 3 8 233 0 233 22)).
  reflexivity.
Defined.

(** C10 (empty function).  When no index of the [ones] list lies in
    [0, 2^n), so that [ones_mask == 0], then whatever the don't-cares are,
    [minimize] returns the empty list and [get_minimal_dnf] returns ["0"]. *)
Theorem empty_function_zero (nv : nat) (ones dcares : list Z) (f : PBF.t) :
  PBF.init nv ones dcares = PBF.Constructed f ->
  (forall x, In x ones -> ~ 0 <= x < 2 ^ Z.of_nat nv) ->
  PBF.ones_mask f = 0
  /\ (exists st, MIM.minimize (MIM.init f) = Some ([], st))
  /\ (exists st, MIM.get_minimal_dnf (MIM.init f) = Some ("0"%string, st))
  /\ run nv ones dcares = Some "0"%string.
Proof.
  intros Hinit Hout.
  destruct (init_constructed nv ones dcares f Hinit) as (Hok & _ & Ho & _).
  assert (H0 : PBF.ones_mask f = 0).
  { rewrite Ho. apply zero_bits. intros p _.
    destruct (Z.testbit (PBF.collect (2 ^ Z.of_nat nv) ones) p) eqn:E; auto.
    apply collect_bit in E as [Hin Hr]. now apply Hout in Hin. }
  destruct (minimize_ok f Hok)
    as (l & r & st & _ & Hmax & Hrl & _ & _ & _ & Hrun).
  assert (Hl : l = []).
  { destruct l as [|m l]; auto. exfalso.
    destruct Hmax as (_ & Hm & _).
    destruct (Hm m (or_introl eq_refl)) as ([Hw _] & _ & _ & Hc).
    apply Hc. rewrite H0. now apply covers_mask_zero. }
  assert (Hr : r = []).
  { destruct r as [|m r]; auto. exfalso.
    subst l. apply (Hrl m). now left. }
  subst r.
  pose proof (Hrun (MIM.init f) eq_refl eq_refl) as Hmin.
  assert (Hdnf : MIM.get_minimal_dnf (MIM.init f) = Some ("0"%string, st))
    by (unfold MIM.get_minimal_dnf; now rewrite Hmin).
  split; auto. split; eauto. split; eauto.
  unfold run. now rewrite Hinit, Hdnf.
Qed.

Lemma empty_function_zero_witness :
  PBF.init 2 [4; 9] [0; 1] = PBF.Constructed (PBF.mk 2 4 0 3 3 12)
  /\ (forall x, In x [4; 9] -> ~ 0 <= x < 2 ^ Z.of_nat 2)
  /\ run 2 [4; 9] [0; 1] = Some "0"%string.
Proof.
  assert (Hout : forall x, In x [4; 9] -> ~ 0 <= x < 2 ^ Z.of_nat 2)
    by (intros x [<-|[<-|[]]]; simpl; lia).
  split; [reflexivity|]. split; [exact Hout|].
  apply (empty_function_zero 2 [4; 9] [0; 1] (PBF.mk 2 4 0 3 3 12)
           eq_refl Hout).
Defined.


(** * Further properties of the code *)

(** ** BooleanInterval *)

Lemma get_all_points_mask_nonneg (a : BI.t) : 0 <= BI.get_all_points_mask a.
Proof.
  unfold BI.get_all_points_mask. destruct (BI.mask a =? 0).
  - change (Z.shiftl 1 (Z.shiftl 1 (Z.of_nat (BI.n a))) - 1)
      with (Z.ones (Z.shiftl 1 (Z.of_nat (BI.n a)))).
    rewrite Z.ones_equiv, shiftl_1_pow.
    assert (0 < 2 ^ (2 ^ Z.of_nat (BI.n a)))
      by (apply Z.pow_pos_nonneg; [lia|apply Z.pow_nonneg; lia]).
    lia.
  - apply fold_lor_nonneg; [|lia].
    intros r x Hr. destruct (_ <? _); auto.
    apply Z.lor_nonneg. split; auto using shiftl_1_nonneg.
Qed.

(** X1.  [get_all_points_mask] of a constructed interval has bit [p] set
    exactly for the points [p] below [2^n] with [(p & mask) == value]; it is
    a non-empty mask over the [2^n] points. *)
Theorem get_all_points_mask_points (nv : nat) (mk vl : Z) :
  let t := BI.init nv mk vl in
  (forall p, Z.testbit (BI.get_all_points_mask t) p = true
             <-> 0 <= p < 2 ^ Z.of_nat nv
                 /\ Z.land p (BI.mask t) = BI.value t)
  /\ 0 < BI.get_all_points_mask t < 2 ^ (2 ^ Z.of_nat nv)
  /\ Z.testbit (BI.get_all_points_mask t) (BI.value t) = true.
Proof.
  intros t. assert (Hw : wf t) by apply wf_init.
  assert (Hpt : forall p, Z.testbit (BI.get_all_points_mask t) p = true
                          <-> 0 <= p < 2 ^ Z.of_nat nv
                              /\ Z.land p (BI.mask t) = BI.value t).
  { intros p. rewrite get_all_points_mask_spec by auto.
    change (BI.n t) with nv.
    rewrite !andb_true_iff, Z.leb_le, Z.ltb_lt, covers_point_spec. tauto. }
  assert (Hv : Z.testbit (BI.get_all_points_mask t) (BI.value t) = true).
  { apply Hpt. destruct (wf_covers_value t Hw) as [Hr Hc].
    split; auto. now apply covers_point_spec. }
  split; auto. split; auto.
  pose proof (get_all_points_mask_nonneg t) as H0. split.
  - assert (BI.get_all_points_mask t <> 0); [|lia].
    intros E. rewrite E, Z.bits_0 in Hv. discriminate.
  - apply bits_below; auto; [apply Z.pow_nonneg; lia|].
    intros i Hi.
    destruct (Z.testbit (BI.get_all_points_mask t) i) eqn:E; auto.
    apply Hpt in E. lia.
Qed.

(** X2.  [covers_mask] distributes over union and intersection of candidate
    masks, never adds a bit to its argument, and applying it twice changes
    nothing. *)
Theorem covers_mask_distributes (nv : nat) (mk vl a b : Z) :
  let t := BI.init nv mk vl in
  BI.covers_mask t (Z.lor a b)
  = Z.lor (BI.covers_mask t a) (BI.covers_mask t b)
  /\ BI.covers_mask t (Z.land a b)
     = Z.land (BI.covers_mask t a) (BI.covers_mask t b)
  /\ Z.land (BI.covers_mask t a) a = BI.covers_mask t a
  /\ BI.covers_mask t (BI.covers_mask t a) = BI.covers_mask t a.
Proof.
  intros t. assert (Hw : wf t) by apply wf_init.
  repeat split; apply Z.bits_inj'; intros p Hp;
    rewrite ?Z.lor_spec, ?Z.land_spec, !covers_mask_spec by auto;
    rewrite ?Z.lor_spec, ?Z.land_spec;
    destruct (Z.testbit a p), (Z.testbit b p), (BI.covers_point t p),
      (BI.mask t =? 0), ((0 <=? p) && (p <? 2 ^ Z.of_nat (BI.n t)));
    reflexivity.
Qed.

(** X3.  On a candidate mask over the [2^n] points, [covers_mask] is the
    intersection with [get_all_points_mask]. *)
Theorem covers_mask_is_intersection (nv : nat) (mk vl m : Z) :
  0 <= m < 2 ^ (2 ^ Z.of_nat nv) ->
  let t := BI.init nv mk vl in
  BI.covers_mask t m = Z.land m (BI.get_all_points_mask t).
Proof.
  intros Hm t. assert (Hw : wf t) by apply wf_init.
  apply Z.bits_inj'; intros p Hp.
  rewrite Z.land_spec, covers_mask_spec, get_all_points_mask_spec by auto.
  change (BI.n t) with nv.
  destruct (Z.testbit m p) eqn:Eb; auto. cbn [andb].
  destruct (Z.lt_ge_cases p (2 ^ Z.of_nat nv)) as [Hlt|Hge].
  - destruct (Z.leb_spec 0 p); [|lia].
    destruct (Z.ltb_spec p (2 ^ Z.of_nat nv)); [|lia].
    cbn [andb]. now rewrite orb_true_r, andb_true_r.
  - rewrite (testbit_small m _ p Hm) in Eb by lia. discriminate.
Qed.

Lemma covers_mask_is_intersection_witness :
  0 <= 77 < 2 ^ (2 ^ Z.of_nat 3)
  /\ BI.covers_mask (BI.init 3 5 4) 77
     = Z.land 77 (BI.get_all_points_mask (BI.init 3 5 4)).
Proof.
  assert (H : 0 <= 77 < 2 ^ (2 ^ Z.of_nat 3))
    by (vm_compute; split; [discriminate|reflexivity]).
  split; [exact H|]. apply (covers_mask_is_intersection 3 5 4 77 H).
Defined.

(** X4.  [__eq__] is equality of point sets: two constructed intervals over
    the same [n] compare equal exactly when they cover the same points. *)
Theorem eq_same_points (nv : nat) (ma va mb vb : Z) :
  let a := BI.init nv ma va in
  let b := BI.init nv mb vb in
  BI.eqb a b = true
  <-> forall p, 0 <= p < 2 ^ Z.of_nat nv ->
                BI.covers_point a p = BI.covers_point b p.
Proof.
  intros a b.
  assert (Ha : wf a) by apply wf_init.
  assert (Hb : wf b) by apply wf_init.
  split.
  - intros H p _. apply eqb_eq in H. now rewrite H.
  - intros H.
    assert (Hab : BI.is_subset_of a b = true)
      by (apply covers_all_is_subset; auto; intros p Hp Hc;
          rewrite <- H; auto).
    assert (Hba : BI.is_subset_of b a = true)
      by (apply covers_all_is_subset; auto; intros p Hp Hc;
          rewrite H; auto).
    destruct (is_subset_of_antisym a b Ha Hb Hab Hba) as [Hm Hv].
    unfold BI.eqb. rewrite Hm, Hv, !Z.eqb_refl.
    change (BI.n a) with nv. change (BI.n b) with nv.
    now rewrite Nat.eqb_refl.
Qed.

Lemma is_subset_of_trans (a b c : BI.t) :
  BI.is_subset_of a b = true -> BI.is_subset_of b c = true ->
  BI.is_subset_of a c = true.
Proof.
  rewrite !is_subset_of_spec. intros [Hm1 Hv1] [Hm2 Hv2]. split.
  - apply Z.bits_inj'; intros i Hi.
    apply (f_equal (fun x => Z.testbit x i)) in Hm1, Hm2.
    rewrite Z.land_spec in *. rewrite <- Hm2, <- Hm1.
    now destruct (Z.testbit (BI.mask a) i), (Z.testbit (BI.mask b) i),
      (Z.testbit (BI.mask c) i).
  - apply Z.bits_inj'; intros i Hi.
    apply (f_equal (fun x => Z.testbit x i)) in Hv1, Hm2, Hv2.
    rewrite Z.land_spec in *. rewrite <- Hv2, <- Hv1, <- Hm2.
    now destruct (Z.testbit (BI.value a) i), (Z.testbit (BI.mask b) i),
      (Z.testbit (BI.mask c) i).
Qed.

Lemma is_subset_of_refl (a : BI.t) : wf a -> BI.is_subset_of a a = true.
Proof.
  intros [_ Hv]. apply is_subset_of_spec. split; auto. apply Z.land_diag.
Qed.

(** X5.  [is_subset_of] is reflexive on constructed intervals and
    transitive. *)
Theorem is_subset_of_preorder (nv : nat) (ma va mb vb mc vc : Z) :
  let a := BI.init nv ma va in
  let b := BI.init nv mb vb in
  let c := BI.init nv mc vc in
  BI.is_subset_of a b = true -> BI.is_subset_of b c = true ->
  BI.is_subset_of a c = true /\ BI.is_subset_of a a = true.
Proof.
  intros a b c Hab Hbc. split.
  - now apply (is_subset_of_trans a b c).
  - apply is_subset_of_refl, wf_init.
Qed.

Lemma is_subset_of_preorder_witness :
  BI.is_subset_of (BI.init 3 7 5) (BI.init 3 5 5) = true
  /\ BI.is_subset_of (BI.init 3 5 5) (BI.init 3 4 4) = true
  /\ BI.is_subset_of (BI.init 3 7 5) (BI.init 3 4 4) = true.
Proof.
  split; [reflexivity|]. split; [reflexivity|].
  apply (is_subset_of_preorder 3 7 5 5 5 4 4); reflexivity.
Defined.

Lemma size_pow (a : BI.t) :
  BI.size a = 2 ^ Z.of_nat (BI.n a - popcount (BI.mask a)).
Proof. unfold BI.size. apply shiftl_1_pow. Qed.

Lemma wf_level_le (a : BI.t) : wf a -> (level a <= BI.n a)%nat.
Proof. intros Hw. pose proof (wf_popcount_mask a Hw). unfold level. lia. Qed.

Lemma dropped_is_superset (a : BI.t) (i : Z) :
  wf a -> BI.is_subset_of a (dropped a i) = true.
Proof.
  intros Hw. apply is_subset_of_spec. unfold dropped; cbn [BI.mask BI.value].
  split; apply Z.bits_inj'; intros j Hj;
    rewrite Z.land_spec, !Z.clearbit_eqb.
  - now destruct (Z.testbit (BI.mask a) j).
  - destruct (Z.testbit (BI.value a) j) eqn:E; auto.
    now rewrite (wf_value_bit a j Hw E).
Qed.

Lemma dropped_size (a : BI.t) (i : Z) :
  wf a -> 0 <= i -> Z.testbit (BI.mask a) i = true ->
  BI.size (dropped a i) = 2 * BI.size a.
Proof.
  intros Hw Hi Hb. rewrite !size_pow.
  pose proof (dropped_level a i Hw Hi Hb) as Hl.
  pose proof (wf_level_le a Hw) as Hle. unfold level in *.
  change (BI.n (dropped a i)) with (BI.n a).
  replace (BI.n a - popcount (BI.mask (dropped a i)))%nat
    with (S (BI.n a - popcount (BI.mask a))) by lia.
  rewrite Nat2Z.inj_succ, Z.pow_succ_r by lia. reflexivity.
Qed.

(** X6.  Every interval that [expand] returns is a constructed interval over
    the same [n] that contains the original, is not contained in it, has one
    literal less and twice its size. *)
Theorem expand_generalizes (nv : nat) (mk vl allowed : Z) (l : list BI.t)
    (e : BI.t) :
  let t := BI.init nv mk vl in
  BI.expand t allowed = Some l -> In e l ->
  e = BI.init nv (BI.mask e) (BI.value e)
  /\ BI.is_subset_of t e = true
  /\ BI.is_subset_of e t = false
  /\ S (popcount (BI.mask e)) = popcount (BI.mask t)
  /\ BI.size e = 2 * BI.size t.
Proof.
  intros t He Hin. assert (Hw : wf t) by apply wf_init.
  apply (expand_In t allowed l e Hw He) in Hin as (i & Hi & Hb & -> & _).
  pose proof (dropped_wf t i Hw Hi Hb) as Hwd.
  pose proof (dropped_level t i Hw Hi Hb) as Hl.
  split; [|split; [|split; [|split]]].
  - destruct Hwd as [H1 H2]. unfold BI.init. rewrite full_mask_ones.
    change (BI.n (dropped t i)) with nv in H1. rewrite H1, H2. reflexivity.
  - now apply dropped_is_superset.
  - destruct (BI.is_subset_of (dropped t i) t) eqn:E; auto.
    destruct (is_subset_of_antisym t (dropped t i) Hw Hwd
                (dropped_is_superset t i Hw) E) as [Hm _].
    unfold level in Hl. rewrite Hm in Hl. lia.
  - exact Hl.
  - now apply dropped_size.
Qed.

Lemma expand_generalizes_witness :
  BI.expand (BI.init 3 7 5) (-1)
  = Some [BI.mk 3 6 4; BI.mk 3 5 5; BI.mk 3 3 1]
  /\ In (BI.mk 3 5 5) [BI.mk 3 6 4; BI.mk 3 5 5; BI.mk 3 3 1]
  /\ BI.size (BI.mk 3 5 5) = 2 * BI.size (BI.init 3 7 5).
Proof.
  assert (He : BI.expand (BI.init 3 7 5) (-1)
               = Some [BI.mk 3 6 4; BI.mk 3 5 5; BI.mk 3 3 1])
    by reflexivity.
  assert (Hin : In (BI.mk 3 5 5) [BI.mk 3 6 4; BI.mk 3 5 5; BI.mk 3 3 1])
    by (right; left; reflexivity).
  split; [exact He|]. split; [exact Hin|].
  apply (expand_generalizes 3 7 5 (-1) _ _ He Hin).
Defined.

(** *** The size of an interval *)

Lemma popcount_setbit (r k : Z) :
  0 <= r -> 0 <= k -> Z.testbit r k = false ->
  popcount (Z.lor r (2 ^ k)) = S (popcount r).
Proof.
  intros Hr Hk Hb.
  assert (Hx : 0 <= Z.lor r (2 ^ k))
    by (apply Z.lor_nonneg; split; auto; apply Z.pow_nonneg; lia).
  rewrite <- (popcount_clearbit (Z.lor r (2 ^ k)) k Hx Hk).
  - do 2 f_equal. apply Z.bits_inj'; intros j Hj.
    rewrite Z.clearbit_eqb, Z.lor_spec, Z.pow2_bits_eqb by lia.
    destruct (Z.eqb_spec k j) as [<-|Hne].
    + now rewrite Hb.
    + now rewrite orb_false_r, andb_true_r.
  - now rewrite Z.lor_spec, Z.pow2_bits_true, orb_true_r.
Qed.

Lemma fold_set_bits_popcount (c : Z -> bool) (g : Z -> Z) (l : list Z) :
  forall r0,
    0 <= r0 -> NoDup (map g l) ->
    (forall x, In x l ->
               c x = true /\ 0 <= g x /\ Z.testbit r0 (g x) = false) ->
    let r := fold_left
               (fun r x => if c x then Z.lor r (Z.shiftl 1 (g x)) else r)
               l r0 in
    0 <= r /\ popcount r = (popcount r0 + length l)%nat.
Proof.
  induction l as [|x l IH]; intros r0 H0 Hnd Hall; cbn [fold_left length].
  - split; auto.
  - destruct (Hall x (or_introl eq_refl)) as (Hc & Hg & Hb).
    rewrite Hc, Z.shiftl_1_l. inversion Hnd as [|? ? Hx Hnd']; subst.
    destruct (IH (Z.lor r0 (2 ^ g x))) as [Hr Hp]; auto.
    + apply Z.lor_nonneg. split; auto. apply Z.pow_nonneg. lia.
    + intros y Hy. destruct (Hall y (or_intror Hy)) as (Hcy & Hgy & Hby).
      repeat split; auto.
      rewrite Z.lor_spec, Hby, Z.pow2_bits_eqb by auto.
      destruct (Z.eqb_spec (g x) (g y)) as [E|]; auto.
      exfalso. apply Hx. rewrite E. now apply in_map.
    + split; auto. rewrite Hp, popcount_setbit by auto. lia.
Qed.

Lemma assemble_injective_pos (p : positive) :
  forall (k : nat) (v v' : Z),
    (pos_popcount p <= k)%nat ->
    0 <= v < 2 ^ Z.of_nat (pos_popcount p) ->
    0 <= v' < 2 ^ Z.of_nat (pos_popcount p) ->
    BI.assemble k 0 (Zpos p) v = BI.assemble k 0 (Zpos p) v' -> v = v'.
Proof.
  induction p as [p IH|p IH|]; intros k v v' Hk Hv Hv' He.
  - destruct k as [|k]; [simpl in Hk; lia|].
    change (Z.pos p~1) with (2 * Z.pos p + 1) in He.
    rewrite !assemble_odd in He by lia.
    apply double_plus_inj in He as [He Ho].
    cbn [pos_popcount] in Hv, Hv'.
    rewrite Nat2Z.inj_succ, Z.pow_succ_r in Hv, Hv' by lia.
    pose proof (binary_split v) as Hs. pose proof (binary_split v') as Hs'.
    rewrite <- !Z.div2_spec in He.
    assert (Z.div2 v = Z.div2 v').
    { apply (IH k); auto.
      - simpl in Hk. lia.
      - destruct (Z.odd v); cbn [Z.b2z] in Hs; lia.
      - destruct (Z.odd v'); cbn [Z.b2z] in Hs'; lia. }
    congruence.
  - change (Z.pos p~0) with (2 * Z.pos p) in He.
    rewrite !assemble_double in He. apply (IH k); auto. lia.
  - destruct k as [|k]; [simpl in Hk; lia|].
    change (BI.assemble (S k) 0 1 v)
      with (BI.assemble (S k) 0 (2 * 0 + 1) v) in He.
    change (BI.assemble (S k) 0 1 v')
      with (BI.assemble (S k) 0 (2 * 0 + 1) v') in He.
    rewrite !assemble_odd, !assemble_zero_free in He by lia.
    pose proof (binary_split v) as Hs. pose proof (binary_split v') as Hs'.
    cbn [pos_popcount] in Hv, Hv'. change (2 ^ Z.of_nat 1) with 2 in *.
    destruct (Z.odd v), (Z.odd v'); cbn [Z.b2z] in *; lia.
Qed.

Lemma assemble_injective (F : Z) (k : nat) (v v' : Z) :
  0 <= F -> (popcount F <= k)%nat ->
  0 <= v < 2 ^ Z.of_nat (popcount F) ->
  0 <= v' < 2 ^ Z.of_nat (popcount F) ->
  BI.assemble k 0 F v = BI.assemble k 0 F v' -> v = v'.
Proof.
  intros HF Hk Hv Hv' He. destruct F as [|p|p]; try lia.
  - simpl in Hv, Hv'. lia.
  - now apply (assemble_injective_pos p k).
Qed.

Lemma NoDup_map_in {X Y : Type} (f : X -> Y) (l : list X) :
  (forall x y, In x l -> In y l -> f x = f y -> x = y) ->
  NoDup l -> NoDup (map f l).
Proof.
  intros Hinj Hnd. induction Hnd as [|x l Hx Hnd IH]; cbn; constructor.
  - intros Hin. apply in_map_iff in Hin as (y & Hy & Hin).
    apply Hx. rewrite <- (Hinj y x); auto; [now right|now left].
  - apply IH. intros a b Ha Hb. apply Hinj; now right.
Qed.

Lemma range_NoDup (k : Z) : NoDup (range k).
Proof.
  unfold range. apply NoDup_map_in; [|apply seq_NoDup].
  intros x y _ _ H. lia.
Qed.

Lemma range_length (k : Z) : length (range k) = Z.to_nat k.
Proof. unfold range. now rewrite length_map, length_seq. Qed.

(** X7.  [size] is the number of points the interval covers: the number of
    set bits of [get_all_points_mask]; it lies between [1] and [2^n]. *)
Theorem size_counts_points (nv : nat) (mk vl : Z) :
  let t := BI.init nv mk vl in
  Z.of_nat (popcount (BI.get_all_points_mask t)) = BI.size t
  /\ 1 <= BI.size t <= 2 ^ Z.of_nat nv.
Proof.
  intros t. assert (Hw : wf t) by apply wf_init.
  split.
  - rewrite size_pow. fold (BI.free_count t).
    unfold BI.get_all_points_mask.
    destruct (Z.eqb_spec (BI.mask t) 0) as [H0|H0].
    + change (Z.shiftl 1 (Z.shiftl 1 (Z.of_nat (BI.n t))) - 1)
        with (Z.ones (Z.shiftl 1 (Z.of_nat (BI.n t)))).
      rewrite shiftl_1_pow.
      assert (Hp : 0 <= 2 ^ Z.of_nat (BI.n t)) by (apply Z.pow_nonneg; lia).
      rewrite <- (Z2Nat.id _ Hp) at 1. rewrite popcount_ones, Z2Nat.id by auto.
      unfold BI.free_count. rewrite H0. simpl popcount.
      now rewrite Nat.sub_0_r.
    + set (g := fun fv => BI.assemble (BI.free_count t) (BI.value t)
                                      (BI.free_vars t) fv).
      destruct (fold_set_bits_popcount
                  (fun fv => g fv <? Z.shiftl 1 (Z.of_nat (BI.n t))) g
                  (range (Z.shiftl 1 (Z.of_nat (BI.free_count t)))) 0)
        as [_ Hpc]; [lia| | |].
      * apply NoDup_map_in; [|apply range_NoDup].
        intros x y Hx Hy He. apply in_range in Hx, Hy.
        rewrite shiftl_1_pow, <- wf_free_count in Hx, Hy by auto.
        unfold g in He. rewrite (assemble_lor _ _ _ x) in He.
        rewrite (assemble_lor _ _ _ y) in He.
        apply (assemble_injective (BI.free_vars t) (BI.free_count t));
          auto using free_vars_nonneg.
        { rewrite wf_free_count; auto. }
        apply Z.bits_inj'; intros i Hi.
        apply (f_equal (fun z => Z.testbit z i)) in He.
        rewrite !Z.lor_spec in He.
        destruct (Z.testbit (BI.value t) i) eqn:Ev; auto.
        apply wf_value_bit in Ev; auto.
        assert (Hno : forall z,
                  Z.testbit (BI.assemble (BI.free_count t) 0
                                         (BI.free_vars t) z) i = false).
        { intros z. destruct (Z.testbit (BI.assemble _ _ _ z) i) eqn:E; auto.
          apply assemble_subset in E as [E|E].
          - now rewrite Z.bits_0 in E.
          - rewrite free_vars_bit, Ev in E by auto.
            destruct (wf_mask_bit t i Hw Ev) as [_ Hlt].
            apply Z.ltb_lt in Hlt. rewrite Hlt in E. discriminate. }
        now rewrite !Hno.
      * intros x Hx.
        destruct (proj1 (points_enumerated t (g x) Hw)) as [Hr _];
          [exists x; auto|].
        rewrite shiftl_1_pow. split; [apply Z.ltb_lt; lia|].
        split; [lia|apply Z.bits_0].
      * fold g. change (fun result free_val =>
                          if g free_val <? Z.shiftl 1 (Z.of_nat (BI.n t))
                          then Z.lor result (Z.shiftl 1 (g free_val))
                          else result)
          with (fun r x => if g x <? Z.shiftl 1 (Z.of_nat (BI.n t))
                           then Z.lor r (Z.shiftl 1 (g x)) else r).
        rewrite Hpc, range_length, shiftl_1_pow. simpl popcount.
        rewrite Nat.add_0_l, Z2Nat.id; auto. apply Z.pow_nonneg. lia.
  - rewrite size_pow. change (BI.n t) with nv.
    split.
    + assert (0 < 2 ^ Z.of_nat (nv - popcount (BI.mask t)))
        by (apply Z.pow_pos_nonneg; lia). lia.
    + apply Z.pow_le_mono_r; lia.
Qed.

(** ** PartialBooleanFunction *)

(** X8.  The three masks of a constructed function partition the points:
    [ones_mask], [dcares_mask] and [zeros_mask] are pairwise disjoint and
    their union is the full mask [(1 << 2^n) - 1]. *)
Theorem masks_partition (nv : nat) (ones dcares : list Z) (f : PBF.t) :
  PBF.init nv ones dcares = PBF.Constructed f ->
  Z.land (PBF.ones_mask f) (PBF.dcares_mask f) = 0
  /\ Z.land (PBF.ones_mask f) (PBF.zeros_mask f) = 0
  /\ Z.land (PBF.dcares_mask f) (PBF.zeros_mask f) = 0
  /\ Z.lor (Z.lor (PBF.ones_mask f) (PBF.dcares_mask f)) (PBF.zeros_mask f)
     = Z.shiftl 1 (Z.shiftl 1 (Z.of_nat nv)) - 1
  /\ PBF.significant_mask f = Z.lor (PBF.ones_mask f) (PBF.dcares_mask f).
Proof.
  intros Hinit.
  destruct (init_constructed nv ones dcares f Hinit) as (Hok & Hn & _).
  pose proof Hok as (Ht & Ho & Hd & Hdis & Hs & Hz).
  subst nv. rewrite Ht in Ho, Hd.
  assert (Hob : forall p, 0 <= p -> Z.testbit (PBF.ones_mask f) p = true ->
                          p < 2 ^ Z.of_nat (PBF.n f)).
  { intros p Hp Hb. destruct (Z.lt_ge_cases p (2 ^ Z.of_nat (PBF.n f))); auto.
    rewrite (testbit_small _ _ p Ho) in Hb by lia. discriminate. }
  assert (Hdb : forall p, 0 <= p -> Z.testbit (PBF.dcares_mask f) p = true ->
                          p < 2 ^ Z.of_nat (PBF.n f)).
  { intros p Hp Hb. destruct (Z.lt_ge_cases p (2 ^ Z.of_nat (PBF.n f))); auto.
    rewrite (testbit_small _ _ p Hd) in Hb by lia. discriminate. }
  assert (Hdisb : forall p, Z.testbit (PBF.ones_mask f) p = true ->
                            Z.testbit (PBF.dcares_mask f) p = true -> False).
  { intros p H1 H2.
    assert (Z.testbit (Z.land (PBF.ones_mask f) (PBF.dcares_mask f)) p
            = true) by (rewrite Z.land_spec, H1, H2; reflexivity).
    rewrite Hdis, Z.bits_0 in H. discriminate. }
  split; auto.
  assert (H2n : 0 <= 2 ^ Z.of_nat (PBF.n f)) by (apply Z.pow_nonneg; lia).
  change (Z.shiftl 1 (Z.shiftl 1 (Z.of_nat (PBF.n f))) - 1)
    with (Z.ones (Z.shiftl 1 (Z.of_nat (PBF.n f)))).
  rewrite shiftl_1_pow.
  repeat split; auto; apply Z.bits_inj'; intros p Hp;
    rewrite ?Z.lor_spec, ?Z.land_spec, ?Z.bits_0, ?zeros_bit,
      ?Z.testbit_ones, ?Hs, ?Z.lor_spec by auto;
    destruct (Z.testbit (PBF.ones_mask f) p) eqn:Eo;
    destruct (Z.testbit (PBF.dcares_mask f) p) eqn:Ed;
    try (exfalso; apply (Hdisb p Eo Ed));
    try (pose proof (Hob p Hp Eo)); try (pose proof (Hdb p Hp Ed));
    destruct (Z.leb_spec 0 p); try lia;
    destruct (Z.ltb_spec p (2 ^ Z.of_nat (PBF.n f))); try lia;
    reflexivity.
Qed.

Lemma masks_partition_witness :
  PBF.init 3 [0; 1; 2; 3; 6] [4; 5]
  = PBF.Constructed (PBF.mk 3 8 79 48 127 128)
  /\ Z.lor (Z.lor 79 48) 128 = Z.shiftl 1 (Z.shiftl 1 (Z.of_nat 3)) - 1.
Proof.
  split; [reflexivity|].
  apply (masks_partition 3 [0; 1; 2; 3; 6] [4; 5]
           (PBF.mk 3 8 79 48 127 128)).
  reflexivity.
Defined.

Lemma collect_ext (total : Z) (l l' : list Z) :
  (forall x, 0 <= x < total -> (In x l <-> In x l')) ->
  PBF.collect total l = PBF.collect total l'.
Proof.
  intros H. apply Z.bits_inj'; intros p Hp.
  apply eq_true_iff_eq. rewrite !collect_bit.
  split; intros [Hin Hr]; split; auto; now apply (H p Hr).
Qed.

(** X9.  Construction depends only on which in-range indices each list
    holds: order, repetitions and out-of-range entries of [ones] and [dcares]
    change neither the outcome of the constructor nor the formula of a
    run. *)
Theorem init_ignores_order (nv : nat) (ones ones' dcares dcares' : list Z) :
  (forall x, 0 <= x < 2 ^ Z.of_nat nv -> (In x ones <-> In x ones')) ->
  (forall x, 0 <= x < 2 ^ Z.of_nat nv -> (In x dcares <-> In x dcares')) ->
  PBF.init nv ones dcares = PBF.init nv ones' dcares'
  /\ run nv ones dcares = run nv ones' dcares'.
Proof.
  intros Ho Hd.
  assert (E : PBF.init nv ones dcares = PBF.init nv ones' dcares').
  { unfold PBF.init. rewrite shiftl_1_pow.
    now rewrite (collect_ext _ ones ones' Ho),
      (collect_ext _ dcares dcares' Hd). }
  split; auto. unfold run. now rewrite E.
Qed.

Lemma init_ignores_order_witness :
  (forall x, 0 <= x < 2 ^ Z.of_nat 2 ->
             (In x [0; 3] <-> In x [3; 0; 0; 9]))
  /\ (forall x, 0 <= x < 2 ^ Z.of_nat 2 -> (In x [1] <-> In x [-4; 1]))
  /\ run 2 [0; 3] [1] = run 2 [3; 0; 0; 9] [-4; 1].
Proof.
  assert (H1 : forall x, 0 <= x < 2 ^ Z.of_nat 2 ->
                         (In x [0; 3] <-> In x [3; 0; 0; 9]))
    by (intros x Hx; simpl in *; lia).
  assert (H2 : forall x, 0 <= x < 2 ^ Z.of_nat 2 ->
                         (In x [1] <-> In x [-4; 1]))
    by (intros x Hx; simpl in *; lia).
  split; [exact H1|]. split; [exact H2|].
  apply (init_ignores_order 2 [0; 3] [3; 0; 0; 9] [1] [-4; 1] H1 H2).
Defined.

(** X10.  [_mask_to_set_str] reads back what the constructor stored: for the
    [ones_mask] of a constructed function the listed values are the decimal
    numerals of the in-range indices of [ones], each once and in ascending
    order (the string shows the first ten); the result is the empty-set sign
    exactly when [ones] has no in-range index.  The same holds for [dcares]
    and [dcares_mask]. *)
Theorem mask_to_set_str_roundtrip (nv : nat) (ones dcares : list Z)
    (f : PBF.t) :
  PBF.init nv ones dcares = PBF.Constructed f ->
  let listing (l : list Z) :=
    map (fun i => BI.decimal (Z.to_nat i))
        (filter (fun i => existsb (Z.eqb i) l) (range (2 ^ Z.of_nat nv))) in
  mask_values f (PBF.ones_mask f) = listing ones
  /\ mask_values f (PBF.dcares_mask f) = listing dcares
  /\ (_mask_to_set_str f (PBF.ones_mask f) = "∅"%string
      <-> forall x, In x ones -> ~ 0 <= x < 2 ^ Z.of_nat nv)
  /\ (_mask_to_set_str f (PBF.dcares_mask f) = "∅"%string
      <-> forall x, In x dcares -> ~ 0 <= x < 2 ^ Z.of_nat nv).
Proof.
  intros Hinit listing.
  destruct (init_constructed nv ones dcares f Hinit)
    as (Hok & Hn & Ho & Hd).
  destruct Hok as (Ht & _). subst nv.
  assert (Hval : forall l,
            mask_values f (PBF.collect (2 ^ Z.of_nat (PBF.n f)) l)
            = listing l).
  { intros l. unfold mask_values, listing.
    rewrite (fold_left_filter_map
               (fun i => truthy (Z.land (PBF.collect _ l) (Z.shiftl 1 i)))
               (fun i => BI.decimal (Z.to_nat i))).
    cbn [app]. f_equal. rewrite Ht. apply filter_ext_in.
    intros i Hi. apply in_range in Hi.
    rewrite Z.shiftl_1_l, truthy_land_pow2 by lia.
    apply eq_true_iff_eq. rewrite collect_bit, existsb_exists. split.
    - intros [Hin _]. exists i. split; auto. apply Z.eqb_refl.
    - intros (y & Hy & E). apply Z.eqb_eq in E. subst y. auto. }
  assert (Hempty : forall l,
            _mask_to_set_str f (PBF.collect (2 ^ Z.of_nat (PBF.n f)) l)
            = "∅"%string
            <-> forall x, In x l -> ~ 0 <= x < 2 ^ Z.of_nat (PBF.n f)).
  { intros l. unfold _mask_to_set_str.
    destruct (Z.eqb_spec (PBF.collect (2 ^ Z.of_nat (PBF.n f)) l) 0)
      as [E|E].
    - split; auto. intros _ x Hin Hr.
      assert (Z.testbit (PBF.collect (2 ^ Z.of_nat (PBF.n f)) l) x = true)
        by (apply collect_bit; auto).
      rewrite E, Z.bits_0 in H. discriminate.
    - split; [discriminate|]. intros Hout. exfalso. apply E.
      apply zero_bits. intros p _.
      destruct (Z.testbit (PBF.collect _ l) p) eqn:Eb; auto.
      apply collect_bit in Eb as [Hin Hr]. now apply Hout in Hin. }
  rewrite Ho, Hd. repeat split; auto; apply Hempty.
Qed.

Lemma mask_to_set_str_roundtrip_witness :
  PBF.init 2 [3; 0; 0; 9] [-4; 1]
  = PBF.Constructed (PBF.mk 2 4 9 2 11 4)
  /\ mask_values (PBF.mk 2 4 9 2 11 4) 9 = ["0"; "3"]%string
  /\ _mask_to_set_str (PBF.mk 2 4 9 2 11 4) 9 = "{0, 3}"%string.
Proof.
  split; [reflexivity|]. split; [|reflexivity].
  apply (mask_to_set_str_roundtrip 2 [3; 0; 0; 9] [-4; 1]
           (PBF.mk 2 4 9 2 11 4)).
  reflexivity.
Defined.

(** ** The search finds every prime implicant *)

Lemma valid_neq_mask (nv : nat) (a b : BI.t) :
  valid nv a -> valid nv b -> BI.is_subset_of a b = true -> a <> b ->
  BI.mask a <> BI.mask b.
Proof.
  intros [Ha Hna] [Hb Hnb] Hsub Hne Heq. apply Hne.
  apply is_subset_of_spec in Hsub as [_ Hv].
  destruct a as [na ma va], b as [nb mb vb]; cbn in *. subst.
  f_equal. destruct Ha as [_ Ha]. cbn in Ha. congruence.
Qed.

Lemma strict_subset_bit (nv : nat) (a b : BI.t) :
  valid nv a -> valid nv b -> BI.is_subset_of a b = true -> a <> b ->
  exists i, 0 <= i /\ Z.testbit (BI.mask a) i = true
            /\ Z.testbit (BI.mask b) i = false.
Proof.
  intros Ha Hb Hsub Hne.
  pose proof (valid_neq_mask nv a b Ha Hb Hsub Hne) as Hm.
  pose proof (wf_mask_range a (proj1 Ha)) as Hra.
  pose proof (wf_mask_range b (proj1 Hb)) as Hrb.
  destruct (positive_has_bit (Z.lxor (BI.mask a) (BI.mask b)))
    as (i & Hi & Hbit).
  - apply Z.lxor_nonneg. lia.
  - intros H0. apply Z.lxor_eq in H0. contradiction.
  - exists i. split; auto.
    apply is_subset_of_spec in Hsub as [Hs _].
    apply (f_equal (fun x => Z.testbit x i)) in Hs.
    rewrite Z.land_spec in Hs. rewrite Z.lxor_spec in Hbit.
    destruct (Z.testbit (BI.mask a) i), (Z.testbit (BI.mask b) i);
      auto; discriminate.
Qed.

Lemma dropped_below (a b : BI.t) (i : Z) :
  BI.is_subset_of a b = true -> Z.testbit (BI.mask b) i = false ->
  BI.is_subset_of (dropped a i) b = true.
Proof.
  rewrite !is_subset_of_spec. unfold dropped; cbn [BI.mask BI.value].
  intros [Hm Hv] Hb. split; apply Z.bits_inj'; intros j Hj.
  - apply (f_equal (fun x => Z.testbit x j)) in Hm.
    rewrite Z.land_spec in *. rewrite Z.clearbit_eqb.
    destruct (Z.eqb_spec i j) as [<-|Hne].
    + now rewrite Hb, andb_false_r.
    + now rewrite andb_true_r.
  - apply (f_equal (fun x => Z.testbit x j)) in Hv.
    rewrite Z.land_spec in *. rewrite Z.clearbit_eqb.
    destruct (Z.eqb_spec i j) as [<-|Hne].
    + rewrite Hb, andb_false_r in *. auto.
    + now rewrite andb_true_r.
Qed.

Lemma inside_subset (a b : BI.t) (sig : Z) :
  BI.n a = BI.n b -> BI.is_subset_of a b = true ->
  inside b sig -> inside a sig.
Proof.
  intros Hn Hsub Hb p Hp Hc. apply Hb; [now rewrite <- Hn|].
  now apply (is_subset_of_covers a b).
Qed.

Lemma expansion_toward (nv : nat) (sig : Z) (c a : BI.t)
    (exps : list BI.t) :
  valid nv c -> implicant nv sig a -> BI.is_subset_of c a = true ->
  c <> a -> BI.expand c sig = Some exps ->
  exists e, In e exps /\ BI.is_subset_of e a = true
            /\ S (level e) = level c.
Proof.
  intros Hc [Ha Hia] Hsub Hne He.
  destruct (strict_subset_bit nv c a Hc Ha Hsub Hne) as (i & Hi & Hbc & Hba).
  destruct Hc as [Hwc Hnc]. destruct Ha as [Hwa Hna].
  pose proof (dropped_wf c i Hwc Hi Hbc) as Hwd.
  pose proof (dropped_below c a i Hsub Hba) as Hda.
  exists (dropped c i). split; [|split; auto using dropped_level].
  apply (expand_In c sig exps (dropped c i) Hwc He).
  exists i. repeat split; auto.
  apply (admissible_spec c (dropped c i) sig Hwc Hwd eq_refl).
  intros p Hp Hcp _.
  apply (inside_subset (dropped c i) a sig); auto.
  cbn [dropped BI.n]. congruence.
Qed.

Section SearchExplores.

Variable nv : nat.
Variables sig ones : Z.

Lemma awaiting_weaken (s : MIM.search) (a : BI.t) (k k' : nat) :
  (k <= k')%nat -> awaiting s a k -> awaiting s a k'.
Proof.
  intros Hk (q & H1 & H2 & H3 & H4). exists q. repeat split; auto. lia.
Qed.

(** A round that visits [c] loses no implicant as soon as the implicants
    above [c] are accounted for. *)
Lemma explores_after (s s' : MIM.search) (c : BI.t) (rest : list BI.t) :
  MIM.queue s = c :: rest ->
  MIM.visited s' = c :: MIM.visited s ->
  incl rest (MIM.queue s') ->
  incl (MIM.max_intervals s) (MIM.max_intervals s') ->
  (forall a, implicant nv sig a -> BI.is_subset_of c a = true ->
             In a (MIM.visited s') \/ awaiting s' a (level c)) ->
  (BI.expand c sig = Some [] -> BI.covers_mask c ones <> 0 ->
   In c (MIM.max_intervals s')) ->
  search_explores nv sig ones s -> search_explores nv sig ones s'.
Proof.
  intros Hq Hvis Hrest Hmax Hcur Hrec (HJ & HK & HM).
  assert (Htransfer : forall a k, implicant nv sig a -> awaiting s a k ->
            In a (MIM.visited s') \/ awaiting s' a k).
  { intros a k Ha (q & Hin & Hnv & Hsub & Hl).
    destruct (interval_eq_dec q c) as [->|Hne].
    - destruct (Hcur a Ha Hsub) as [H|H]; auto.
      right. apply (awaiting_weaken s' a (level c)); auto. lia.
    - right. exists q. rewrite Hvis. repeat split; auto.
      + apply Hrest. rewrite Hq in Hin. destruct Hin; congruence.
      + intros [H|H]; auto. }
  split; [|split].
  - intros a Ha. destruct (HJ a Ha) as [H|[k H]].
    + left. rewrite Hvis. now right.
    + destruct (Htransfer a k Ha H); eauto.
  - intros v a Hv Ha Hsub. rewrite Hvis in Hv. destruct Hv as [<-|Hv]; auto.
    destruct (HK v a Hv Ha Hsub) as [H|H]; auto.
    left. rewrite Hvis. now right.
  - intros v Hv He Hc. rewrite Hvis in Hv. destruct Hv as [<-|Hv]; auto.
Qed.

Lemma step_explores (s s' : MIM.search) :
  search_shape nv sig ones s -> search_explores nv sig ones s ->
  MIM.bfs_step sig ones s = Some (Some s') ->
  search_explores nv sig ones s'.
Proof.
  intros (Hall & _ & _) Hex Hs.
  apply bfs_step_cases in Hs as (c & rest & Hq & Hcase).
  assert (Hc : valid nv c)
    by (apply Hall; unfold stored; rewrite Hq; now left).
  destruct Hcase as [[Hv ->]|(Hnv & exps & He & Hcase)].
  - destruct Hex as (HJ & HK & HM).
    assert (Htransfer : forall a k, awaiting s a k ->
              awaiting (MIM.mk_search rest (MIM.visited s)
                                      (MIM.max_intervals s)) a k).
    { intros a k (q & Hin & Hnq & Hsq & Hl). exists q.
      cbn [MIM.queue MIM.visited]. repeat split; auto.
      rewrite Hq in Hin. destruct Hin as [<-|Hin]; [contradiction|auto]. }
    split; [|split]; cbn [MIM.visited MIM.max_intervals]; auto.
    + intros a Ha. destruct (HJ a Ha) as [H|[k H]]; eauto.
    + intros v a Hv' Ha Hsub. destruct (HK v a Hv' Ha Hsub); auto.
  - destruct Hcase as [[Hne ->]|[(-> & Hcov & ->)|(-> & Hcov & ->)]].
    + apply (explores_after s _ c rest); auto;
        cbn [MIM.queue MIM.visited MIM.max_intervals].
      * apply incl_appl, incl_refl.
      * apply incl_refl.
      * intros a Ha Hsub.
        destruct (interval_eq_dec c a) as [E|Hca];
          [left; now left|].
        destruct (expansion_toward nv sig c a exps Hc Ha Hsub Hca He)
          as (e & Hin & Hea & Hle).
        destruct (BI.member e (c :: MIM.visited s)) eqn:Em.
        -- apply member_In in Em. destruct Em as [<-|Em]; [lia|].
           destruct Hex as (_ & HK & _).
           destruct (HK e a Em Ha Hea)
             as [H|(q & Hqin & Hnq & Hqa & Hl)].
           ++ left. now right.
           ++ right. exists q.
              assert (q <> c) by (intros ->; lia).
              repeat split; auto; try lia.
              ** rewrite Hq in Hqin. apply in_app_iff. left.
                 destruct Hqin; congruence.
              ** intros [H'|H']; auto.
        -- right. exists e. repeat split; auto; try lia.
           ++ apply in_app_iff. right. apply filter_In. split; auto.
              now rewrite Em.
           ++ now apply member_not_In.
      * intros He0. rewrite He in He0. injection He0 as ->.
        congruence.
    + apply (explores_after s _ c rest); auto;
        cbn [MIM.queue MIM.visited MIM.max_intervals].
      * apply incl_refl.
      * apply incl_appl, incl_refl.
      * intros a Ha Hsub.
        destruct (interval_eq_dec c a) as [E|Hca];
          [left; now left|].
        destruct (expansion_toward nv sig c a [] Hc Ha Hsub Hca He)
          as (e & [] & _).
      * intros _ _. apply in_app_iff. right. now left.
    + apply (explores_after s _ c rest); auto;
        cbn [MIM.queue MIM.visited MIM.max_intervals].
      * apply incl_refl.
      * apply incl_refl.
      * intros a Ha Hsub.
        destruct (interval_eq_dec c a) as [E|Hca];
          [left; now left|].
        destruct (expansion_toward nv sig c a [] Hc Ha Hsub Hca He)
          as (e & [] & _).
      * intros _ Hne. contradiction.
Qed.

Lemma reachable_explores (s s' : MIM.search) :
  search_shape nv sig ones s -> search_explores nv sig ones s ->
  reachable sig ones s s' ->
  search_explores nv sig ones s'.
Proof.
  intros Hsh Hc Hr. induction Hr as [|s1 s2 Hr IH Hs]; auto.
  apply (step_explores s1 s2); auto.
  apply (reachable_shape nv sig ones s s1); auto.
Qed.

Lemma explores_final (s : MIM.search) (a : BI.t) :
  search_explores nv sig ones s -> MIM.queue s = [] ->
  implicant nv sig a -> In a (MIM.visited s).
Proof.
  intros (HJ & _) Hq Ha. destruct (HJ a Ha) as [H|[k (q & Hin & _)]]; auto.
  rewrite Hq in Hin. destruct Hin.
Qed.

End SearchExplores.

Lemma seed_In (f : PBF.t) (start : list BI.t) (a : BI.t) :
  func_ok f ->
  MIM.start_intervals (PBF.n f) (PBF.significant_mask f) = Some start ->
  (In a start
   <-> exists i, Z.testbit (PBF.significant_mask f) i = true
                 /\ a = BI.mk (PBF.n f) (Z.ones (Z.of_nat (PBF.n f))) i).
Proof.
  intros Hok Hst.
  destruct (func_ok_significant f Hok) as (Hs0 & Hsr & _).
  rewrite start_intervals_spec in Hst by auto. injection Hst as <-.
  rewrite in_map_iff. split.
  - intros (b & <- & Hb). apply bits_of_spec in Hb as (i & Hi & -> & Hbit);
      auto.
    exists i. rewrite bit_length_pow2 by auto. split; auto.
    apply seed_fields. auto.
  - intros (i & Hbit & ->). exists (2 ^ i).
    pose proof (Hsr i Hbit) as Hi.
    rewrite bit_length_pow2 by lia. split; [now apply seed_fields|].
    apply bits_of_spec; auto. exists i. repeat split; auto; lia.
Qed.

Lemma initial_explores (f : PBF.t) (start : list BI.t) :
  func_ok f ->
  MIM.start_intervals (PBF.n f) (PBF.significant_mask f) = Some start ->
  search_explores (PBF.n f) (PBF.significant_mask f) (PBF.ones_mask f)
                  (MIM.mk_search start [] []).
Proof.
  intros Hok Hst. split; [|split]; cbn [MIM.visited].
  2:{ intros v a []. }
  - intros a [[Hw Hn] Hin]. right.
    destruct (wf_covers_value a Hw) as [Hr Hc].
    pose proof (Hin _ Hr Hc) as Hbit.
    set (q := BI.mk (PBF.n f) (Z.ones (Z.of_nat (PBF.n f))) (BI.value a)).
    exists (S (level q)), q. cbn [MIM.queue MIM.visited].
    split; [|split; [intros []|split; [|lia]]].
    + apply (seed_In f start q Hok Hst). exists (BI.value a). auto.
    + apply is_subset_of_spec. unfold q; cbn [BI.mask BI.value].
      destruct Hw as [Hm Hv]. rewrite <- Hn. split; auto.
      now rewrite Z.land_comm.
  - intros v [].
Qed.

Lemma remove_subsets_antichain (l : list BI.t) :
  NoDup l ->
  (forall x y, In x l -> In y l -> x <> y -> BI.is_subset_of x y = false) ->
  forall x, In x (MIM.remove_subsets l) <-> In x l.
Proof.
  intros Hnd Hanti x. split; [apply remove_subsets_incl|].
  intros Hin. apply remove_subsets_In.
  destruct (In_nth_error _ _ Hin) as [i Hi]. exists i. split; auto.
  intros j y Hj Hne. apply Hanti; auto.
  - eapply nth_error_In; eauto.
  - intros ->. apply Hne.
    apply (proj1 (NoDup_nth_error l) Hnd); [|congruence].
    apply nth_error_Some. congruence.
Qed.

Lemma insert_sorted_descending (x : BI.t) (l : list BI.t) :
  descending l -> descending (MIM.insert_sorted x l).
Proof.
  induction l as [|y r IH]; cbn [MIM.insert_sorted descending].
  - intros _. split; auto. intros y [].
  - intros [Hy Hr]. unfold BI.lt.
    destruct (Z.ltb_spec (BI.size x) (BI.size y)) as [Hlt|Hge];
      cbn [descending].
    + split; auto. intros z Hz. apply insert_sorted_In in Hz as [->|Hz].
      * lia.
      * now apply Hy.
    + split; [|split; auto]. intros z [<-|Hz]; auto.
      specialize (Hy z Hz). lia.
Qed.

Lemma sort_descending (l : list BI.t) : descending (MIM.sort l).
Proof.
  unfold MIM.sort. induction l as [|x l IH]; cbn; auto.
  now apply insert_sorted_descending.
Qed.

(** What the three loops of [find_all_max_intervals] return. *)
Lemma search_max_intervals_primes (f : PBF.t) :
  func_ok f ->
  exists l,
    MIM.search_max_intervals f (PBF.n f) = Some l
    /\ maximal_set f l
    /\ descending l
    /\ forall m, In m l
                 <-> prime (PBF.n f) (PBF.significant_mask f) m
                     /\ BI.covers_mask m (PBF.ones_mask f) <> 0.
Proof.
  intros Hok.
  destruct (search_max_intervals_ok f Hok) as (l & Hl & Hmaxl).
  exists l. split; auto. split; auto.
  destruct (search_states f Hok) as (start & s & Hst & Hs & Hq & Hsh & _).
  pose proof Hl as Hl'. unfold MIM.search_max_intervals in Hl'.
  rewrite Hst in Hl'; cbn [obind] in Hl'. rewrite Hs in Hl'.
  cbn [obind] in Hl'. injection Hl' as Hl'.
  split; [rewrite <- Hl'; apply sort_descending|].
  destruct (initial_search f start Hok Hst) as (Hsh0 & _).
  destruct (bfs_reachable _ _ _ _ _ Hs) as [Hr _].
  pose proof (reachable_explores _ _ _ _ _ Hsh0
                (initial_explores f start Hok Hst) Hr) as Hex.
  destruct Hsh as (Hall & Hmax & Hnd).
  intros m. split.
  - intros Hin. destruct Hmaxl as (_ & Hm & _).
    destruct (Hm m Hin) as (Hv & Hi & He & Hc).
    split; auto. split; [split; auto|].
    intros i Hi0 Hb Hins.
    pose proof (dropped_wf m i (proj1 Hv) Hi0 Hb) as Hwd.
    assert (Hex0 : In (dropped m i) []); [|destruct Hex0].
    apply (expand_In m (PBF.significant_mask f) [] (dropped m i)
             (proj1 Hv) He).
    exists i. repeat split; auto.
    apply (admissible_spec m (dropped m i) _ (proj1 Hv) Hwd eq_refl).
    intros p Hp Hc' _. apply Hins; auto.
  - intros [[[Hv Hi] Hpr] Hc].
    assert (Hvis : In m (MIM.visited s))
      by (apply (explores_final _ _ _ s m Hex Hq); split; auto).
    assert (He : BI.expand m (PBF.significant_mask f) = Some []).
    { pose proof (expand_spec m (PBF.significant_mask f) (proj1 Hv)) as He.
      destruct (map _ _) as [|e r] eqn:El; auto. exfalso.
      pose proof (expand_In m _ _ e (proj1 Hv) He) as He'.
      destruct (proj1 He' (or_introl eq_refl))
        as (i & Hi0 & Hb & -> & Hadm).
      apply (Hpr i Hi0 Hb).
      destruct (expansion_props (PBF.n f) (PBF.significant_mask f) m
                  (dropped m i) (dropped m i :: r) Hv He
                  (or_introl eq_refl)) as (_ & _ & _ & Hins).
      auto. }
    assert (Hmx : In m (MIM.max_intervals s))
      by (destruct Hex as (_ & _ & HM); auto).
    rewrite <- Hl'. apply sort_In.
    apply remove_subsets_antichain; auto.
    intros x y Hx Hy Hxy.
    destruct (BI.is_subset_of x y) eqn:E; auto. exfalso.
    destruct (Hmax x Hx) as (_ & Hex0 & _).
    assert (Hvx : valid (PBF.n f) x)
      by (apply Hall; unfold stored; rewrite !in_app_iff; auto).
    assert (Hiy : implicant (PBF.n f) (PBF.significant_mask f) y)
      by (apply Hall; unfold stored; rewrite !in_app_iff; auto).
    destruct (expansion_toward _ _ x y [] Hvx Hiy E Hxy Hex0)
      as (e & [] & _).
Qed.

(** X11.  [find_all_max_intervals] returns exactly the prime implicants that
    cover a required point: an interval is in the returned list if and only
    if it is a constructed interval over [n] variables whose points are all
    ones or don't-cares, no literal of which can be dropped without leaving
    them, and [covers_mask(ones_mask)] of it is not zero.  The list has no
    duplicates and is what the object keeps in [all_intervals]. *)
Theorem find_all_max_intervals_primes (nv : nat) (ones dcares : list Z)
    (f : PBF.t) :
  PBF.init nv ones dcares = PBF.Constructed f ->
  exists l st,
    MIM.find_all_max_intervals (MIM.init f) = Some (l, st)
    /\ MIM.all_intervals st = l
    /\ NoDup l
    /\ forall m, In m l
                 <-> prime nv (PBF.significant_mask f) m
                     /\ BI.covers_mask m (PBF.ones_mask f) <> 0.
Proof.
  intros Hinit.
  destruct (init_constructed nv ones dcares f Hinit) as (Hok & Hn & _).
  subst nv.
  destruct (search_max_intervals_primes f Hok)
    as (l & Hl & (Hnd & _) & _ & Hiff).
  exists l, (MIM.mk f (PBF.n f) l []).
  split; [|split; [reflexivity|split; auto]].
  unfold MIM.find_all_max_intervals, MIM.init;
    cbn [MIM.func MIM.n MIM.essential_intervals].
  now rewrite Hl.
Qed.

Lemma find_all_max_intervals_primes_witness :
  PBF.init 2 [0; 3] [1] = PBF.Constructed (PBF.mk 2 4 9 2 11 4)
  /\ exists l st,
      MIM.find_all_max_intervals (MIM.init (PBF.mk 2 4 9 2 11 4))
      = Some (l, st)
      /\ MIM.all_intervals st = l
      /\ NoDup l
      /\ forall m, In m l
                   <-> prime 2 11 m /\ BI.covers_mask m 9 <> 0.
Proof.
  split; [reflexivity|].
  apply (find_all_max_intervals_primes 2 [0; 3] [1] (PBF.mk 2 4 9 2 11 4)).
  reflexivity.
Defined.

(** X12.  [find_all_max_intervals] returns its intervals in order of
    non-increasing [size]: no interval is followed by a larger one. *)
Theorem find_all_max_intervals_sorted (nv : nat) (ones dcares : list Z)
    (f : PBF.t) :
  PBF.init nv ones dcares = PBF.Constructed f ->
  exists l st,
    MIM.find_all_max_intervals (MIM.init f) = Some (l, st)
    /\ descending l
    /\ forall i j a b, (i < j)%nat -> nth_error l i = Some a ->
                       nth_error l j = Some b -> BI.size b <= BI.size a.
Proof.
  intros Hinit.
  destruct (init_constructed nv ones dcares f Hinit) as (Hok & Hn & _).
  destruct (search_max_intervals_primes f Hok) as (l & Hl & _ & Hd & _).
  exists l, (MIM.mk f (PBF.n f) l []). split; [|split; auto].
  - unfold MIM.find_all_max_intervals, MIM.init;
      cbn [MIM.func MIM.n MIM.essential_intervals].
    now rewrite Hl.
  - clear Hl. induction l as [|x l IH]; intros i j a b Hij Hi Hj.
    + destruct i; discriminate.
    + destruct Hd as [Hx Hd]. destruct j as [|j]; [lia|].
      cbn [nth_error] in Hj. destruct i as [|i].
      * cbn in Hi. injection Hi as <-. apply Hx.
        eapply nth_error_In; eauto.
      * cbn [nth_error] in Hi. apply (IH Hd i j); auto. lia.
Qed.

Lemma find_all_max_intervals_sorted_witness :
  PBF.init 3 [0; 3; 5; 6; 7] []
  = PBF.Constructed (PBF.mk 3 8 233 0 233 22)
  /\ exists l st,
      MIM.find_all_max_intervals (MIM.init (PBF.mk 3 8 233 0 233 22))
      = Some (l, st)
      /\ descending l
      /\ forall i j a b, (i < j)%nat -> nth_error l i = Some a ->
                         nth_error l j = Some b -> BI.size b <= BI.size a.
Proof.
  split; [reflexivity|].
  apply (find_all_max_intervals_sorted 3 [0; 3; 5; 6; 7] []
           (PBF.mk 3 8 233 0 233 22)).
  reflexivity.
Defined.

(** ** The essential pass always covers *)

Lemma stage1_covered (ones : Z) (d : MIM.coverage) :
  forall acc,
    snd acc = MIM.covered_by ones (fst acc) ->
    snd (fold_left (MIM.stage1_body ones) d acc)
    = MIM.covered_by ones (fst (fold_left (MIM.stage1_body ones) d acc)).
Proof.
  induction d as [|kv d IH]; intros acc Hacc; cbn [fold_left]; auto.
  apply IH. unfold MIM.stage1_body. destruct (snd kv) as [|x [|y r]]; auto.
  destruct (BI.member x (fst acc)); cbn [negb fst snd]; auto.
  now rewrite covered_by_app, Hacc.
Qed.

Lemma popcount_zero (x : Z) : 0 <= x -> popcount x = O -> x = 0.
Proof.
  intros H0 Hp. destruct (Z.eq_dec x 0); auto.
  pose proof (popcount_pos x ltac:(lia)). lia.
Qed.

Section Picking.

Variable nv : nat.
Variable ones : Z.
Variable intervals : list BI.t.
Hypothesis Hones : 0 <= ones < 2 ^ (2 ^ Z.of_nat nv).
Hypothesis Hvalid : forall a, In a intervals -> valid nv a.

(** A point of [target] that an unchosen interval covers makes the inner
    [for] find an interval with a positive count. *)
Lemma best_of_positive (chosen : list BI.t) (target p : Z) (m : BI.t) :
  0 <= target -> Z.testbit target p = true -> 0 <= p < 2 ^ Z.of_nat nv ->
  In m intervals -> ~ In m chosen -> BI.covers_point m p = true ->
  exists b c, MIM.best_of intervals chosen target = (Some b, c)
              /\ In b intervals /\ ~ In b chosen /\ (0 < c)%nat
              /\ BI.covers_mask b target <> 0.
Proof.
  intros Ht Hbit Hp Hm Hnm Hc.
  destruct (Hvalid m Hm) as [Hw Hn].
  assert (Hpos : (0 < popcount (BI.covers_mask m target))%nat).
  { apply popcount_pos.
    pose proof (covers_mask_nonneg m target Ht).
    assert (BI.covers_mask m target <> 0); [|lia].
    intros H0.
    assert (Z.testbit (BI.covers_mask m target) p = true).
    { rewrite covers_mask_spec, Hbit, Hc, Hn by auto.
      destruct (Z.leb_spec 0 p); [|lia].
      destruct (Z.ltb_spec p (2 ^ Z.of_nat nv)); [|lia].
      now rewrite orb_true_r. }
    rewrite H0, Z.bits_0 in H1. discriminate. }
  destruct (best_of_ok intervals chosen target) as [Hb Hmaxc].
  specialize (Hmaxc m Hm Hnm).
  destruct (MIM.best_of intervals chosen target) as [[b|] c];
    unfold best_ok in Hb; cbn [fst snd] in *; [|lia].
  destruct Hb as (Hbi & Hbn & Hcb & Hc0).
  exists b, c. repeat split; auto.
  intros H0. rewrite H0 in Hcb. simpl in Hcb. lia.
Qed.

Lemma uncovered_point (l : list BI.t) (p : Z) :
  incl l intervals ->
  Z.testbit (Z.land ones (Z.lnot (MIM.covered_by ones l))) p = true ->
  0 <= p < 2 ^ Z.of_nat nv /\ Z.testbit ones p = true
  /\ forall x, In x l -> BI.covers_point x p = false.
Proof.
  intros Hl Hb.
  assert (Hp : 0 <= p) by (destruct (Z.le_gt_cases 0 p); auto;
                           rewrite Z.testbit_neg_r in Hb by lia;
                           discriminate).
  rewrite Z.land_spec, Z.lnot_spec in Hb by auto.
  apply andb_prop in Hb as [Ho Hn]. apply negb_true_iff in Hn.
  destruct (ones_bit_point nv ones Hones p Ho) as [Hr _].
  repeat split; auto; try lia.
  intros x Hx. destruct (BI.covers_point x p) eqn:E; auto.
  rewrite covered_by_bit in Hn.
  assert (existsb (fun r => Z.testbit (BI.covers_mask r ones) p) l = true);
    [|congruence].
  apply existsb_exists. exists x. split; auto.
  apply (covers_mask_bit nv); auto. split; auto.
Qed.

Lemma stage2_complete (fuel : nat) :
  (forall p, one_point nv ones p -> covered_pt intervals p) ->
  forall essential covered remaining,
    NoDup essential -> incl essential intervals ->
    (length intervals < fuel + length essential)%nat ->
    covered = MIM.covered_by ones essential ->
    remaining = Z.land ones (Z.lnot covered) ->
    exists r, MIM.stage2 fuel ones intervals essential covered remaining
              = Some r
              /\ incl r intervals /\ NoDup r
              /\ MIM.covered_by ones r = ones.
Proof.
  intros Hcover.
  induction fuel as [|fuel IH]; intros ess cov rem Hnd Hin Hlen Hcov Hrem.
  - pose proof (NoDup_incl_length Hnd Hin). simpl in Hlen. lia.
  - cbn [MIM.stage2]. destruct (truthy rem) eqn:Et.
    2:{ apply truthy_false in Et. exists ess. repeat split; auto.
        apply (covered_by_full nv ones intervals); auto. congruence. }
    apply truthy_true in Et.
    assert (Hr0 : 0 <= rem)
      by (rewrite Hrem; apply Z.land_nonneg; left; lia).
    destruct (positive_has_bit rem Hr0 Et) as (p & Hp & Hbit).
    pose proof Hbit as Hbit'. rewrite Hrem, Hcov in Hbit'.
    destruct (uncovered_point ess p Hin Hbit') as (Hpr & Ho & Hnone).
    destruct (Hcover p (conj Hpr Ho)) as (m & Hm & Hcm).
    assert (Hnm : ~ In m ess)
      by (intros Hme; rewrite (Hnone m Hme) in Hcm; discriminate).
    destruct (best_of_positive ess rem p m Hr0 Hbit Hpr Hm Hnm Hcm)
      as (b & c & Hbest & Hbi & Hbn & _).
    rewrite Hbest.
    destruct (chosen_grows intervals ess b Hnd Hin Hbi Hbn) as [Hnd' Hin'].
    apply IH; auto.
    + rewrite length_app. simpl. lia.
    + now rewrite covered_by_app, Hcov.
Qed.


End Picking.

Lemma select_essential_complete (f : PBF.t) (l : list BI.t) :
  func_ok f -> maximal_set f l ->
  exists ess, MIM.select_essential (PBF.ones_mask f) l = Some ess
              /\ NoDup ess /\ incl ess l
              /\ MIM.covered_by (PBF.ones_mask f) ess = PBF.ones_mask f.
Proof.
  intros Hok Hmax.
  pose proof (func_ok_ones_range f Hok) as Hor.
  unfold MIM.select_essential.
  rewrite while_set_bits_spec by apply Hor. cbn [obind].
  destruct (fill_coverage_ok (PBF.ones_mask f) l l (proj1 Hor) (incl_refl _)
              (snd (fold_left MIM.ones_body (bits_of (PBF.ones_mask f))
                              ([], []))))
    as (d & Hd & Hdok).
  { apply ones_loop_ok. intros kv []. }
  rewrite Hd. cbn [obind].
  destruct (stage1_ok (PBF.ones_mask f) l d Hdok ([], 0)) as [Hnd Hin];
    [constructor|intros y []|].
  pose proof (stage1_covered (PBF.ones_mask f) d ([], 0) eq_refl) as Hcov.
  destruct (stage2_complete (PBF.n f) (PBF.ones_mask f) l Hor
              (maximal_set_valid f l Hmax) (S (length l))
              (proj2 (proj2 Hmax)) _ _ _ Hnd Hin ltac:(lia) Hcov eq_refl)
    as (r & Hr & Hrl & Hrn & Hrc).
  exists r. auto.
Qed.

(** How a run goes for a function the constructor accepted. *)
Lemma essential_run (f : PBF.t) :
  func_ok f ->
  exists l ess,
    MIM.search_max_intervals f (PBF.n f) = Some l
    /\ maximal_set f l
    /\ NoDup ess /\ incl ess l
    /\ MIM.covered_by (PBF.ones_mask f) ess = PBF.ones_mask f
    /\ forall self, MIM.func self = f -> MIM.n self = PBF.n f ->
         MIM.find_all_max_intervals self
         = Some (l, MIM.mk f (PBF.n f) l (MIM.essential_intervals self))
         /\ (MIM.all_intervals self = [] \/ MIM.all_intervals self = l ->
             MIM.find_essential_intervals self
             = Some (ess, MIM.mk f (PBF.n f) l ess))
         /\ MIM.minimize self = Some (ess, MIM.mk f (PBF.n f) l ess).
Proof.
  intros Hok.
  destruct (search_max_intervals_ok f Hok) as (l & Hl & Hmax).
  destruct (select_essential_complete f l Hok Hmax)
    as (ess & Hess & Hnd & Hin & Hcov).
  exists l, ess. repeat (split; [assumption|]).
  intros [f' n' ai ei] Hf Hn. cbn in Hf, Hn. subst f' n'.
  assert (Hfind : forall ai' ei',
            MIM.find_all_max_intervals (MIM.mk f (PBF.n f) ai' ei')
            = Some (l, MIM.mk f (PBF.n f) l ei')).
  { intros ai' ei'. unfold MIM.find_all_max_intervals.
    cbn [MIM.func MIM.n MIM.essential_intervals]. now rewrite Hl. }
  assert (Hessl : forall ai' ei', ai' = [] \/ ai' = l ->
            MIM.find_essential_intervals (MIM.mk f (PBF.n f) ai' ei')
            = Some (ess, MIM.mk f (PBF.n f) l ess)).
  { intros ai' ei' Hai. unfold MIM.find_essential_intervals.
    cbn [MIM.all_intervals].
    assert (Hself : (match ai' with
                     | [] => r <- MIM.find_all_max_intervals
                                    (MIM.mk f (PBF.n f) ai' ei') ;;
                             Some (snd r)
                     | _ :: _ => Some (MIM.mk f (PBF.n f) ai' ei')
                     end) = Some (MIM.mk f (PBF.n f) l ei')).
    { destruct Hai as [->| ->].
      - now rewrite Hfind.
      - destruct l; auto. now rewrite Hfind. }
    rewrite Hself. cbn [obind MIM.func MIM.n MIM.all_intervals].
    now rewrite Hess. }
  split; [apply Hfind|]. split; [apply Hessl|].
  unfold MIM.minimize. rewrite Hfind. cbn [obind fst snd].
  rewrite Hessl by auto. cbn [obind fst snd MIM.func].
  now rewrite Hcov, Z.eqb_refl.
Qed.

(** X13.  [find_essential_intervals] alone already returns a full cover of
    the required points, without duplicates and drawn from the maximal
    intervals, whether it is called on a fresh object or after
    [find_all_max_intervals]; [minimize] returns that same list, so its
    fallback to [_greedy_cover] is never taken, and afterwards the object
    holds the maximal intervals and the selection. *)
Theorem essential_pass_covers (nv : nat) (ones dcares : list Z) (f : PBF.t) :
  PBF.init nv ones dcares = PBF.Constructed f ->
  exists l ess,
    MIM.find_all_max_intervals (MIM.init f)
    = Some (l, MIM.mk f nv l [])
    /\ MIM.find_essential_intervals (MIM.mk f nv l [])
       = Some (ess, MIM.mk f nv l ess)
    /\ MIM.find_essential_intervals (MIM.init f)
       = Some (ess, MIM.mk f nv l ess)
    /\ MIM.minimize (MIM.init f) = Some (ess, MIM.mk f nv l ess)
    /\ MIM.covered_by (PBF.ones_mask f) ess = PBF.ones_mask f
    /\ NoDup ess /\ incl ess l.
Proof.
  intros Hinit.
  destruct (init_constructed nv ones dcares f Hinit) as (Hok & Hn & _).
  subst nv.
  destruct (essential_run f Hok)
    as (l & ess & _ & _ & Hnd & Hin & Hcov & Hrun).
  exists l, ess.
  destruct (Hrun (MIM.init f) eq_refl eq_refl) as (H1 & H2 & H3).
  destruct (Hrun (MIM.mk f (PBF.n f) l []) eq_refl eq_refl) as (_ & H4 & _).
  split; [exact H1|]. split; [apply H4; now right|].
  split; [apply H2; now left|]. auto.
Qed.

Lemma essential_pass_covers_witness :
  PBF.init 3 [0; 3; 5; 6; 7] []
  = PBF.Constructed (PBF.mk 3 8 233 0 233 22)
  /\ exists l ess,
      MIM.find_all_max_intervals (MIM.init (PBF.mk 3 8 233 0 233 22))
      = Some (l, MIM.mk (PBF.mk 3 8 233 0 233 22) 3 l [])
      /\ MIM.find_essential_intervals (MIM.mk (PBF.mk 3 8 233 0 233 22) 3 l [])
         = Some (ess, MIM.mk (PBF.mk 3 8 233 0 233 22) 3 l ess)
      /\ MIM.find_essential_intervals (MIM.init (PBF.mk 3 8 233 0 233 22))
         = Some (ess, MIM.mk (PBF.mk 3 8 233 0 233 22) 3 l ess)
      /\ MIM.minimize (MIM.init (PBF.mk 3 8 233 0 233 22))
         = Some (ess, MIM.mk (PBF.mk 3 8 233 0 233 22) 3 l ess)
      /\ MIM.covered_by 233 ess = 233
      /\ NoDup ess /\ incl ess l.
Proof.
  split; [reflexivity|].
  apply (essential_pass_covers 3 [0; 3; 5; 6; 7] []
           (PBF.mk 3 8 233 0 233 22)).
  reflexivity.
Defined.

(** X14.  Essential implicants are always selected: a maximal interval that
    is the only one in [all_intervals] to cover some in-range index of
    [ones] is in the list [minimize] returns. *)
Theorem essential_selected (nv : nat) (ones dcares : list Z) (f : PBF.t)
    (m : BI.t) (p : Z) :
  PBF.init nv ones dcares = PBF.Constructed f ->
  In p ones -> 0 <= p < 2 ^ Z.of_nat nv ->
  exists result st,
    MIM.minimize (MIM.init f) = Some (result, st)
    /\ (In m (MIM.all_intervals st) ->
        BI.covers_point m p = true ->
        (forall m', In m' (MIM.all_intervals st) ->
                    BI.covers_point m' p = true -> m' = m) ->
        In m result).
Proof.
  intros Hinit Hp Hr.
  destruct (init_constructed nv ones dcares f Hinit) as (Hok & Hn & Ho & _).
  subst nv.
  destruct (essential_run f Hok)
    as (l & ess & _ & Hmax & _ & Hin & Hcov & Hrun).
  destruct (Hrun (MIM.init f) eq_refl eq_refl) as (_ & _ & Hmin).
  exists ess, (MIM.mk f (PBF.n f) l ess). split; auto.
  cbn [MIM.all_intervals]. intros Hm Hc Honly.
  assert (Hb : Z.testbit (PBF.ones_mask f) p = true)
    by (rewrite Ho; apply collect_bit; auto).
  rewrite <- Hcov, covered_by_bit in Hb.
  apply existsb_exists in Hb as (m' & Hm' & Hb).
  rewrite covers_mask_spec in Hb
    by (apply (maximal_set_valid f l Hmax); auto).
  apply andb_prop in Hb as [Hb _]. apply andb_prop in Hb as [_ Hb].
  now rewrite <- (Honly m' (Hin m' Hm') Hb).
Qed.

Lemma essential_selected_witness :
  PBF.init 2 [0; 3] [1] = PBF.Constructed (PBF.mk 2 4 9 2 11 4)
  /\ In 3 [0; 3] /\ 0 <= 3 < 2 ^ Z.of_nat 2
  /\ exists result st,
      MIM.minimize (MIM.init (PBF.mk 2 4 9 2 11 4)) = Some (result, st)
      /\ (In (BI.mk 2 1 1) (MIM.all_intervals st) ->
          BI.covers_point (BI.mk 2 1 1) 3 = true ->
          (forall m', In m' (MIM.all_intervals st) ->
                      BI.covers_point m' 3 = true -> m' = BI.mk 2 1 1) ->
          In (BI.mk 2 1 1) result).
Proof.
  assert (H1 : In 3 [0; 3]) by (right; left; reflexivity).
  assert (H2 : 0 <= 3 < 2 ^ Z.of_nat 2) by (simpl; lia).
  split; [reflexivity|]. split; [exact H1|]. split; [exact H2|].
  apply (essential_selected 2 [0; 3] [1] (PBF.mk 2 4 9 2 11 4)
           (BI.mk 2 1 1) 3 eq_refl H1 H2).
Defined.



(** ** Rendering *)

Lemma first_char_app (s1 s2 : string) (c : ascii) :
  first_char s1 = Some c -> first_char (s1 ++ s2)%string = Some c.
Proof. destruct s1; [discriminate|]. cbn. auto. Qed.

Lemma join_first_char (sep x : string) (r : list string) (c : ascii) :
  first_char x = Some c -> first_char (BI.join sep (x :: r)) = Some c.
Proof.
  cbn [BI.join]. revert x. induction r as [|y r IH]; intros x Hx;
    cbn [fold_left]; auto.
  apply IH. now apply first_char_app.
Qed.

Lemma literal_terms_shape (a : BI.t) (l : list nat) :
  forall acc,
    Forall not_one_first acc ->
    Forall not_one_first
      (fold_left
         (fun terms i =>
            if truthy (Z.land (BI.mask a) (Z.shiftl 1 (Z.of_nat i))) then
              let var_name := ("x" ++ BI.decimal (BI.n a - i))%string in
              if truthy (Z.land (BI.value a) (Z.shiftl 1 (Z.of_nat i)))
              then terms ++ [var_name]
              else terms ++ [("¬" ++ var_name)%string]
            else terms)
         l acc).
Proof.
  induction l as [|i l IH]; intros acc Hacc; cbn [fold_left]; auto.
  apply IH. destruct (truthy (Z.land (BI.mask a) _)); auto.
  cbv zeta. destruct (truthy (Z.land (BI.value a) _));
    apply Forall_app; split; auto; repeat constructor;
    eexists; (split; [reflexivity|discriminate]).
Qed.

Lemma literal_terms_nonempty (a : BI.t) (l : list nat) (k : nat) :
  In k l ->
  truthy (Z.land (BI.mask a) (Z.shiftl 1 (Z.of_nat k))) = true ->
  forall acc,
    fold_left
      (fun terms i =>
         if truthy (Z.land (BI.mask a) (Z.shiftl 1 (Z.of_nat i))) then
           let var_name := ("x" ++ BI.decimal (BI.n a - i))%string in
           if truthy (Z.land (BI.value a) (Z.shiftl 1 (Z.of_nat i)))
           then terms ++ [var_name]
           else terms ++ [("¬" ++ var_name)%string]
         else terms)
      l acc <> [].
Proof.
  assert (Hgrow : forall l' acc, acc <> [] ->
            fold_left
              (fun terms i =>
                 if truthy (Z.land (BI.mask a) (Z.shiftl 1 (Z.of_nat i)))
                 then
                   let var_name := ("x" ++ BI.decimal (BI.n a - i))%string in
                   if truthy (Z.land (BI.value a) (Z.shiftl 1 (Z.of_nat i)))
                   then terms ++ [var_name]
                   else terms ++ [("¬" ++ var_name)%string]
                 else terms)
              l' acc <> []).
  { induction l' as [|i l' IH]; intros acc Hacc; cbn [fold_left]; auto.
    apply IH. destruct (truthy (Z.land (BI.mask a) _)); auto.
    cbv zeta. destruct (truthy (Z.land (BI.value a) _));
      intros E; apply app_eq_nil in E as [_ E]; discriminate. }
  intros Hin Hk.
  induction l as [|i l IH]; intros acc; [destruct Hin|].
  cbn [fold_left]. destruct Hin as [->|Hin]; [|now apply IH].
  apply Hgrow. rewrite Hk. cbv zeta.
  destruct (truthy (Z.land (BI.value a) _));
    intros E; apply app_eq_nil in E as [_ E]; discriminate.
Qed.

Lemma str_not_one (a : BI.t) :
  wf a -> BI.mask a <> 0 -> not_one_first (BI.str a).
Proof.
  intros Hw Hm. unfold BI.str.
  destruct (Z.eqb_spec (BI.mask a) 0); [contradiction|].
  destruct (positive_has_bit (BI.mask a)) as (i & Hi & Hb); auto.
  { apply (wf_mask_range a Hw). }
  destruct (wf_mask_bit a i Hw Hb) as [_ Hlt].
  pose proof (literal_terms_shape a (BI.countdown (BI.n a)) []
                (Forall_nil _)) as Hshape.
  assert (Hne : In (Z.to_nat i) (BI.countdown (BI.n a))).
  { unfold BI.countdown. apply in_rev. rewrite rev_involutive.
    apply in_seq. lia. }
  assert (Hk : truthy (Z.land (BI.mask a)
                         (Z.shiftl 1 (Z.of_nat (Z.to_nat i)))) = true)
    by (rewrite Z2Nat.id, Z.shiftl_1_l, truthy_land_pow2 by lia; auto).
  pose proof (literal_terms_nonempty a (BI.countdown (BI.n a))
                (Z.to_nat i) Hne Hk []) as Hnil.
  destruct (fold_left _ (BI.countdown (BI.n a)) []) as [|x r];
    [contradiction|].
  inversion Hshape as [|? ? (c & Hc & Hc1) _]; subst.
  exists c. split; auto. now apply join_first_char.
Qed.

(** X16.  [__str__] of a constructed interval is the constant ["1"] exactly
    for the universal interval ([mask == 0]); any other interval renders as
    a text that does not even start with the digit one. *)
Theorem str_universal (nv : nat) (mk vl : Z) :
  let t := BI.init nv mk vl in
  (BI.str t = "1"%string <-> BI.mask t = 0)
  /\ (BI.mask t <> 0 -> not_one_first (BI.str t)).
Proof.
  intros t. assert (Hw : wf t) by apply wf_init.
  split; [|now apply str_not_one]. split.
  - intros Hs. destruct (Z.eq_dec (BI.mask t) 0) as [|Hm]; auto.
    destruct (str_not_one t Hw Hm) as (c & Hc & Hc1).
    rewrite Hs in Hc. cbn in Hc. congruence.
  - intros Hm. unfold BI.str. now rewrite Hm.
Qed.

Lemma render_universal (l : list BI.t) :
  forall terms,
    (exists m, In m l /\ BI.str m = "1"%string) ->
    MIM.render l terms = "1"%string.
Proof.
  induction l as [|i l IH]; intros terms (m & Hin & Hs); [destruct Hin|].
  cbn [MIM.render]. destruct (String.eqb_spec (BI.str i) "1"); auto.
  apply IH. destruct Hin as [->|Hin]; [contradiction|eauto].
Qed.

Lemma render_terms (l : list BI.t) :
  forall terms,
    (forall m, In m l -> BI.str m <> "1"%string) ->
    MIM.render l terms
    = BI.join " ∨ "
        (terms ++ map (fun i => ("(" ++ BI.str i ++ ")")%string) l).
Proof.
  induction l as [|i l IH]; intros terms Hall; cbn [MIM.render map].
  - now rewrite app_nil_r.
  - destruct (String.eqb_spec (BI.str i) "1") as [E|_].
    + exfalso. apply (Hall i); auto. now left.
    + rewrite IH by (intros; apply Hall; now right).
      now rewrite <- app_assoc.
Qed.

Lemma render_parenthesis (l : list BI.t) :
  l <> [] -> (forall m, In m l -> BI.str m <> "1"%string) ->
  first_char (MIM.render l []) = Some "("%char.
Proof.
  intros Hne Hall. rewrite render_terms by auto. cbn [app].
  destruct l as [|i l]; [contradiction|]. cbn [map].
  now apply join_first_char.
Qed.

Lemma all_points_significant (f : PBF.t) :
  func_ok f ->
  (PBF.zeros_mask f = 0
   <-> forall p, 0 <= p < 2 ^ Z.of_nat (PBF.n f) ->
                 Z.testbit (PBF.significant_mask f) p = true).
Proof.
  intros Hok. rewrite zero_bits. split.
  - intros H p Hp. specialize (H p ltac:(lia)).
    rewrite zeros_bit in H by auto.
    destruct (Z.leb_spec 0 p); [|lia].
    destruct (Z.ltb_spec p (2 ^ Z.of_nat (PBF.n f))); [|lia].
    cbn [andb] in H. now apply negb_false_iff in H.
  - intros H p Hp. rewrite zeros_bit by auto.
    destruct (Z.leb_spec 0 p); [|lia].
    destruct (Z.ltb_spec p (2 ^ Z.of_nat (PBF.n f))); auto.
    cbn [andb]. rewrite H; auto.
Qed.

(** X17.  The constants of [get_minimal_dnf]: for an accepted input the
    formula is ["0"] exactly when the function has no required point
    ([ones_mask == 0]), and it is ["1"] exactly when it has a required point
    and no forced zero ([zeros_mask == 0]); in every other case it starts
    with an opening parenthesis. *)
Theorem dnf_constants (nv : nat) (ones dcares : list Z) (f : PBF.t) :
  PBF.init nv ones dcares = PBF.Constructed f ->
  exists s,
    run nv ones dcares = Some s
    /\ (s = "0"%string <-> PBF.ones_mask f = 0)
    /\ (s = "1"%string
        <-> PBF.ones_mask f <> 0 /\ PBF.zeros_mask f = 0)
    /\ (PBF.ones_mask f <> 0 -> PBF.zeros_mask f <> 0 ->
        first_char s = Some "("%char).
Proof.
  intros Hinit.
  destruct (init_constructed nv ones dcares f Hinit) as (Hok & Hn & _).
  destruct (essential_run f Hok)
    as (l & ess & _ & Hmax & _ & Hin & Hcov & Hrun).
  destruct (Hrun (MIM.init f) eq_refl eq_refl) as (_ & _ & Hmin).
  set (s := match ess with
            | [] => "0"%string
            | _ :: _ => MIM.render ess []
            end).
  assert (Hs : run nv ones dcares = Some s).
  { unfold run. rewrite Hinit. unfold MIM.get_minimal_dnf.
    rewrite Hmin. cbn [obind fst snd]. unfold s. now destruct ess. }
  assert (Hempty : ess = [] <-> PBF.ones_mask f = 0).
  { split.
    - intros E. rewrite <- Hcov, E. reflexivity.
    - intros H0. destruct ess as [|m r]; auto. exfalso.
      destruct Hmax as (_ & Hm & _).
      destruct (Hm m (Hin m (or_introl eq_refl)))
        as ([Hw _] & _ & _ & Hc).
      apply Hc. rewrite H0. now apply covers_mask_zero. }
  assert (Hmask0 : forall m, In m ess ->
                     (BI.str m = "1"%string <-> BI.mask m = 0)).
  { intros m Hm. destruct Hmax as (_ & Hmx & _).
    destruct (Hmx m (Hin m Hm)) as ([Hw _] & _).
    split.
    - intros E. destruct (Z.eq_dec (BI.mask m) 0) as [|Hne]; auto.
      destruct (str_not_one m Hw Hne) as (c & Hc & Hc1).
      rewrite E in Hc. cbn in Hc. congruence.
    - intros E. unfold BI.str. now rewrite E. }
  assert (Hdec : (exists m, In m ess /\ BI.str m = "1"%string)
                 \/ (forall m, In m ess -> BI.str m <> "1"%string)).
  { clear. induction ess as [|i r IH].
    - right. intros m [].
    - destruct (String.eqb_spec (BI.str i) "1") as [E|E].
      + left. exists i. split; auto. now left.
      + destruct IH as [(m & Hm & Hs)|IH].
        * left. exists m. split; auto. now right.
        * right. intros m [<-|Hm]; auto. }
  assert (Huniv : (exists m, In m ess /\ BI.mask m = 0)
                  <-> PBF.ones_mask f <> 0 /\ PBF.zeros_mask f = 0).
  { split.
    - intros (m & Hm & Hm0). split.
      + intros H0. apply Hempty in H0. subst ess. destruct Hm.
      + apply (all_points_significant f Hok). intros p Hp.
        destruct Hmax as (_ & Hmx & _).
        destruct (Hmx m (Hin m Hm)) as ([Hw Hnm] & Hins & _).
        apply Hins; [now rewrite Hnm|].
        apply covers_point_spec.
        now rewrite Hm0, Z.land_0_r, (wf_universal m Hw Hm0).
    - intros [H1 H0]. destruct ess as [|m r]; [exfalso; apply H1; now apply Hempty|].
      exists m. split; [now left|].
      destruct (Z.eq_dec (BI.mask m) 0) as [|Hne]; auto. exfalso.
      destruct Hmax as (_ & Hmx & _).
      destruct (Hmx m (Hin m (or_introl eq_refl)))
        as ([Hw Hnm] & _ & He & _).
      destruct (positive_has_bit (BI.mask m)) as (i & Hi & Hb); auto.
      { apply (wf_mask_range m Hw). }
      pose proof (dropped_wf m i Hw Hi Hb) as Hwd.
      assert (Hex0 : In (dropped m i) []); [|destruct Hex0].
      apply (expand_In m (PBF.significant_mask f) [] (dropped m i) Hw He).
      exists i. repeat split; auto.
      apply (admissible_spec m (dropped m i) _ Hw Hwd eq_refl).
      intros p Hp _ _.
      apply (all_points_significant f Hok); auto. now rewrite <- Hnm. }
  exists s. split; auto. split; [|split].
  - rewrite <- Hempty. unfold s. destruct ess as [|m r]; [tauto|].
    split; [|discriminate]. intros E. exfalso.
    destruct Hdec as [Hu|Hu].
    + rewrite render_universal in E by auto. discriminate.
    + pose proof (render_parenthesis (m :: r) ltac:(discriminate) Hu) as Hc.
      rewrite E in Hc. discriminate.
  - rewrite <- Huniv. unfold s. destruct ess as [|m r].
    + split; [discriminate|]. intros (m & [] & _).
    + split.
      * intros E. destruct Hdec as [(m' & Hm' & Hs')|Hu].
        -- exists m'. split; auto. now apply Hmask0.
        -- pose proof (render_parenthesis (m :: r) ltac:(discriminate) Hu)
             as Hc.
           rewrite E in Hc. discriminate.
      * intros (m' & Hm' & H0). apply render_universal.
        exists m'. split; auto. now apply Hmask0.
  - intros H1 H0. unfold s. destruct ess as [|m r]; [exfalso; apply H1; now apply Hempty|].
    apply render_parenthesis; [discriminate|].
    intros m' Hm' E. apply H0. apply Huniv.
    exists m'. split; auto. now apply Hmask0.
Qed.

Lemma dnf_constants_witness :
  PBF.init 2 [0; 1; 2; 3] [] = PBF.Constructed (PBF.mk 2 4 15 0 15 0)
  /\ exists s,
      run 2 [0; 1; 2; 3] [] = Some s
      /\ (s = "1"%string <-> 15 <> 0 /\ 0 = 0).
Proof.
  split; [reflexivity|].
  destruct (dnf_constants 2 [0; 1; 2; 3] [] (PBF.mk 2 4 15 0 15 0) eq_refl)
    as (s & Hs & _ & H1 & _).
  exists s. split; [exact Hs|exact H1].
Defined.

(** ** The coverage map and the order of selection *)

Lemma pos_bits_NoDup (p : positive) : NoDup (pos_bits p).
Proof.
  induction p as [p IH|p IH|]; cbn [pos_bits].
  - constructor.
    + intros H. apply in_map_iff in H as (c & Hc & _). lia.
    + apply NoDup_map_in; auto. intros; lia.
  - apply NoDup_map_in; auto. intros; lia.
  - repeat constructor. intros [].
Qed.

Lemma positions_In (x k : Z) :
  0 <= x ->
  (In k (map (fun b => bit_length b - 1) (bits_of x))
   <-> 0 <= k /\ Z.testbit x k = true).
Proof.
  intros Hx. rewrite in_map_iff. split.
  - intros (b & <- & Hb). apply bits_of_spec in Hb as (i & Hi & -> & Hbit);
      auto.
    now rewrite bit_length_pow2.
  - intros [Hk Hb]. exists (2 ^ k). split; [now apply bit_length_pow2|].
    apply bits_of_spec; eauto.
Qed.

Lemma positions_NoDup (x : Z) :
  0 <= x -> NoDup (map (fun b => bit_length b - 1) (bits_of x)).
Proof.
  intros Hx. apply NoDup_map_in.
  - intros a b Ha Hb E.
    apply bits_of_spec in Ha as (i & Hi & -> & _); auto.
    apply bits_of_spec in Hb as (j & Hj & -> & _); auto.
    rewrite !bit_length_pow2 in E by auto. now subst.
  - destruct x as [|p|p]; try lia; [constructor|apply pos_bits_NoDup].
Qed.

Lemma fold_dict_append (x : BI.t) (ks : list Z) :
  NoDup ks ->
  forall d,
    fold_left (fun d k => MIM.dict_append d k x) ks d
    = map (fun kv : Z * list BI.t =>
             if existsb (Z.eqb (fst kv)) ks
             then (fst kv, snd kv ++ [x]) else kv) d.
Proof.
  induction 1 as [|k ks Hk Hnd IH]; intros d; cbn [fold_left existsb].
  - symmetry. rewrite <- (map_id d) at 2. apply map_ext. now intros [].
  - rewrite IH. unfold MIM.dict_append. rewrite map_map.
    apply map_ext. intros [k' v]. cbn [fst snd].
    destruct (Z.eqb_spec k' k) as [->|Hne]; cbn [fst snd orb]; auto.
    destruct (existsb (Z.eqb k) ks) eqn:E; auto.
    apply existsb_exists in E as (y & Hy & Ey). apply Z.eqb_eq in Ey.
    subst y. contradiction.
Qed.

Section CoverageMap.

Variable nv : nat.
Variable ones : Z.
Variable intervals : list BI.t.
Hypothesis Hones : 0 <= ones < 2 ^ (2 ^ Z.of_nat nv).
Hypothesis Hvalid : forall a, In a intervals -> valid nv a.

Lemma fill_one (x : BI.t) (done : list BI.t) (d : MIM.coverage) :
  coverage_of ones done d ->
  coverage_of ones (done ++ [x])
    (fold_left (MIM.fill_body x) (bits_of (BI.covers_mask x ones)) d).
Proof.
  intros Hd.
  assert (Hc0 : 0 <= BI.covers_mask x ones)
    by (apply covers_mask_nonneg; lia).
  replace (fold_left (MIM.fill_body x) (bits_of (BI.covers_mask x ones)) d)
    with (fold_left (fun d k => MIM.dict_append d k x)
            (map (fun b => bit_length b - 1)
                 (bits_of (BI.covers_mask x ones))) d).
  2:{ generalize (bits_of (BI.covers_mask x ones)). intros l.
      clear Hd. revert d.
      induction l as [|b l IH]; intros d; cbn [map fold_left];
        [reflexivity|apply IH]. }
  rewrite fold_dict_append by now apply positions_NoDup.
  intros kv Hin. apply in_map_iff in Hin as ([k v] & E & Hin).
  destruct (Hd (k, v) Hin) as [Hk Hv]. cbn [fst snd] in *.
  rewrite filter_app. cbn [filter].
  destruct (existsb (Z.eqb k) _) eqn:Ex; subst kv; cbn [fst snd];
    split; auto.
  - apply existsb_exists in Ex as (y & Hy & Ey). apply Z.eqb_eq in Ey.
    subst y. apply positions_In in Hy as [_ Hy]; auto.
    now rewrite Hy, Hv.
  - destruct (Z.testbit (BI.covers_mask x ones) k) eqn:Eb.
    + assert (existsb (Z.eqb k)
                (map (fun b => bit_length b - 1)
                     (bits_of (BI.covers_mask x ones))) = true);
        [|congruence].
      apply existsb_exists. exists k. split; [|apply Z.eqb_refl].
      apply positions_In; auto. tauto.
    + now rewrite Hv, app_nil_r.
Qed.

End CoverageMap.

Lemma dict_set_all (P : Z * list BI.t -> Prop) (d : MIM.coverage) (k : Z)
    (v : list BI.t) :
  (forall kv, In kv d -> P kv) -> P (k, v) ->
  forall kv, In kv (MIM.dict_set d k v) -> P kv.
Proof.
  intros Hd Hk. induction d as [|[k' v'] d IH]; cbn [MIM.dict_set].
  - intros kv [<-|[]]. auto.
  - destruct (Z.eqb_spec k' k) as [->|Hne].
    + intros kv [<-|Hin]; auto. apply Hd. now right.
    + intros kv [<-|Hin].
      * apply Hd. now left.
      * apply IH; auto. intros kv' H. apply Hd. now right.
Qed.

Lemma ones_loop_coverage (ones : Z) :
  0 <= ones ->
  coverage_of ones []
    (snd (fold_left MIM.ones_body (bits_of ones) ([], []))).
Proof.
  intros Ho.
  assert (Hgen : forall bits acc,
            (forall b, In b bits -> In b (bits_of ones)) ->
            coverage_of ones [] (snd acc) ->
            coverage_of ones [] (snd (fold_left MIM.ones_body bits acc))).
  { induction bits as [|b bits IH]; intros acc Hb Hacc; cbn [fold_left];
      auto.
    apply IH; [intros; apply Hb; now right|].
    unfold MIM.ones_body; cbn [snd]. unfold coverage_of.
    apply dict_set_all; auto. cbn [fst snd filter].
    destruct (proj1 (bits_of_spec ones b Ho) (Hb b (or_introl eq_refl)))
      as (i & Hi & -> & Hbit).
    rewrite bit_length_pow2 by auto. auto. }
  apply Hgen; auto. intros kv [].
Qed.

Lemma fresh_cover_nil (nv : nat) (ones : Z) : fresh_cover nv ones [].
Proof. intros pre x post E. destruct pre; discriminate. Qed.

Lemma fresh_cover_snoc (nv : nat) (ones : Z) (l : list BI.t) (b : BI.t) :
  fresh_cover nv ones l ->
  (exists p, one_point nv ones p /\ BI.covers_point b p = true
             /\ forall y, In y l -> BI.covers_point y p = false) ->
  fresh_cover nv ones (l ++ [b]).
Proof.
  intros Hl Hb pre x post E.
  destruct post as [|y post0].
  - apply app_inj_tail in E as [<- <-]. exact Hb.
  - destruct (exists_last (l := y :: post0) ltac:(discriminate))
      as (post' & z & Ez).
    rewrite Ez, app_comm_cons, app_assoc in E.
    apply app_inj_tail in E as [-> _].
    apply (Hl pre x post'). reflexivity.
Qed.

Section SelectionOrder.

Variable nv : nat.
Variable ones : Z.
Variable intervals : list BI.t.
Hypothesis Hones : 0 <= ones < 2 ^ (2 ^ Z.of_nat nv).
Hypothesis Hvalid : forall a, In a intervals -> valid nv a.

Lemma fill_coverage_sem (l : list BI.t) :
  forall done d,
    coverage_of ones done d ->
    exists d', MIM.fill_coverage ones l d = Some d'
               /\ coverage_of ones (done ++ l) d'.
Proof.
  induction l as [|x l IH]; intros done d Hd.
  - exists d. rewrite app_nil_r. split; auto.
  - unfold MIM.fill_coverage; cbn [fold_left obind].
    rewrite while_set_bits_spec by (apply covers_mask_nonneg; lia).
    destruct (IH (done ++ [x]) _ (fill_one nv ones Hones x done d Hd))
      as (d' & Hd' & Hc').
    exists d'. split; auto. now rewrite <- app_assoc in Hc'.
Qed.

Lemma stage1_fresh (d : MIM.coverage) :
  coverage_of ones intervals d ->
  forall acc,
    incl (fst acc) intervals -> fresh_cover nv ones (fst acc) ->
    incl (fst (fold_left (MIM.stage1_body ones) d acc)) intervals
    /\ fresh_cover nv ones (fst (fold_left (MIM.stage1_body ones) d acc)).
Proof.
  induction d as [|kv d IH]; intros Hd acc Hin Hfr; cbn [fold_left]; auto.
  assert (Hd' : coverage_of ones intervals d)
    by (intros kv' H; apply Hd; now right).
  destruct (Hd kv (or_introl eq_refl)) as [[Hk Hbit] Hv].
  assert (Hstep : incl (fst (MIM.stage1_body ones acc kv)) intervals
                  /\ fresh_cover nv ones (fst (MIM.stage1_body ones acc kv))).
  { unfold MIM.stage1_body.
    destruct (snd kv) as [|x [|y r]] eqn:Ekv; auto.
    destruct (BI.member x (fst acc)) eqn:Em; cbn [negb fst]; auto.
    apply member_not_In in Em.
    assert (Hx : In x (filter (fun x => Z.testbit (BI.covers_mask x ones)
                                                  (fst kv)) intervals))
      by (rewrite <- Hv; now left).
    apply filter_In in Hx as [Hxi Hxb].
    pose proof (ones_bit_point nv ones Hones (fst kv) Hbit) as Hpt.
    split.
    - apply incl_app; auto. intros z [<-|[]]. auto.
    - apply fresh_cover_snoc; auto. exists (fst kv). split; auto. split.
      + rewrite covers_mask_spec in Hxb by (apply Hvalid; auto).
        apply andb_prop in Hxb as [Hxb _].
        now apply andb_prop in Hxb as [_ Hxb].
      + intros y Hy. destruct (BI.covers_point y (fst kv)) eqn:Ec; auto.
        exfalso. apply Em.
        assert (Hyf : In y (filter
                              (fun x => Z.testbit (BI.covers_mask x ones)
                                                  (fst kv)) intervals)).
        { apply filter_In. split; auto.
          apply (covers_mask_bit nv); auto. }
        rewrite <- Hv in Hyf. destruct Hyf as [<-|[]]. exact Hy. }
  destruct Hstep. apply IH; auto.
Qed.

Lemma stage2_fresh (fuel : nat) :
  forall essential covered remaining r,
    MIM.stage2 fuel ones intervals essential covered remaining = Some r ->
    incl essential intervals ->
    covered = MIM.covered_by ones essential ->
    remaining = Z.land ones (Z.lnot covered) ->
    fresh_cover nv ones essential ->
    fresh_cover nv ones r.
Proof.
  induction fuel as [|fuel IH]; intros ess cov rem r Hr Hin Hcov Hrem Hfr;
    cbn [MIM.stage2] in Hr; destruct (truthy rem) eqn:Et;
    try discriminate; try (injection Hr as <-; exact Hfr).
  destruct (best_of_ok intervals ess rem) as [Hb _].
  destruct (MIM.best_of intervals ess rem) as [[b|] c];
    [|injection Hr as <-; exact Hfr].
  unfold best_ok in Hb; cbn [fst snd] in Hb.
  destruct Hb as (Hbi & Hbn & Hc & Hpos).
  assert (Hr0 : 0 <= rem)
    by (rewrite Hrem; apply Z.land_nonneg; left; lia).
  apply (IH _ _ _ r Hr).
  - apply incl_app; auto. intros z [<-|[]]. auto.
  - now rewrite covered_by_app, Hcov.
  - reflexivity.
  - apply fresh_cover_snoc; auto.
    destruct (positive_has_bit (BI.covers_mask b rem)) as (p & Hp & Hbit).
    + now apply covers_mask_nonneg.
    + intros E. rewrite E in Hc. simpl in Hc. lia.
    + rewrite covers_mask_spec in Hbit by (apply Hvalid; auto).
      apply andb_prop in Hbit as [Hbit _].
      apply andb_prop in Hbit as [Hrp Hcp].
      rewrite Hrem, Hcov in Hrp.
      destruct (uncovered_point nv ones intervals Hones Hvalid ess p Hin Hrp)
        as (Hpr & Ho & Hnone).
      exists p. split; [split; auto|]. split; auto.
Qed.

Lemma select_essential_fresh (r : list BI.t) :
  MIM.select_essential ones intervals = Some r -> fresh_cover nv ones r.
Proof.
  unfold MIM.select_essential.
  rewrite while_set_bits_spec by lia. cbn [obind].
  destruct (fill_coverage_sem intervals []
              (snd (fold_left MIM.ones_body (bits_of ones) ([], [])))
              (ones_loop_coverage ones (proj1 Hones)))
    as (d & Hd & Hsem).
  rewrite Hd. cbn [obind app]. cbn [app] in Hsem.
  destruct (stage1_fresh d Hsem ([], 0)) as [Hin Hfr];
    [intros y []|apply fresh_cover_nil|].
  intros Hr.
  apply (stage2_fresh _ _ _ _ r Hr); auto.
  apply (stage1_covered ones d ([], 0) eq_refl).
Qed.

End SelectionOrder.

(** X18.  No pick is wasted at the time it is made: in the list that
    [minimize] returns, every implicant covers an in-range index of [ones]
    that none of the implicants before it in the list covers. *)
Theorem selection_order (nv : nat) (ones dcares : list Z) (f : PBF.t) :
  PBF.init nv ones dcares = PBF.Constructed f ->
  exists result st,
    MIM.minimize (MIM.init f) = Some (result, st)
    /\ forall pre x post,
        result = pre ++ x :: post ->
        exists p, In p ones /\ 0 <= p < 2 ^ Z.of_nat nv
                  /\ BI.covers_point x p = true
                  /\ forall y, In y pre -> BI.covers_point y p = false.
Proof.
  intros Hinit.
  destruct (init_constructed nv ones dcares f Hinit) as (Hok & Hn & Ho & _).
  subst nv.
  destruct (search_max_intervals_ok f Hok) as (l & Hl & Hmax).
  destruct (select_essential_complete f l Hok Hmax)
    as (ess & Hess & _ & _ & Hcov).
  exists ess, (MIM.mk f (PBF.n f) l ess). split.
  - unfold MIM.minimize, MIM.find_all_max_intervals, MIM.init.
    cbn [MIM.func MIM.n MIM.essential_intervals].
    rewrite Hl. cbn [obind fst snd].
    unfold MIM.find_essential_intervals, MIM.find_all_max_intervals.
    cbn [MIM.func MIM.n MIM.all_intervals MIM.essential_intervals].
    assert (Hself : (match l with
                     | [] => r <- (unique_intervals <-
                                     MIM.search_max_intervals f (PBF.n f) ;;
                                   Some (unique_intervals,
                                         MIM.mk f (PBF.n f) unique_intervals
                                                [])) ;; Some (snd r)
                     | _ :: _ => Some (MIM.mk f (PBF.n f) l [])
                     end) = Some (MIM.mk f (PBF.n f) l [])).
    { destruct l; auto. rewrite Hl. reflexivity. }
    rewrite Hself. cbn [obind MIM.func MIM.n MIM.all_intervals].
    rewrite Hess. cbn [obind fst snd MIM.func].
    now rewrite Hcov, Z.eqb_refl.
  - intros pre x post E.
    destruct (select_essential_fresh (PBF.n f) (PBF.ones_mask f) l
                (func_ok_ones_range f Hok) (maximal_set_valid f l Hmax)
                ess Hess pre x post E)
      as (p & [Hpr Hbit] & Hc & Hnone).
    exists p. rewrite Ho in Hbit. apply collect_bit in Hbit as [Hin _].
    auto.
Qed.

Lemma selection_order_witness :
  PBF.init 3 [0; 3; 5; 6; 7] []
  = PBF.Constructed (PBF.mk 3 8 233 0 233 22)
  /\ exists result st,
      MIM.minimize (MIM.init (PBF.mk 3 8 233 0 233 22)) = Some (result, st)
      /\ forall pre x post,
          result = pre ++ x :: post ->
          exists p, In p [0; 3; 5; 6; 7] /\ 0 <= p < 2 ^ Z.of_nat 3
                    /\ BI.covers_point x p = true
                    /\ forall y, In y pre -> BI.covers_point y p = false.
Proof.
  split; [reflexivity|].
  apply (selection_order 3 [0; 3; 5; 6; 7] [] (PBF.mk 3 8 233 0 233 22)).
  reflexivity.
Defined.
